(** * tlbcore: the JSON codec (common/jsonio.h) and the framed transport
      (common/jsonpipe.cc), embedded in Rocq.

    The first half of this file embeds the generic container overloads of
    [wrJsonSize], [wrJson] and [rdJson] together with [asJson] and
    [fromJson]; the second half embeds [jsonpipe].  Definitions carry the
    names of the C++ functions they embed. *)

From Stdlib Require Import Ascii String NArith ZArith Lia Bool Arith List Sorted.
From Stdlib Require DecimalString.
From Equations Require Import Equations.
Import ListNotations.

Set Default Goal Selector "!".

(** ** Text, cursors and [size_t] *)

(** A C++ [std::string] and the bytes behind a [char *] are lists of
    characters. *)
Definition text := list ascii.

Definition lit (s : string) : text := list_ascii_of_string s.

(** [const char *&s]: the cursor of the readers is the part of the
    null-terminated input that has not been consumed yet.  Reading [*s] at
    the end of the list yields the terminating NUL. *)
Definition cursor := list ascii.

Definition peek (s : cursor) : ascii :=
  match s with
  | [] => zero
  | c :: _ => c
  end.

(** [s++] *)
Definition advance (s : cursor) : cursor := tl s.

(** [size_t] is a 64-bit unsigned integer; [size += n] wraps around. *)
Definition size_max : N := 2 ^ 64.

Definition size_add (a b : N) : N := ((a + b) mod size_max)%N.

Definition isJsonSpace (c : ascii) : bool :=
  ((c =? " ") || (c =? "009") || (c =? "010") || (c =? "013"))%char.

(** [jsonSkipSpace]: advance over blanks, tabs, newlines and carriage
    returns. *)
Fixpoint jsonSkipSpace (s : cursor) : cursor :=
  match s with
  | c :: s' => if isJsonSpace c then jsonSkipSpace s' else s
  | [] => []
  end.

(** ** The overload sets

    [wrJsonSize(size_t &size, T const &)] and [wrJson(char *&s, T const &)]
    are overloaded on the value type, and so is
    [rdJson(const char *&s, T &)].  An overload set is a type class; the
    reference parameters are threaded through explicitly.

    - [wrJsonSize size v] is the value of [size] after the call;
    - [wrJson s v] is the text between the start of the buffer and the write
      pointer after the call, [s] being that text before the call;
    - [rdJson s v] returns the result flag, the cursor after the call and the
      content of the destination after the call, [v] being its content
      before.  [None] means that a loop of the reader was still running when
      its fuel ran out. *)
Class JsonWr (T : Type) : Type := {
  wrJsonSize : N -> T -> N;
  wrJson : text -> T -> text
}.

Definition rd_result (T : Type) : Type := option (bool * cursor * T).

Class JsonRd (T : Type) : Type := {
  jsonDefault : T;   (* what [T tmp;] holds *)
  rdJson : cursor -> T -> rd_result T
}.

(** ** [shared_ptr<T>] (written only: the header has no reader for it) *)

Section SharedPtr.
Context {T : Type} `{JsonWr T}.

Definition wrJsonSize_shared_ptr (size : N) (p : option T) : N :=
  match p with
  | Some v => wrJsonSize size v
  | None => size_add size 4
  end.

Definition wrJson_shared_ptr (s : text) (p : option T) : text :=
  match p with
  | Some v => wrJson s v
  | None => (((s ++ ["n"%char]) ++ ["u"%char]) ++ ["l"%char]) ++ ["l"%char]
  end.

#[export] Instance JsonWr_shared_ptr : JsonWr (option T) :=
  {| wrJsonSize := wrJsonSize_shared_ptr; wrJson := wrJson_shared_ptr |}.
End SharedPtr.

(** ** [vector<T>] *)

Section Vector.
Context {T : Type}.

Section Write.
Context `{JsonWr T}.

Definition wrJsonSize_vector (size : N) (arr : list T) : N :=
  let size := size_add size (size_add 2 (N.of_nat (length arr))) in
  fold_left (fun size it => wrJsonSize size it) arr size.

(** The body of the [for] loop of [wrJson]: the state is the write
    pointer and [sep]. *)
Definition wrJson_vector_step (st : text * bool) (it : T) : text * bool :=
  let '(s, sep) := st in
  let s := if sep then s ++ [","%char] else s in
  (wrJson s it, true).

Definition wrJson_vector (s : text) (arr : list T) : text :=
  let s := s ++ ["["%char] in
  let '(s, _) := fold_left wrJson_vector_step arr (s, false) in
  s ++ ["]"%char].

#[export] Instance JsonWr_vector : JsonWr (list T) :=
  {| wrJsonSize := wrJsonSize_vector; wrJson := wrJson_vector |}.
End Write.

Section Read.
Context `{JsonRd T}.

(** The [while (1)] loop of [rdJson]; the two [break]s fall through to
    the final [s++; return true]. *)
Fixpoint rdJson_vector_loop (fuel : nat) (s : cursor) (arr : list T)
  : rd_result (list T) :=
  match fuel with
  | O => None
  | S fuel' =>
      let s := jsonSkipSpace s in
      if (peek s =? "]")%char then Some (true, advance s, arr)
      else
        match rdJson s jsonDefault with
        | None => None
        | Some (false, s, _) => Some (false, s, arr)
        | Some (true, s, tmp) =>
            let arr := arr ++ [tmp] in
            let s := jsonSkipSpace s in
            if (peek s =? ",")%char then
              rdJson_vector_loop fuel' (advance s) arr
            else if (peek s =? "]")%char then Some (true, advance s, arr)
            else Some (false, s, arr)
        end
  end.

Definition rdJson_vector (s : cursor) (arr : list T) : rd_result (list T) :=
  let s := jsonSkipSpace s in
  if negb (peek s =? "[")%char then Some (false, s, arr)
  else
    let s := advance s in
    let arr := @nil T in   (* arr.clear() *)
    rdJson_vector_loop (S (length s)) s arr.

#[export] Instance JsonRd_vector : JsonRd (list T) :=
  {| jsonDefault := []; rdJson := rdJson_vector |}.
End Read.
End Vector.

(** ** [map<KT, VT>]

    A [std::map] keeps its entries in ascending key order, keys being
    compared with [operator<] alone: two keys neither of which is less than
    the other denote the same entry. *)

Class Less (K : Type) : Type := { less : K -> K -> bool }.

Section StdMap.
Context {KT VT : Type} `{Less KT}.

Definition std_map : Type := list (KT * VT).

(** [arr[k] = v]: assign to the entry of [k], creating it in its place
    when there is none. *)
Fixpoint map_assign (arr : std_map) (k : KT) (v : VT) : std_map :=
  match arr with
  | [] => [(k, v)]
  | (k', v') :: arr' =>
      if less k k' then (k, v) :: arr
      else if less k' k then (k', v') :: map_assign arr' k v
      else (k', v) :: arr'
  end.

(** Two keys denote the same entry when neither is less than the other. *)
Definition same_key (a b : KT) : bool := negb (less a b) && negb (less b a).

(** [arr.find(k)]: the value of the entry whose key is [k], if any. *)
Fixpoint map_find (arr : std_map) (k : KT) : option VT :=
  match arr with
  | [] => None
  | (k', v') :: arr' => if same_key k k' then Some v' else map_find arr' k
  end.

Section Write.
Context `{JsonWr KT} `{JsonWr VT}.

Definition wrJsonSize_map_step (size : N) (it : KT * VT) : N :=
  let size := wrJsonSize size (fst it) in
  let size := wrJsonSize size (snd it) in
  size_add size 2.

Definition wrJsonSize_map (size : N) (arr : std_map) : N :=
  let size := size_add size 2 in
  fold_left wrJsonSize_map_step arr size.

Definition wrJson_map_step (st : text * bool) (it : KT * VT) : text * bool :=
  let '(s, sep) := st in
  let s := if sep then s ++ [","%char] else s in
  let s := wrJson s (fst it) in
  let s := s ++ [":"%char] in
  (wrJson s (snd it), true).

Definition wrJson_map (s : text) (arr : std_map) : text :=
  let s := s ++ ["{"%char] in
  let '(s, _) := fold_left wrJson_map_step arr (s, false) in
  s ++ ["}"%char].

#[export] Instance JsonWr_map : JsonWr std_map :=
  {| wrJsonSize := wrJsonSize_map; wrJson := wrJson_map |}.
End Write.

Section Read.
Context `{JsonRd KT} `{JsonRd VT}.

Fixpoint rdJson_map_loop (fuel : nat) (s : cursor) (arr : std_map)
  : rd_result std_map :=
  match fuel with
  | O => None
  | S fuel' =>
      let s := jsonSkipSpace s in
      if (peek s =? "}")%char then Some (true, advance s, arr)
      else
        match rdJson s jsonDefault with
        | None => None
        | Some (false, s, _) => Some (false, s, arr)
        | Some (true, s, ktmp) =>
            let s := jsonSkipSpace s in
            if negb (peek s =? ":")%char then Some (false, s, arr)
            else
              let s := advance s in
              let s := jsonSkipSpace s in
              match rdJson s jsonDefault with
              | None => None
              | Some (false, s, _) => Some (false, s, arr)
              | Some (true, s, vtmp) =>
                  let arr := map_assign arr ktmp vtmp in
                  let s := jsonSkipSpace s in
                  if (peek s =? ",")%char then
                    rdJson_map_loop fuel' (advance s) arr
                  else if (peek s =? "}")%char then
                    Some (true, advance s, arr)
                  else Some (false, s, arr)
              end
        end
  end.

Definition rdJson_map (s : cursor) (arr : std_map) : rd_result std_map :=
  let s := jsonSkipSpace s in
  if negb (peek s =? "{")%char then Some (false, s, arr)
  else
    let s := advance s in
    let arr : std_map := [] in   (* arr.clear() *)
    rdJson_map_loop (S (length s)) s arr.

#[export] Instance JsonRd_map : JsonRd std_map :=
  {| jsonDefault := []; rdJson := rdJson_map |}.
End Read.
End StdMap.

Arguments std_map : clear implicits.

(** ** The high level API: [asJson] and [fromJson] *)

Definition jsonstr := text.

(** [jsonstr::startWrite(n)] hands out a buffer for a string "of a given
    maximum size [n]" and [endWrite(p)] sets the final size from the write
    pointer (header comment of [jsonstr]).  Writing past the [n] bytes is an
    overrun, for which [asJson] has no result. *)
Definition asJson {T : Type} `{JsonWr T} (value : T) : option jsonstr :=
  let retSize := wrJsonSize 0%N value in
  let p := wrJson [] value in
  if (N.of_nat (length p) <=? retSize)%N then Some p else None.

(** [fromJson] returns the flag of [rdJson] and leaves the decoded value in
    [value]; what follows the value in the text is not looked at. *)
Definition fromJson {T : Type} `{JsonRd T} (sj : jsonstr) (value : T)
  : option (bool * T) :=
  let s : cursor := sj in
  match rdJson s value with
  | Some (ok, _, value) => Some (ok, value)
  | None => None
  end.

(** ** A primitive overload: [bool] *)

Module BoolCodec.

(** Modelled from the spec: [jsonMatch] is declared in jsonio.h and
    defined in jsonio.cc, which is not among the sources.  The header
    says: "If the pattern matches, advance s past it and return true.
    Otherwise leave s the same and return false." *)
Fixpoint jsonMatch (s : cursor) (pattern : text) {struct pattern}
  : option cursor :=
  match pattern with
  | [] => Some s
  | c :: pattern' =>
      match s with
      | d :: s' => if (c =? d)%char then jsonMatch s' pattern' else None
      | [] => None
      end
  end.

(** Modelled from the spec: the [bool] overloads of [wrJsonSize], [wrJson]
    and [rdJson] are declared in jsonio.h and defined in jsonio.cc, which
    is not among the sources.  Spec 4.1: a Boolean is written as the
    literal [true] or [false]; the size pass gives an upper bound; a
    reader skips leading whitespace, reports failure as a flag and advances
    the cursor on success. *)
Definition wrJsonSize_bool (size : N) (value : bool) : N := size_add size 5.

Definition wrJson_bool (s : text) (value : bool) : text :=
  s ++ lit (if value then "true" else "false").

Definition rdJson_bool (s : cursor) (value : bool) : rd_result bool :=
  let s := jsonSkipSpace s in
  match jsonMatch s (lit "true") with
  | Some s' => Some (true, s', true)
  | None =>
      match jsonMatch s (lit "false") with
      | Some s' => Some (true, s', false)
      | None => Some (false, s, value)
      end
  end.

#[export] Instance JsonWr_bool : JsonWr bool :=
  {| wrJsonSize := wrJsonSize_bool; wrJson := wrJson_bool |}.

#[export] Instance JsonRd_bool : JsonRd bool :=
  {| jsonDefault := false; rdJson := rdJson_bool |}.

(** [false < true] *)
#[export] Instance Less_bool : Less bool := {| less a b := negb a && b |}.

End BoolCodec.

Import BoolCodec.

(** ** Value shapes

    The value types that the overloads reach from a family of primitive
    types: [shared_ptr<T>], [vector<T>] and [map<KT, VT>] over a primitive
    key type. *)

Section Shapes.
Variable prim : Type.
Variable prim_type : prim -> Type.
Context {prim_wr : forall p, JsonWr (prim_type p)}.
Context {prim_rd : forall p, JsonRd (prim_type p)}.
Context {prim_less : forall p, Less (prim_type p)}.

Inductive shape : Type :=
| Prim (p : prim)
| SharedPtr (a : shape)
| Vector (a : shape)
| Map (k : prim) (a : shape).

Fixpoint value (a : shape) : Type :=
  match a with
  | Prim p => prim_type p
  | SharedPtr a => option (value a)
  | Vector a => list (value a)
  | Map k a => std_map (prim_type k) (value a)
  end.

(** Overload resolution for the writers: every shape has one. *)
Fixpoint shape_wr (a : shape) : JsonWr (value a) :=
  match a with
  | Prim p => prim_wr p
  | SharedPtr a => @JsonWr_shared_ptr _ (shape_wr a)
  | Vector a => @JsonWr_vector _ (shape_wr a)
  | Map k a => @JsonWr_map _ _ (prim_wr k) (shape_wr a)
  end.

(** Overload resolution for the readers: there is no [rdJson] for
    [shared_ptr<T>], hence none for a container of them either. *)
Fixpoint shape_rd (a : shape) : option (JsonRd (value a)) :=
  match a return option (JsonRd (value a)) with
  | Prim p => Some (prim_rd p)
  | SharedPtr _ => None
  | Vector a =>
      match shape_rd a with
      | Some R => Some (@JsonRd_vector _ R)
      | None => None
      end
  | Map k a =>
      match shape_rd a with
      | Some R => Some (@JsonRd_map _ _ (prim_less k) (prim_rd k) R)
      | None => None
      end
  end.
End Shapes.

Arguments Prim {prim} p.
Arguments SharedPtr {prim} a.
Arguments Vector {prim} a.
Arguments Map {prim} k a.
Arguments value {prim} prim_type a.
Arguments shape_wr {prim prim_type prim_wr} a.
Arguments shape_rd {prim prim_type prim_rd prim_less} a.

(** * The framed transport: [jsonpipe]

    ** The object, its environment and the monad of its methods *)

(** The data members of [jsonpipe], as the constructor, the destructor and
    the methods of jsonpipe.cc use them (jsonpipe.h itself is not among the
    sources).  [mutex0] and [rxQNonempty] are part of the [world] below. *)
Record jsonpipe : Type := mk_jsonpipe {
  txFd : Z;
  rxFd : Z;
  txEofFlag : bool;
  txCur : text;
  txQ : list text;   (* deque<string> *)
  rxCur : text;
  rxQ : list text    (* deque<string> *)
}.

(** Names of the data members, indexed by their types. *)
Inductive field : Type -> Type :=
| F_txFd : field Z
| F_rxFd : field Z
| F_txEofFlag : field bool
| F_txCur : field text
| F_txQ : field (list text)
| F_rxCur : field text
| F_rxQ : field (list text).

Inductive field_name : Type :=
| N_txFd | N_rxFd | N_txEofFlag | N_txCur | N_txQ | N_rxCur | N_rxQ.

Definition name_of {A : Type} (f : field A) : field_name :=
  match f with
  | F_txFd => N_txFd
  | F_rxFd => N_rxFd
  | F_txEofFlag => N_txEofFlag
  | F_txCur => N_txCur
  | F_txQ => N_txQ
  | F_rxCur => N_rxCur
  | F_rxQ => N_rxQ
  end.

Definition load {A : Type} (f : field A) (o : jsonpipe) : A :=
  match f in field A return A with
  | F_txFd => txFd o
  | F_rxFd => rxFd o
  | F_txEofFlag => txEofFlag o
  | F_txCur => txCur o
  | F_txQ => txQ o
  | F_rxCur => rxCur o
  | F_rxQ => rxQ o
  end.

Definition store {A : Type} (f : field A) : A -> jsonpipe -> jsonpipe :=
  match f in field A return A -> jsonpipe -> jsonpipe with
  | F_txFd => fun x o =>
      mk_jsonpipe x (rxFd o) (txEofFlag o) (txCur o) (txQ o) (rxCur o) (rxQ o)
  | F_rxFd => fun x o =>
      mk_jsonpipe (txFd o) x (txEofFlag o) (txCur o) (txQ o) (rxCur o) (rxQ o)
  | F_txEofFlag => fun x o =>
      mk_jsonpipe (txFd o) (rxFd o) x (txCur o) (txQ o) (rxCur o) (rxQ o)
  | F_txCur => fun x o =>
      mk_jsonpipe (txFd o) (rxFd o) (txEofFlag o) x (txQ o) (rxCur o) (rxQ o)
  | F_txQ => fun x o =>
      mk_jsonpipe (txFd o) (rxFd o) (txEofFlag o) (txCur o) x (rxCur o) (rxQ o)
  | F_rxCur => fun x o =>
      mk_jsonpipe (txFd o) (rxFd o) (txEofFlag o) (txCur o) (txQ o) x (rxQ o)
  | F_rxQ => fun x o =>
      mk_jsonpipe (txFd o) (rxFd o) (txEofFlag o) (txCur o) (txQ o) (rxCur o) x
  end.

Inductive errno_t : Type := EAGAIN | EBADF | EPIPE | ECONNRESET.

Definition errno_eqb (a b : errno_t) : bool :=
  match a, b with
  | EAGAIN, EAGAIN | EBADF, EBADF | EPIPE, EPIPE | ECONNRESET, ECONNRESET => true
  | _, _ => false
  end.

(** What [read(rxFd, buf, sizeof(buf))] returns: [-1] with an [errno], or
    [nr >= 0] with the [nr] bytes it put into [buf]. *)
Inductive read_result : Type :=
| ReadErr (e : errno_t)
| ReadOk (buf : text).

(** What [send(txFd, &txCur[0], txCur.size(), MSG_NOSIGNAL)] returns: [-1]
    with an [errno], or the number [nw >= 0] of bytes taken. *)
Inductive send_result : Type :=
| SendErr (e : errno_t)
| SendOk (nw : nat).

Inductive shut_how : Type := SHUT_RD | SHUT_WR.

(** What the methods do to the outside, in the order they do it. *)
Inductive event : Type :=
| EvRead (fd : Z) (r : read_result)
| EvSend (fd : Z) (data : text) (r : send_result)
| EvClose (fd : Z)
| EvShutdown (fd : Z) (how : shut_how)
| EvSetsockopt (fd : Z) (opt : string)
| EvFcntlNonblock (fd : Z)
| EvEprintfNoNewline (n : nat)   (* "jsonpipe: %lu bytes with no newline at EOF" *)
| EvEprintfWrite (e : errno_t)   (* "jsonpipe: write: %s" *)
| EvNotifyAll.                   (* rxQNonempty.notify_all() *)

(** The object together with what surrounds a call of one of its methods.

    - [mutex0] tells whether the running call holds the instance mutex;
    - [rxQNonempty] counts the threads suspended in
      [rxQNonempty.wait(lock)];
    - [rx_script] and [tx_script] are the results that the next calls of
      [read] and [send] will return; past the end of a script the call
      would block ([EAGAIN]);
    - [trace] records the events, the latest last;
    - [unguarded] records the data members that were read or written while
      the mutex was not held, the latest last. *)
Record world : Type := mk_world {
  self : jsonpipe;
  mutex0 : bool;
  rxQNonempty : nat;
  rx_script : list read_result;
  tx_script : list send_result;
  trace : list event;
  unguarded : list field_name
}.

Definition with_self (o : jsonpipe) (w : world) : world :=
  mk_world o (mutex0 w) (rxQNonempty w) (rx_script w) (tx_script w)
           (trace w) (unguarded w).

Definition with_mutex0 (b : bool) (w : world) : world :=
  mk_world (self w) b (rxQNonempty w) (rx_script w) (tx_script w)
           (trace w) (unguarded w).

Definition with_rxQNonempty (n : nat) (w : world) : world :=
  mk_world (self w) (mutex0 w) n (rx_script w) (tx_script w)
           (trace w) (unguarded w).

Definition with_rx_script (l : list read_result) (w : world) : world :=
  mk_world (self w) (mutex0 w) (rxQNonempty w) l (tx_script w)
           (trace w) (unguarded w).

Definition with_tx_script (l : list send_result) (w : world) : world :=
  mk_world (self w) (mutex0 w) (rxQNonempty w) (rx_script w) l
           (trace w) (unguarded w).

Definition with_trace (t : list event) (w : world) : world :=
  mk_world (self w) (mutex0 w) (rxQNonempty w) (rx_script w) (tx_script w)
           t (unguarded w).

Definition with_unguarded (u : list field_name) (w : world) : world :=
  mk_world (self w) (mutex0 w) (rxQNonempty w) (rx_script w) (tx_script w)
           (trace w) u.

(** How a call ends: it returns, it throws a [runtime_error], the calling
    thread is suspended on the condition variable, or a loop is still
    running when its fuel is used up. *)
Inductive outcome (A : Type) : Type :=
| Done (a : A)
| Throw (what : string)
| Suspended
| OutOfFuel.

Arguments Done {A} a.
Arguments Throw {A} what.
Arguments Suspended {A}.
Arguments OutOfFuel {A}.

Definition M (A : Type) : Type := world -> outcome A * world.

Definition ret {A : Type} (a : A) : M A := fun w => (Done a, w).

Definition bind {A B : Type} (m : M A) (k : A -> M B) : M B :=
  fun w =>
    match m w with
    | (Done a, w') => k a w'
    | (Throw e, w') => (Throw e, w')
    | (Suspended, w') => (Suspended, w')
    | (OutOfFuel, w') => (OutOfFuel, w')
    end.

Declare Scope pipe_scope.
Delimit Scope pipe_scope with pipe.
Notation "x <- m ;; k" := (bind m (fun x => k))
  (at level 61, m at next level, right associativity) : pipe_scope.
Notation "m ;; k" := (bind m (fun _ => k))
  (at level 61, right associativity) : pipe_scope.
Open Scope pipe_scope.

Definition throw {A : Type} (what : string) : M A := fun w => (Throw what, w).

Definition out_of_fuel {A : Type} : M A := fun w => (OutOfFuel, w).

Definition exec {A : Type} (m : M A) (w : world) : world := snd (m w).

Definition emit (e : event) : M unit :=
  fun w => (Done tt, with_trace (trace w ++ [e]) w).

(** Every access to a data member goes through [get] or [set], which note
    the member when the mutex is not held. *)
Definition touch {A : Type} (f : field A) (w : world) : world :=
  if mutex0 w then w else with_unguarded (unguarded w ++ [name_of f]) w.

Definition get {A : Type} (f : field A) : M A :=
  fun w => (Done (load f (self w)), touch f w).

Definition set {A : Type} (f : field A) (x : A) : M unit :=
  fun w => (Done tt, with_self (store f x (self w)) (touch f w)).

(** [unique_lock<mutex> lock(mutex0)] for the extent of [body]: the call
    runs from the moment it has obtained the mutex; the destructor of the
    lock releases the mutex however [body] ends, and [wait] has released it
    when the thread is suspended. *)
Definition unique_lock {A : Type} (body : M A) : M A :=
  fun w =>
    let (r, w') := body (with_mutex0 true w) in
    (r, with_mutex0 false w').

(** [rxQNonempty.wait(lock)]: the thread joins the waiters and is
    suspended.  When it is woken it holds the lock again and continues with
    the test of the loop around the [wait]. *)
Definition cv_wait {A : Type} : M A :=
  fun w => (Suspended, with_rxQNonempty (S (rxQNonempty w)) w).

(** [rxQNonempty.notify_all()]: every waiter is woken. *)
Definition cv_notify_all : M unit :=
  emit EvNotifyAll ;;
  fun w => (Done tt, with_rxQNonempty 0 w).

(** [read]: on a closed descriptor [EBADF]; otherwise the next entry of the
    script. *)
Definition sys_read (fd : Z) : M read_result :=
  fun w =>
    let (r, w) :=
      if (fd <? 0)%Z then (ReadErr EBADF, w)
      else
        match rx_script w with
        | [] => (ReadErr EAGAIN, w)
        | r :: rest => (r, with_rx_script rest w)
        end in
    (Done r, with_trace (trace w ++ [EvRead fd r]) w).

Definition sys_send (fd : Z) (data : text) : M send_result :=
  fun w =>
    let (r, w) :=
      if (fd <? 0)%Z then (SendErr EBADF, w)
      else
        match tx_script w with
        | [] => (SendErr EAGAIN, w)
        | r :: rest => (r, with_tx_script rest w)
        end in
    (Done r, with_trace (trace w ++ [EvSend fd data r]) w).

(** ** The methods of [jsonpipe] *)

Definition newline : ascii := "010"%char.

(** [memchr(p, c, pend - p)]: the offset of the first [c] in [p], if any. *)
Fixpoint memchr (p : text) (c : ascii) : option nat :=
  match p with
  | [] => None
  | d :: p' => if (d =? c)%char then Some 0 else option_map S (memchr p' c)
  end.

(** [jsonpipe::jsonpipe()] *)
Definition jsonpipe_new : jsonpipe :=
  {| txFd := -1; rxFd := -1; txEofFlag := false;
     txCur := []; txQ := []; rxCur := []; rxQ := [] |}.

Definition closeRx : M unit :=
  rx <- get F_rxFd ;;
  if (rx =? -1)%Z then ret tt
  else
    tx <- get F_txFd ;;
    (if (rx =? tx)%Z then emit (EvShutdown rx SHUT_RD) else emit (EvClose rx)) ;;
    set F_rxFd (-1)%Z.

Definition closeTx : M unit :=
  tx <- get F_txFd ;;
  if (tx =? -1)%Z then ret tt
  else
    rx <- get F_rxFd ;;
    (if (tx =? rx)%Z then emit (EvShutdown tx SHUT_WR) else emit (EvClose tx)) ;;
    set F_txFd (-1)%Z.

(** [jsonpipe::~jsonpipe()] *)
Definition jsonpipe_delete : M unit :=
  closeTx ;; closeRx.

(** The inner loop of [rxWork], [while (p < pend)], over the bytes [p] of the
    chunk that are still to be scanned.  It returns [rxActivity], which it
    sets when it pushes a record. *)
Equations? rxWork_scan (p : text) (rxActivity : bool) : M bool
  by wf (length p) lt :=
  rxWork_scan [] rxActivity := ret rxActivity;
  rxWork_scan (c :: p') rxActivity :=
    match memchr (c :: p') newline with
    | None =>
        cur <- get F_rxCur ;;
        set F_rxCur (cur ++ c :: p') ;;
        ret rxActivity
    | Some q =>
        cur <- get F_rxCur ;;
        (if negb (length cur =? 0) then
           cur <- get F_rxCur ;;
           set F_rxCur (cur ++ firstn q (c :: p')) ;;
           cur <- get F_rxCur ;;
           rxq <- get F_rxQ ;;
           set F_rxQ (rxq ++ [cur]) ;;
           set F_rxCur []
         else
           rxq <- get F_rxQ ;;
           set F_rxQ (rxq ++ [firstn q (c :: p')])) ;;
        rxWork_scan (skipn (S q) (c :: p')) true
    end.
Proof.
  simpl. pose proof (length_skipn q p'). lia.
Qed.

(** The outer loop of [rxWork], [while (1)]; it returns [rxActivity]. *)
Fixpoint rxWork_loop (fuel : nat) (rxActivity : bool) : M bool :=
  match fuel with
  | O => out_of_fuel
  | S fuel' =>
      fd <- get F_rxFd ;;
      r <- sys_read fd ;;
      match r with
      | ReadErr e =>
          if errno_eqb e EAGAIN then ret rxActivity
          else closeRx ;; ret rxActivity
      | ReadOk buf =>
          if length buf =? 0 then
            cur <- get F_rxCur ;;
            (if negb (length cur =? 0) then emit (EvEprintfNoNewline (length cur))
             else ret tt) ;;
            set F_rxCur [] ;;
            closeRx ;;
            ret rxActivity
          else
            rxActivity <- rxWork_scan buf rxActivity ;;
            rxWork_loop fuel' rxActivity
      end
  end.

(** [rxWork(lock)].  Every turn of the loop but the last takes an entry of
    the read script, so one turn more than the script is long is enough. *)
Definition rxWork : M unit :=
  fun w =>
    (rxActivity <- rxWork_loop (S (length (rx_script w))) false ;;
     if rxActivity then cv_notify_all else ret tt) w.

(** [stringprintf("write wrote %ld/%ld", (long)nw, (long)txCur.size())] *)
Definition write_wrote (nw size : nat) : string :=
  ("write wrote "
   ++ DecimalString.NilEmpty.string_of_uint (Nat.to_uint nw) ++ "/"
   ++ DecimalString.NilEmpty.string_of_uint (Nat.to_uint size))%string.

(** The loop of [txWork], [while (true)]. *)
Fixpoint txWork_loop (fuel : nat) : M unit :=
  match fuel with
  | O => out_of_fuel
  | S fuel' =>
      cur <- get F_txCur ;;
      (if length cur =? 0 then
         q <- get F_txQ ;;
         match q with
         | front :: q' =>
             set F_txCur (front ++ [newline]) ;;
             set F_txQ q'
         | [] => ret tt
         end
       else ret tt) ;;
      cur <- get F_txCur ;;
      if length cur =? 0 then
        eof <- get F_txEofFlag ;;
        if eof then closeTx else ret tt
      else
        fd <- get F_txFd ;;
        r <- sys_send fd cur ;;
        match r with
        | SendErr e =>
            if errno_eqb e EAGAIN then ret tt
            else emit (EvEprintfWrite e) ;; closeTx
        | SendOk nw =>
            if nw <? length cur then
              set F_txCur (skipn nw cur) ;;
              txWork_loop fuel'
            else if nw =? length cur then
              set F_txCur [] ;;
              txWork_loop fuel'
            else
              throw (write_wrote nw (length cur))
        end
  end.

(** [txWork(lock)].  Every turn of the loop but the last takes an entry of
    the send script. *)
Definition txWork : M unit :=
  fun w => txWork_loop (S (length (tx_script w))) w.

(** [fd_set] *)
Definition fd_set : Type := list Z.

Definition FD_SET (fd : Z) (fds : fd_set) : fd_set := fd :: fds.

Definition FD_ISSET (fd : Z) (fds : fd_set) : bool := existsb (Z.eqb fd) fds.

(** [preSelect] returns the read and write sets it was given, with the
    descriptors it adds. *)
Definition preSelect (rfds wfds : fd_set) : M (fd_set * fd_set) :=
  unique_lock (
    tx <- get F_txFd ;;
    wfds <-
      (if negb (tx =? -1)%Z then
         cur <- get F_txCur ;;
         if negb (length cur =? 0) then ret (FD_SET tx wfds)
         else
           q <- get F_txQ ;;
           match q with
           | _ :: _ => ret (FD_SET tx wfds)
           | [] =>
               eof <- get F_txEofFlag ;;
               if eof then ret (FD_SET tx wfds) else ret wfds
           end
       else ret wfds) ;;
    rx <- get F_rxFd ;;
    if negb (rx =? -1)%Z then ret (FD_SET rx rfds, wfds)
    else ret (rfds, wfds)).

Definition postSelect (rfds wfds : fd_set) : M unit :=
  unique_lock (
    rx <- get F_rxFd ;;
    (if negb (rx =? -1)%Z && FD_ISSET rx rfds then rxWork else ret tt) ;;
    tx <- get F_txFd ;;
    if negb (tx =? -1)%Z && FD_ISSET tx wfds then txWork else ret tt).

Definition setFds (_txFd _rxFd : Z) : M unit :=
  unique_lock (
    tx <- get F_txFd ;;
    if negb (tx =? -1)%Z then throw "txFd already set"
    else
      rx <- get F_rxFd ;;
      if negb (rx =? -1)%Z then throw "rxFd already set"
      else
        set F_txFd _txFd ;;
        set F_rxFd _rxFd ;;
        rx <- get F_rxFd ;;
        emit (EvSetsockopt rx "TCP_NODELAY") ;;
        tx <- get F_txFd ;;
        emit (EvFcntlNonblock tx) ;;
        rx <- get F_rxFd ;;
        emit (EvFcntlNonblock rx)).

Definition rxNonblock : M text :=
  unique_lock (
    q <- get F_rxQ ;;
    match q with
    | [] => ret []
    | rx :: q' => set F_rxQ q' ;; ret rx
    end).

(** [rxBlock], from its entry, or from the test of its loop when the thread
    has been woken, up to its [return] or to its next [wait]. *)
Definition rxBlock : M text :=
  unique_lock (
    q <- get F_rxQ ;;
    match q with
    | [] =>
        fd <- get F_rxFd ;;
        if (fd =? -1)%Z then ret [] else cv_wait
    | rx :: q' => set F_rxQ q' ;; ret rx
    end).

Definition tx (s : text) : M unit :=
  unique_lock (
    q <- get F_txQ ;;
    set F_txQ (q ++ [s]) ;;
    q <- get F_txQ ;;
    if length q =? 1 then txWork else ret tt).

Definition txEof : M unit :=
  set F_txEofFlag true.

(** * Specifications

    ** What the container overloads expect of the overloads they call *)

(** The first byte of an encoded value: not a blank and not the bracket that
    closes the enclosing container. *)
Definition starts_value (t : text) : bool :=
  match t with
  | [] => false
  | c :: _ => negb (isJsonSpace c) && negb (c =? "]")%char && negb (c =? "}")%char
  end.

(** What follows an encoded value inside a container or at the end of the
    text: the terminating NUL, a comma, a colon or a closing bracket. *)
Definition delimited (s : cursor) : bool :=
  match s with
  | [] => true
  | c :: _ => ((c =? ",") || (c =? "]") || (c =? "}") || (c =? ":"))%char
  end.

(** A writer is lawful for the estimate [est] when the size pass adds
    [est v] to [size], the write pass only appends to what is written, and it
    appends at most [est v] bytes. *)
Record wr_lawful {T : Type} (W : JsonWr T) (est : T -> N) : Prop := {
  wrJsonSize_est :
    forall size v, wrJsonSize size v = ((size + est v) mod size_max)%N;
  wrJson_appends :
    forall s v, wrJson s v = s ++ wrJson [] v;
  wrJson_within :
    forall v, (N.of_nat (length (wrJson [] v)) <= est v)%N
}.

Arguments wrJsonSize_est {T W est} _ size v.
Arguments wrJson_appends {T W est} _ s v.
Arguments wrJson_within {T W est} _ v.

(** A reader inverts a writer on the values satisfying [valid]. *)
Record roundtrips {T : Type} (W : JsonWr T) (R : JsonRd T) (valid : T -> Prop)
  : Prop := {
  wrJson_starts :
    forall v, valid v -> starts_value (wrJson [] v) = true;
  rdJson_wrJson :
    forall v rest prior, valid v -> delimited rest = true ->
      rdJson (wrJson [] v ++ rest) prior = Some (true, rest, v)
}.

Arguments wrJson_starts {T W R valid} _ v _.
Arguments rdJson_wrJson {T W R valid} _ v rest prior _ _.

(** [operator<] on keys is a strict total order. *)
Record less_lawful {K : Type} (L : Less K) : Prop := {
  less_irrefl : forall a, less a a = false;
  less_trans : forall a b c, less a b = true -> less b c = true -> less a c = true;
  less_total : forall a b, less a b = false -> less b a = false -> a = b
}.

Arguments less_irrefl {K L} _ a.
Arguments less_trans {K L} _ a b c _ _.
Arguments less_total {K L} _ a b _ _.

(** ** Readers that return *)

(** A reader returns on every input, and never moves the cursor
    backwards. *)
Definition rd_returns {T : Type} (R : JsonRd T) : Prop :=
  forall (s : cursor) (prior : T),
    exists ok s' v,
      rdJson s prior = Some (ok, s', v) /\ length s' <= length s.

(** ** Size estimates, without the wrap-around *)

Definition sum_est {T : Type} (est : T -> N) (arr : list T) : N :=
  fold_right (fun v acc => (est v + acc)%N) 0%N arr.

Definition est_shared_ptr {T : Type} (est : T -> N) (p : option T) : N :=
  match p with
  | Some v => est v
  | None => 4%N
  end.

Definition est_vector {T : Type} (est : T -> N) (arr : list T) : N :=
  (2 + N.of_nat (length arr) + sum_est est arr)%N.

Definition est_member {KT VT : Type} (estK : KT -> N) (estV : VT -> N)
  (it : KT * VT) : N :=
  (estK (fst it) + estV (snd it) + 2)%N.

Definition est_map {KT VT : Type} (estK : KT -> N) (estV : VT -> N)
  (arr : std_map KT VT) : N :=
  (2 + sum_est (est_member estK estV) arr)%N.

(** ** Well-formed container values *)

(** The entries of a [std::map] are in strictly ascending key order. *)
Definition map_sorted {KT VT : Type} `{Less KT} (arr : std_map KT VT) : Prop :=
  StronglySorted (fun a b => less (fst a) (fst b) = true) arr.

(** A map value is well formed when it is sorted and its keys and values
    are. *)
Definition valid_member {KT VT : Type} (validK : KT -> Prop) (validV : VT -> Prop)
  (it : KT * VT) : Prop :=
  validK (fst it) /\ validV (snd it).

Definition valid_map {KT VT : Type} `{Less KT} (validK : KT -> Prop)
  (validV : VT -> Prop) (arr : std_map KT VT) : Prop :=
  map_sorted arr /\ Forall (valid_member validK validV) arr.

Section ShapeSpec.
Variable prim : Type.
Variable prim_type : prim -> Type.
Context {prim_less : forall p, Less (prim_type p)}.
Variable prim_est : forall p, prim_type p -> N.

Fixpoint shape_est (a : shape prim) : value prim_type a -> N :=
  match a return value prim_type a -> N with
  | Prim p => prim_est p
  | SharedPtr a => est_shared_ptr (shape_est a)
  | Vector a => est_vector (shape_est a)
  | Map k a => est_map (prim_est k) (shape_est a)
  end.

Fixpoint shape_valid (a : shape prim) : value prim_type a -> Prop :=
  match a return value prim_type a -> Prop with
  | Prim p => fun _ => True
  | SharedPtr a => fun p =>
      match p with
      | Some v => shape_valid a v
      | None => True
      end
  | Vector a => fun arr => Forall (shape_valid a) arr
  | Map k a => valid_map (fun _ => True) (shape_valid a)
  end.
End ShapeSpec.

(** ** The members of an array or object text, in text order *)

Section Elements.
Context {T : Type} `{JsonRd T}.

(** The elements that the loop of [rdJson] for [vector<T>] decodes from
    [s], in the order of the text. *)
Fixpoint rdJson_vector_elements (fuel : nat) (s : cursor) : rd_result (list T) :=
  match fuel with
  | O => None
  | S fuel' =>
      let s := jsonSkipSpace s in
      if (peek s =? "]")%char then Some (true, advance s, [])
      else
        match rdJson s jsonDefault with
        | None => None
        | Some (false, s, _) => Some (false, s, [])
        | Some (true, s, tmp) =>
            let s := jsonSkipSpace s in
            if (peek s =? ",")%char then
              match rdJson_vector_elements fuel' (advance s) with
              | Some (ok, s, elems) => Some (ok, s, tmp :: elems)
              | None => None
              end
            else if (peek s =? "]")%char then Some (true, advance s, [tmp])
            else Some (false, s, [tmp])
        end
  end.

(** The elements of the array text at [s]. *)
Definition array_elements (s : cursor) : rd_result (list T) :=
  let s := advance (jsonSkipSpace s) in
  rdJson_vector_elements (S (length s)) s.
End Elements.

Section Members.
Context {KT VT : Type} `{Less KT} `{JsonRd KT} `{JsonRd VT}.

(** The key/value pairs that the loop of [rdJson] for [map<KT, VT>]
    decodes from [s], in the order of the text, duplicates included. *)
Fixpoint rdJson_map_members (fuel : nat) (s : cursor)
  : rd_result (list (KT * VT)) :=
  match fuel with
  | O => None
  | S fuel' =>
      let s := jsonSkipSpace s in
      if (peek s =? "}")%char then Some (true, advance s, [])
      else
        match rdJson s jsonDefault with
        | None => None
        | Some (false, s, _) => Some (false, s, [])
        | Some (true, s, ktmp) =>
            let s := jsonSkipSpace s in
            if negb (peek s =? ":")%char then Some (false, s, [])
            else
              let s := advance s in
              let s := jsonSkipSpace s in
              match rdJson s jsonDefault with
              | None => None
              | Some (false, s, _) => Some (false, s, [])
              | Some (true, s, vtmp) =>
                  let s := jsonSkipSpace s in
                  if (peek s =? ",")%char then
                    match rdJson_map_members fuel' (advance s) with
                    | Some (ok, s, members) => Some (ok, s, (ktmp, vtmp) :: members)
                    | None => None
                    end
                  else if (peek s =? "}")%char then
                    Some (true, advance s, [(ktmp, vtmp)])
                  else Some (false, s, [(ktmp, vtmp)])
              end
        end
  end.

(** The members of the object text at [s]. *)
Definition object_members (s : cursor) : rd_result (list (KT * VT)) :=
  let s := advance (jsonSkipSpace s) in
  rdJson_map_members (S (length s)) s.

(** The value of the last member of [members] whose key is [k]. *)
Fixpoint last_occurrence (members : list (KT * VT)) (k : KT) : option VT :=
  match members with
  | [] => None
  | (k', v) :: rest =>
      match last_occurrence rest k with
      | Some v' => Some v'
      | None => if same_key k k' then Some v else None
      end
  end.

(** Whether [k] occurs more than once among the keys of [members]. *)
Definition duplicated (members : list (KT * VT)) (k : KT) : bool :=
  1 <? length (filter (fun it => same_key k (fst it)) members).

(** The map that the assignments [arr[k] = v] build, one member after the
    other. *)
Definition assign_all (arr : std_map KT VT) (members : list (KT * VT))
  : std_map KT VT :=
  fold_left (fun arr it => map_assign arr (fst it) (snd it)) members arr.
End Members.

Arguments shape_est {prim prim_type} prim_est a _.
Arguments shape_valid {prim prim_type prim_less} a _.

(** ** The text that the write loops produce *)

Section Bodies.
Context {T : Type} `{JsonWr T}.

(** Each element, preceded by a comma. *)
Definition vector_tail (arr : list T) : text :=
  flat_map (fun it => ","%char :: wrJson [] it) arr.

(** What stands between the brackets of an array. *)
Definition vector_body (arr : list T) : text :=
  match arr with
  | [] => []
  | it :: arr' => wrJson [] it ++ vector_tail arr'
  end.
End Bodies.

Section MapBodies.
Context {KT VT : Type} `{JsonWr KT} `{JsonWr VT}.

Definition member_text (it : KT * VT) : text :=
  wrJson [] (fst it) ++ ":"%char :: wrJson [] (snd it).

Definition map_tail (arr : list (KT * VT)) : text :=
  flat_map (fun it => ","%char :: member_text it) arr.

Definition map_body (arr : list (KT * VT)) : text :=
  match arr with
  | [] => []
  | it :: arr' => member_text it ++ map_tail arr'
  end.

(** An object text with the members [arr], duplicates and order as
    given. *)
Definition object_text (arr : list (KT * VT)) : text :=
  "{"%char :: map_body arr ++ ["}"%char].
End MapBodies.

(** ** Framing, byte by byte *)

Definition has_newline (p : text) : bool :=
  existsb (fun c => (c =? newline)%char) p.

(** The carry-over and the queue after the bytes [p] have arrived: a
    newline closes the record that the bytes before it have built up. *)
Fixpoint split_records (cur : text) (q : list text) (p : text)
  : text * list text :=
  match p with
  | [] => (cur, q)
  | c :: p' =>
      if (c =? newline)%char then split_records [] (q ++ [cur]) p'
      else split_records (cur ++ [c]) q p'
  end.

(** The object after the bytes [p] have arrived. *)
Definition framed (p : text) (o : jsonpipe) : jsonpipe :=
  let (cur, q) := split_records (rxCur o) (rxQ o) p in
  store F_rxQ q (store F_rxCur cur o).

(** Feeding the scanning loop of [rxWork] one chunk after the other. *)
Fixpoint feed_chunks (chunks : list text) (rxActivity : bool) : M bool :=
  match chunks with
  | [] => ret rxActivity
  | chunk :: chunks' =>
      rxActivity <- rxWork_scan chunk rxActivity ;;
      feed_chunks chunks' rxActivity
  end.

(** One call of [rxWork] per chunk: each call reads its chunk and then finds
    that the descriptor would block. *)
Definition rxWork_each (chunks : list text) (w : world) : world :=
  fold_left (fun w chunk => exec rxWork (with_rx_script [ReadOk chunk] w))
            chunks w.

(** ** Transmit servicing *)

(** The object once [txWork] has made sure that there is a current record:
    when [txCur] is empty the head of [txQ], with the newline appended,
    becomes the current record. *)
Definition materialize (o : jsonpipe) : jsonpipe :=
  match txCur o, txQ o with
  | [], front :: q' => store F_txQ q' (store F_txCur (front ++ [newline]) o)
  | _, _ => o
  end.

(** The calls of [send] in a trace, with the bytes offered and the result. *)
Definition sends (tr : list event) : list (text * send_result) :=
  flat_map (fun e => match e with
                     | EvSend _ data r => [(data, r)]
                     | _ => []
                     end) tr.

(** The result of the next call of [send]. *)
Definition next_send (script : list send_result) : send_result :=
  match script with
  | [] => SendErr EAGAIN
  | r :: _ => r
  end.

(** "When a send transmits only part of the current record, [txWork] retains
    exactly the unsent suffix as the new current record and stops the
    servicing pass without attempting another send in that pass", for a call
    of [txWork] in the world [w]. *)
Definition stops_after_partial_send (w : world) : Prop :=
  forall nw : nat,
    hd_error (tx_script w) = Some (SendOk nw) ->
    0 < nw < length (txCur (materialize (self w))) ->
    txCur (self (exec txWork w)) = skipn nw (txCur (materialize (self w))) /\
    sends (trace (exec txWork w)) =
    sends (trace w) ++ [(txCur (materialize (self w)), SendOk nw)].

(** A method extends the trace: it never rewrites what has happened. *)
Definition extends_trace {A : Type} (m : M A) : Prop :=
  forall w, exists more, trace (snd (m w)) = trace w ++ more.

(** ** How [txWork] ends *)

(** [txWork] returns, or throws when [send] claims to have taken more bytes
    than it was given. *)
Definition tx_outcome (r : outcome unit) : Prop :=
  r = Done tt \/ exists nw size, r = Throw (write_wrote nw size).

(** ** Worlds for the examples *)

Definition dquote : ascii := "034"%char.

(** A pipe after [setFds(3, 4)], with nothing queued. *)
Definition pipe_3_4 : jsonpipe :=
  {| txFd := 3; rxFd := 4; txEofFlag := false;
     txCur := []; txQ := []; rxCur := []; rxQ := [] |}.

(** A world in which no method is running and no thread is waiting. *)
Definition idle_world (o : jsonpipe) (rs : list read_result)
  (ts : list send_result) : world :=
  mk_world o false 0 rs ts [] [].

(** The same, inside a method that holds the mutex. *)
Definition locked_world (o : jsonpipe) (rs : list read_result)
  (ts : list send_result) : world :=
  mk_world o true 0 rs ts [] [].

(** The record [abc] is queued; the socket takes two bytes, then two more. *)
Definition partial_send_world : world :=
  locked_world (store F_txQ [lit "abc"] pipe_3_4) [] [SendOk 2; SendOk 2].

(** The wire bytes of the integer 42 and of the text ab, quote, c, each
    followed by a newline, arrive in two chunks; the second record is split
    after its backslash. *)
Definition two_chunks : list text :=
  [ lit "42" ++ [newline; dquote] ++ lit "ab\";
    dquote :: lit "c" ++ [dquote; newline] ].

(** An object text with the key x and the value 1 whose closing brace and
    newline never arrive. *)
Definition partial_record : text :=
  "{"%char :: dquote :: "x"%char :: dquote :: lit ":1".

(** One thread calls [rxBlock] on an open pipe with an empty queue; then the
    peer closes the stream. *)
Definition open_world : world := idle_world pipe_3_4 [ReadOk []] [].

Definition blocked_world : world := exec rxBlock open_world.

Definition closed_world : world := exec (postSelect [4%Z] []) blocked_world.

(** ** Shapes over [bool] for the examples *)

Definition bool_prim_type (p : unit) : Type := bool.

Definition bool_wr (p : unit) : JsonWr (bool_prim_type p) := JsonWr_bool.

Definition bool_rd (p : unit) : JsonRd (bool_prim_type p) := JsonRd_bool.

Definition bool_less (p : unit) : Less (bool_prim_type p) := Less_bool.

Definition bool_est (p : unit) (v : bool_prim_type p) : N := 5%N.

(** [map<bool, vector<bool>>] and one of its values. *)
Definition nested_shape : shape unit := Map tt (Vector (Prim tt)).

Definition nested_value : value bool_prim_type nested_shape :=
  [(false, [true; false]); (true, [])].

Definition nested_rd : JsonRd (value bool_prim_type nested_shape) :=
  @JsonRd_map bool (list bool) Less_bool JsonRd_bool
    (@JsonRd_vector bool JsonRd_bool).

(** [vector<shared_ptr<bool>>] and one of its values. *)
Definition ptr_shape : shape unit := Vector (SharedPtr (Prim tt)).

Definition ptr_value : value bool_prim_type ptr_shape := [Some true; None].

(** The members of an object text in which the key [true] occurs twice. *)
Definition duplicate_members : list (bool * bool) :=
  [(true, false); (false, false); (true, true)].

(** ** The lock discipline *)

(** Run with the mutex held, a method keeps it held and touches no data
    member without it. *)
Definition guarded {A : Type} (m : M A) : Prop :=
  forall w, mutex0 w = true ->
    mutex0 (snd (m w)) = true /\ unguarded (snd (m w)) = unguarded w.

(** * The overloads for containers of pointers

    ** [vector<T *>]

    The elements of a [vector<T *>] are addresses of cells that [new T] has
    allocated.  The heap is the list of these cells, a cell being addressed
    by its index; nothing is ever deleted by the overloads. *)

Section VectorPtr.
Context {T : Type}.

Definition heap : Type := list T.

(** [*p]; [None] when [p] is not the address of a cell. *)
Definition deref (h : heap) (p : nat) : option T := nth_error h p.

(** [new T]: a cell at a fresh address.  Its content is the value of a
    default-constructed [T], as for the local [T tmp] of the readers of
    [vector<T>] and [map<KT, VT>]. *)
Definition new_cell `{JsonRd T} (h : heap) : nat * heap :=
  (length h, h ++ [jsonDefault]).

(** [*p = v] *)
Definition write_cell (h : heap) (p : nat) (v : T) : heap :=
  firstn p h ++ v :: skipn (S p) h.

Section Write.
Context `{JsonWr T}.

Fixpoint wrJsonSize_vector_ptr_loop (h : heap) (arr : list nat) (size : N)
  : option N :=
  match arr with
  | [] => Some size
  | p :: arr' =>
      match deref h p with
      | Some v => wrJsonSize_vector_ptr_loop h arr' (wrJsonSize size v)
      | None => None
      end
  end.

Definition wrJsonSize_vector_ptr (h : heap) (size : N) (arr : list nat)
  : option N :=
  let size := size_add size (size_add 2 (N.of_nat (length arr))) in
  wrJsonSize_vector_ptr_loop h arr size.

Fixpoint wrJson_vector_ptr_loop (h : heap) (arr : list nat) (st : text * bool)
  : option (text * bool) :=
  match arr with
  | [] => Some st
  | p :: arr' =>
      match deref h p with
      | Some v => wrJson_vector_ptr_loop h arr' (wrJson_vector_step st v)
      | None => None
      end
  end.

Definition wrJson_vector_ptr (h : heap) (s : text) (arr : list nat)
  : option text :=
  let s := s ++ ["["%char] in
  match wrJson_vector_ptr_loop h arr (s, false) with
  | Some (s, _) => Some (s ++ ["]"%char])
  | None => None
  end.
End Write.

Section Read.
Context `{JsonRd T}.

(** The loop of [rdJson] for [vector<T *>]; the heap is threaded through
    with the cursor and the vector. *)
Fixpoint rdJson_vector_ptr_loop (fuel : nat) (s : cursor) (arr : list nat)
  (h : heap) : option (bool * cursor * list nat * heap) :=
  match fuel with
  | O => None
  | S fuel' =>
      let s := jsonSkipSpace s in
      if (peek s =? "]")%char then Some (true, advance s, arr, h)
      else
        let (tmp, h) := new_cell h in
        match deref h tmp with
        | None => None
        | Some cell =>
            match rdJson s cell with
            | None => None
            | Some (false, s, cell) => Some (false, s, arr, write_cell h tmp cell)
            | Some (true, s, cell) =>
                let h := write_cell h tmp cell in
                let arr := arr ++ [tmp] in
                let s := jsonSkipSpace s in
                if (peek s =? ",")%char then
                  rdJson_vector_ptr_loop fuel' (advance s) arr h
                else if (peek s =? "]")%char then Some (true, advance s, arr, h)
                else Some (false, s, arr, h)
            end
        end
  end.

Definition rdJson_vector_ptr (s : cursor) (arr : list nat) (h : heap)
  : option (bool * cursor * list nat * heap) :=
  let s := jsonSkipSpace s in
  if negb (peek s =? "[")%char then Some (false, s, arr, h)
  else
    let s := advance s in
    let arr : list nat := [] in   (* arr.clear() *)
    rdJson_vector_ptr_loop (S (length s)) s arr h.
End Read.
End VectorPtr.

Arguments heap : clear implicits.

(** ** [map<KT, VT *>]

    The values of a [map<KT, VT *>] are addresses of cells that [new VT]
    has allocated. *)

Section MapPtr.
Context {KT VT : Type} `{Less KT}.

Section Write.
Context `{JsonWr KT} `{JsonWr VT}.

Fixpoint wrJsonSize_map_ptr_loop (h : heap VT) (arr : std_map KT nat)
  (size : N) : option N :=
  match arr with
  | [] => Some size
  | (k, p) :: arr' =>
      match deref h p with
      | Some v => wrJsonSize_map_ptr_loop h arr' (wrJsonSize_map_step size (k, v))
      | None => None
      end
  end.

Definition wrJsonSize_map_ptr (h : heap VT) (size : N) (arr : std_map KT nat)
  : option N :=
  let size := size_add size 2 in
  wrJsonSize_map_ptr_loop h arr size.

Fixpoint wrJson_map_ptr_loop (h : heap VT) (arr : std_map KT nat)
  (st : text * bool) : option (text * bool) :=
  match arr with
  | [] => Some st
  | (k, p) :: arr' =>
      match deref h p with
      | Some v => wrJson_map_ptr_loop h arr' (wrJson_map_step st (k, v))
      | None => None
      end
  end.

Definition wrJson_map_ptr (h : heap VT) (s : text) (arr : std_map KT nat)
  : option text :=
  let s := s ++ ["{"%char] in
  match wrJson_map_ptr_loop h arr (s, false) with
  | Some (s, _) => Some (s ++ ["}"%char])
  | None => None
  end.
End Write.

Section Read.
Context `{JsonRd KT} `{JsonRd VT}.

Fixpoint rdJson_map_ptr_loop (fuel : nat) (s : cursor) (arr : std_map KT nat)
  (h : heap VT) : option (bool * cursor * std_map KT nat * heap VT) :=
  match fuel with
  | O => None
  | S fuel' =>
      let s := jsonSkipSpace s in
      if (peek s =? "}")%char then Some (true, advance s, arr, h)
      else
        match rdJson s jsonDefault with
        | None => None
        | Some (false, s, _) => Some (false, s, arr, h)
        | Some (true, s, ktmp) =>
            let s := jsonSkipSpace s in
            if negb (peek s =? ":")%char then Some (false, s, arr, h)
            else
              let s := advance s in
              let s := jsonSkipSpace s in
              let (vtmp, h) := new_cell h in
              match deref h vtmp with
              | None => None
              | Some cell =>
                  match rdJson s cell with
                  | None => None
                  | Some (false, s, cell) =>
                      Some (false, s, arr, write_cell h vtmp cell)
                  | Some (true, s, cell) =>
                      let h := write_cell h vtmp cell in
                      let arr := map_assign arr ktmp vtmp in
                      let s := jsonSkipSpace s in
                      if (peek s =? ",")%char then
                        rdJson_map_ptr_loop fuel' (advance s) arr h
                      else if (peek s =? "}")%char then
                        Some (true, advance s, arr, h)
                      else Some (false, s, arr, h)
                  end
              end
        end
  end.

Definition rdJson_map_ptr (s : cursor) (arr : std_map KT nat) (h : heap VT)
  : option (bool * cursor * std_map KT nat * heap VT) :=
  let s := jsonSkipSpace s in
  if negb (peek s =? "{")%char then Some (false, s, arr, h)
  else
    let s := advance s in
    let arr : std_map KT nat := [] in   (* arr.clear() *)
    rdJson_map_ptr_loop (S (length s)) s arr h.
End Read.
End MapPtr.

(** ** [asJson] and [fromJson] at the containers of pointers

    The templates [asJson] and [fromJson] instantiated at [vector<T *>] and
    at [map<KT, VT *>]; the heap that the pointers point into is explicit. *)

Definition asJson_vector_ptr {T : Type} `{JsonWr T} (h : heap T)
  (value : list nat) : option jsonstr :=
  match wrJsonSize_vector_ptr h 0%N value, wrJson_vector_ptr h [] value with
  | Some retSize, Some p =>
      if (N.of_nat (length p) <=? retSize)%N then Some p else None
  | _, _ => None
  end.

Definition fromJson_vector_ptr {T : Type} `{JsonRd T} (sj : jsonstr)
  (value : list nat) (h : heap T) : option (bool * list nat * heap T) :=
  let s : cursor := sj in
  match rdJson_vector_ptr s value h with
  | Some (ok, _, value, h) => Some (ok, value, h)
  | None => None
  end.

Definition asJson_map_ptr {KT VT : Type} `{JsonWr KT} `{JsonWr VT}
  (h : heap VT) (value : std_map KT nat) : option jsonstr :=
  match wrJsonSize_map_ptr h 0%N value, wrJson_map_ptr h [] value with
  | Some retSize, Some p =>
      if (N.of_nat (length p) <=? retSize)%N then Some p else None
  | _, _ => None
  end.

Definition fromJson_map_ptr {KT VT : Type} `{Less KT} `{JsonRd KT}
  `{JsonRd VT} (sj : jsonstr) (value : std_map KT nat) (h : heap VT)
  : option (bool * std_map KT nat * heap VT) :=
  let s : cursor := sj in
  match rdJson_map_ptr s value h with
  | Some (ok, _, value, h) => Some (ok, value, h)
  | None => None
  end.

(** "For all supported value shapes V, decode(encode(v)) == v", for a
    vector [v] of pointers into the heap [h]: [fromJson(asJson(v), w)]
    returns true and leaves [w == v], whatever [w] held before. *)
Definition vector_ptr_roundtrips {T : Type} `{JsonWr T} `{JsonRd T}
  (h : heap T) (v : list nat) : Prop :=
  forall w : list nat,
    exists (sj : jsonstr) (h' : heap T),
      asJson_vector_ptr h v = Some sj /\
      fromJson_vector_ptr sj w h = Some (true, v, h').

(** * Further specifications

    ** Blanks between the tokens *)

(** A text made of blanks, tabs, newlines and carriage returns only. *)
Definition is_blank_text (t : text) : bool := forallb isJsonSpace t.

(** What may follow an encoded value in a text with blanks: what [delimited]
    allows, or a blank. *)
Definition ends_value (s : cursor) : bool :=
  delimited s || isJsonSpace (peek s).

(** A reader inverts a writer also when blanks follow the value. *)
Record roundtrips_blank {T : Type} (W : JsonWr T) (R : JsonRd T)
  (valid : T -> Prop) : Prop := {
  wrJson_starts_blank :
    forall v, valid v -> starts_value (wrJson [] v) = true;
  rdJson_wrJson_blank :
    forall v rest prior, valid v -> ends_value rest = true ->
      rdJson (wrJson [] v ++ rest) prior = Some (true, rest, v)
}.

Arguments wrJson_starts_blank {T W R valid} _ v _.
Arguments rdJson_wrJson_blank {T W R valid} _ v rest prior _ _.

(** An element of an array text together with the blanks before and after
    it. *)
Record spaced (T : Type) : Type := mk_spaced {
  blanks_before : text;
  spaced_value : T;
  blanks_after : text
}.

Arguments mk_spaced {T} _ _ _.
Arguments blanks_before {T} _.
Arguments spaced_value {T} _.
Arguments blanks_after {T} _.

Definition spaced_ok {T : Type} (it : spaced T) : bool :=
  is_blank_text (blanks_before it) && is_blank_text (blanks_after it).

Definition spaced_valid {T : Type} (valid : T -> Prop) (it : spaced T) : Prop :=
  spaced_ok it = true /\ valid (spaced_value it).

Section Spaced.
Context {T : Type} `{JsonWr T}.

Definition spaced_item (it : spaced T) : text :=
  blanks_before it ++ wrJson [] (spaced_value it) ++ blanks_after it.

Definition spaced_tail (items : list (spaced T)) : text :=
  flat_map (fun it => ","%char :: spaced_item it) items.

(** An array text with blanks [lead] before the opening bracket, blanks
    around every element, and the blanks [inner] between the brackets when
    there is no element. *)
Definition spaced_array (lead inner : text) (items : list (spaced T)) : text :=
  lead ++ "["%char ::
    match items with
    | [] => inner
    | it :: items' => spaced_item it ++ spaced_tail items'
    end ++ ["]"%char].
End Spaced.

Section SpacedMembers.
Context {KT VT : Type} `{JsonWr KT} `{JsonWr VT}.

(** A member of an object text with blanks around its key and around its
    value. *)
Definition spaced_member (m : spaced KT * spaced VT) : text :=
  spaced_item (fst m) ++ ":"%char :: spaced_item (snd m).

Definition spaced_members_tail (members : list (spaced KT * spaced VT))
  : text :=
  flat_map (fun m => ","%char :: spaced_member m) members.

(** An object text with blanks [lead] before the opening brace, blanks
    around every key and value, and the blanks [inner] between the braces
    when there is no member. *)
Definition spaced_object (lead inner : text)
  (members : list (spaced KT * spaced VT)) : text :=
  lead ++ "{"%char ::
    match members with
    | [] => inner
    | m :: members' => spaced_member m ++ spaced_members_tail members'
    end ++ ["}"%char].

Definition member_value (m : spaced KT * spaced VT) : KT * VT :=
  (spaced_value (fst m), spaced_value (snd m)).

End SpacedMembers.

Definition spaced_member_valid {KT VT : Type} (validK : KT -> Prop)
  (validV : VT -> Prop) (m : spaced KT * spaced VT) : Prop :=
  spaced_valid validK (fst m) /\ spaced_valid validV (snd m).

(** ** Object texts in general *)

(** The reader [R] parses the text [t] as the value [v], whatever follows
    the text inside a container. *)
Definition parses {T : Type} (R : JsonRd T) (t : text) (v : T) : Prop :=
  starts_value t = true /\
  forall (rest : cursor) (prior : T),
    ends_value rest = true -> rdJson (t ++ rest) prior = Some (true, rest, v).

(** A key or a value of an object text: its text, the value that its
    reader parses it as, and the blanks before and after it. *)
Record token (T : Type) : Type := mk_token {
  token_lead : text;
  token_text : text;
  token_value : T;
  token_trail : text
}.

Arguments mk_token {T} _ _ _ _.
Arguments token_lead {T} _.
Arguments token_text {T} _.
Arguments token_value {T} _.
Arguments token_trail {T} _.

Definition token_bytes {T : Type} (tok : token T) : text :=
  token_lead tok ++ token_text tok ++ token_trail tok.

Definition token_ok {T : Type} (R : JsonRd T) (tok : token T) : Prop :=
  is_blank_text (token_lead tok) = true /\
  is_blank_text (token_trail tok) = true /\
  parses R (token_text tok) (token_value tok).

Section JsonObject.
Context {KT VT : Type}.

Definition member_bytes (m : token KT * token VT) : text :=
  token_bytes (fst m) ++ ":"%char :: token_bytes (snd m).

Definition members_tail (members : list (token KT * token VT)) : text :=
  flat_map (fun m => ","%char :: member_bytes m) members.

(** An object text: blanks [lead] before the opening brace, the members
    separated by commas, each a key, a colon and a value, and the blanks
    [inner] between the braces when there is no member. *)
Definition json_object (lead inner : text)
  (members : list (token KT * token VT)) : text :=
  lead ++ "{"%char ::
    match members with
    | [] => inner
    | m :: members' => member_bytes m ++ members_tail members'
    end ++ ["}"%char].

(** The key and the value that a member stands for. *)
Definition member_of (m : token KT * token VT) : KT * VT :=
  (token_value (fst m), token_value (snd m)).

Definition member_ok (RK : JsonRd KT) (RV : JsonRd VT)
  (m : token KT * token VT) : Prop :=
  token_ok RK (fst m) /\ token_ok RV (snd m).
End JsonObject.

(** The object text with a blank before the comma, in which the key [true]
    occurs twice. *)
Definition spaced_duplicate_members : list (token bool * token bool) :=
  [ (mk_token [] (lit "true") true [], mk_token [] (lit "false") false (lit " "));
    (mk_token [] (lit "true") true [], mk_token [] (lit "true") true []) ].

(** Whether a shape is a container, whose text ends with a bracket. *)
Definition is_container {prim : Type} (a : shape prim) : bool :=
  match a with
  | Vector _ | Map _ _ => true
  | Prim _ | SharedPtr _ => false
  end.

(** ** The pointees of a container of pointers *)

(** The cells that a list of addresses points to, when all of them are
    addresses of cells. *)
Fixpoint pointees {T : Type} (h : heap T) (arr : list nat) : option (list T) :=
  match arr with
  | [] => Some []
  | p :: arr' =>
      match deref h p, pointees h arr' with
      | Some v, Some vs => Some (v :: vs)
      | _, _ => None
      end
  end.


(** The map of the cells that the values of a [map<KT, VT *>] point to,
    when all of them are addresses of cells. *)
Fixpoint map_pointees {KT VT : Type} (h : heap VT) (arr : std_map KT nat)
  : option (std_map KT VT) :=
  match arr with
  | [] => Some []
  | (k, p) :: arr' =>
      match deref h p, map_pointees h arr' with
      | Some v, Some vs => Some ((k, v) :: vs)
      | _, _ => None
      end
  end.

(** [*arr.find(k)->second]: the cell that the entry of [k] points to. *)
Definition map_find_deref {KT VT : Type} `{Less KT} (h : heap VT)
  (arr : std_map KT nat) (k : KT) : option VT :=
  match map_find arr k with
  | Some p => deref h p
  | None => None
  end.

(** ** The byte stream of the transmit direction *)

(** The bytes of a sequence of records on the wire: each record followed by
    a newline. *)
Definition wire (records : list text) : text :=
  concat (map (fun r => r ++ [newline]) records).

(** The bytes that the object still has to send: what is left of the
    current record, then the queued records. *)
Definition pending (o : jsonpipe) : text := txCur o ++ wire (txQ o).

(** The bytes that the calls of [send] in a trace have taken, in order. *)
Definition accepted (tr : list event) : text :=
  flat_map (fun e => match e with
                     | EvSend _ data (SendOk nw) => firstn nw data
                     | _ => []
                     end) tr.

(** The bytes taken so far, then the bytes still to be sent. *)
Definition stream (w : world) : text :=
  accepted (trace w) ++ pending (self w).

(** The results of [send] on a socket that takes every record whole. *)
Definition takes_all (records : list text) : list send_result :=
  map (fun r => SendOk (S (length r))) records.

(** The calls of [send] that hand over one whole record each. *)
Definition sends_whole (fd : Z) (records : list text) : list event :=
  map (fun r => EvSend fd (r ++ [newline]) (SendOk (S (length r)))) records.

(** The event by which a direction gives up the descriptor [fd], the other
    direction having [other]. *)
Definition close_event (fd other : Z) (how : shut_how) : event :=
  if (fd =? other)%Z then EvShutdown fd how else EvClose fd.

(** ** Callers *)

(** A caller that calls the method [m] [n] times in a row and collects what
    it returns. *)
Fixpoint times {A : Type} (n : nat) (m : M A) : M (list A) :=
  match n with
  | O => ret []
  | S n' => a <- m ;; l <- times n' m ;; ret (a :: l)
  end.

(** A property of the object that a method, once it holds, never undoes. *)
Definition stable {A : Type} (P : jsonpipe -> Prop) (m : M A) : Prop :=
  forall w, P (self w) -> P (self (snd (m w))).

(** The number of calls of [notify_all] in a trace. *)
Definition notifications (tr : list event) : nat :=
  length (filter (fun e => match e with EvNotifyAll => true | _ => false end) tr).


(** A caller that hands the records to [tx] one after the other. *)
Fixpoint tx_each (records : list text) : M unit :=
  match records with
  | [] => ret tt
  | r :: records' => tx r ;; tx_each records'
  end.

(** The object with both directions closed. *)
Definition both_closed (o : jsonpipe) : jsonpipe :=
  store F_rxFd (-1)%Z (store F_txFd (-1)%Z o).

(** The log of unguarded accesses after the data members [l] have been
    touched, the mutex being in the state [m]. *)
Definition touched (m : bool) (u l : list field_name) : list field_name :=
  if m then u else u ++ l.

(** One thread waits in [rxBlock]; the select loop holds the mutex, and the
    descriptor delivers a record and a half, then would block. *)
Definition blocked_world_locked : world :=
  mk_world pipe_3_4 true 1 [ReadOk (lit "ab" ++ newline :: lit "cd")] [] [] [].



(** A property of the object that no method but [setFds] undoes. *)
Definition kept_by_the_methods (P : jsonpipe -> Prop) : Prop :=
  stable P rxWork /\
  stable P txWork /\
  (forall s, stable P (tx s)) /\
  stable P txEof /\
  stable P rxBlock /\
  stable P rxNonblock /\
  (forall rfds wfds, stable P (preSelect rfds wfds)) /\
  (forall rfds wfds, stable P (postSelect rfds wfds)) /\
  stable P closeRx /\
  stable P closeTx.

(** The notification that ends [rxWork] when [rxActivity] is set. *)
Definition rx_notified (rxActivity : bool) : list event :=
  if rxActivity then [EvNotifyAll] else [].

(** ** A pass of [txWork] *)

(** Every [send] that takes only part of what it is offered is directly
    followed by a [send] that offers exactly the rest, on the same
    descriptor. *)
Fixpoint partial_sends_continue (tr : list event) : Prop :=
  match tr with
  | [] => True
  | EvSend fd data (SendOk nw) :: rest =>
      (nw < length data ->
       match rest with
       | EvSend fd' data' _ :: _ => fd' = fd /\ data' = skipn nw data
       | _ => False
       end) /\
      partial_sends_continue rest
  | _ :: rest => partial_sends_continue rest
  end.

(** How a pass of [txWork] on the descriptor [fd] has ended, given the
    events [more] of the pass, its outcome [r] and the object [o'] it
    leaves: nothing is left to send; or the last [send] would have blocked;
    or the last [send] failed, and the transmit direction is closed; or the
    last [send] claimed more bytes than it was offered. *)
Inductive pass_ended (fd rfd : Z) (more : list event) (r : outcome unit)
  (o' : jsonpipe) : Prop :=
| nothing_left :
    r = Done tt -> pending o' = [] -> pass_ended fd rfd more r o'
| would_block (before : list event) :
    r = Done tt -> txCur o' <> [] -> txFd o' = fd ->
    more = before ++ [EvSend fd (txCur o') (SendErr EAGAIN)] ->
    pass_ended fd rfd more r o'
| send_failed (before : list event) (e : errno_t) :
    r = Done tt -> e <> EAGAIN -> txFd o' = (-1)%Z ->
    more = before ++ [EvSend fd (txCur o') (SendErr e); EvEprintfWrite e;
                      close_event fd rfd SHUT_WR] ->
    pass_ended fd rfd more r o'
| wrote_too_much (before : list event) (nw : nat) :
    length (txCur o') < nw ->
    r = Throw (write_wrote nw (length (txCur o'))) ->
    more = before ++ [EvSend fd (txCur o') (SendOk nw)] ->
    pass_ended fd rfd more r o'.
(** * Properties of the codec *)

Lemma jsonSkipSpace_nonspace (c : ascii) (s : cursor) :
  isJsonSpace c = false -> jsonSkipSpace (c :: s) = c :: s.
Proof. intros Hc. simpl. rewrite Hc. reflexivity. Qed.

Lemma starts_value_cons (t : text) :
  starts_value t = true ->
  exists c t', t = c :: t' /\ isJsonSpace c = false /\
               (c =? "]")%char = false /\ (c =? "}")%char = false.
Proof.
  destruct t as [|c t']; simpl; [discriminate|].
  intros H. exists c, t'.
  apply andb_prop in H as [H H3]. apply andb_prop in H as [H1 H2].
  rewrite negb_true_iff in H1, H2, H3. auto.
Qed.

Lemma size_add_mod (a b : N) :
  size_add (a mod size_max) b = ((a + b) mod size_max)%N.
Proof. unfold size_add. apply N.Div0.add_mod_idemp_l. Qed.

Lemma size_add_mod_r (a b : N) :
  size_add a (b mod size_max) = ((a + b) mod size_max)%N.
Proof. unfold size_add. apply N.Div0.add_mod_idemp_r. Qed.

Lemma mod_add_mod (a b : N) :
  (((a mod size_max) + b) mod size_max = (a + b) mod size_max)%N.
Proof. apply N.Div0.add_mod_idemp_l. Qed.

Lemma sum_est_cons {T : Type} (est : T -> N) (a : T) (arr : list T) :
  sum_est est (a :: arr) = (est a + sum_est est arr)%N.
Proof. reflexivity. Qed.

Lemma vector_tail_cons {T : Type} `{JsonWr T} (a : T) (arr : list T) :
  vector_tail (a :: arr) = ","%char :: wrJson [] a ++ vector_tail arr.
Proof. reflexivity. Qed.

(** *** [shared_ptr<T>] *)

Section SharedPtrLaws.
Context {T : Type} {W : JsonWr T} (est : T -> N).
Hypothesis HW : wr_lawful W est.

Lemma wr_lawful_shared_ptr : wr_lawful JsonWr_shared_ptr (est_shared_ptr est).
Proof.
  split.
  - intros size [v|]; simpl; [apply HW | reflexivity].
  - intros s [v|]; simpl; [apply HW |].
    repeat rewrite <- app_assoc. reflexivity.
  - intros [v|]; simpl; [apply HW | lia].
Qed.
End SharedPtrLaws.

(** *** [vector<T>] *)

Section VectorWrLaws.
Context {T : Type} {W : JsonWr T} (est : T -> N).
Hypothesis HW : wr_lawful W est.

Lemma wrJsonSize_vector_fold (arr : list T) (x : N) :
  fold_left (fun size it => wrJsonSize size it) arr (x mod size_max)%N
  = ((x + sum_est est arr) mod size_max)%N.
Proof.
  revert x. induction arr as [|a arr IH]; intros x; simpl.
  - rewrite N.add_0_r. reflexivity.
  - rewrite (wrJsonSize_est HW), mod_add_mod, IH.
    f_equal. lia.
Qed.

Lemma wrJson_vector_fold_sep (arr : list T) (s : text) :
  fold_left wrJson_vector_step arr (s, true) = (s ++ vector_tail arr, true).
Proof.
  revert s. induction arr as [|a arr IH]; intros s; simpl.
  - rewrite app_nil_r. reflexivity.
  - rewrite IH, (wrJson_appends HW). f_equal.
    repeat rewrite <- app_assoc. reflexivity.
Qed.

Lemma wrJson_vector_text (arr : list T) (s : text) :
  wrJson_vector s arr = s ++ "["%char :: vector_body arr ++ ["]"%char].
Proof.
  unfold wrJson_vector. destruct arr as [|a arr]; simpl.
  - rewrite <- app_assoc. reflexivity.
  - rewrite wrJson_vector_fold_sep, (wrJson_appends HW).
    repeat rewrite <- app_assoc. reflexivity.
Qed.

Lemma vector_tail_length (arr : list T) :
  (N.of_nat (length (vector_tail arr))
   <= N.of_nat (length arr) + sum_est est arr)%N.
Proof.
  induction arr as [|a arr IH]; [simpl; lia|].
  rewrite vector_tail_cons, sum_est_cons, !length_cons, length_app.
  pose proof (wrJson_within HW a). lia.
Qed.

Lemma vector_body_length (arr : list T) :
  (N.of_nat (length (vector_body arr))
   <= N.of_nat (length arr) + sum_est est arr)%N.
Proof.
  destruct arr as [|a arr]; [simpl; lia|].
  cbn [vector_body]. rewrite sum_est_cons, length_cons, length_app.
  pose proof (wrJson_within HW a). pose proof (vector_tail_length arr). lia.
Qed.

Lemma wr_lawful_vector : wr_lawful JsonWr_vector (est_vector est).
Proof.
  split.
  - intros size arr. cbn [wrJsonSize JsonWr_vector].
    unfold wrJsonSize_vector, est_vector.
    unfold size_add at 2. rewrite size_add_mod_r, wrJsonSize_vector_fold.
    f_equal. lia.
  - intros s arr. simpl. rewrite !wrJson_vector_text. reflexivity.
  - intros arr. cbn [wrJson JsonWr_vector].
    rewrite wrJson_vector_text. cbn [app].
    rewrite length_cons, length_app, length_cons. cbn [length].
    unfold est_vector.
    pose proof (vector_body_length arr). lia.
Qed.
End VectorWrLaws.

Lemma starts_value_app (t u : text) :
  starts_value t = true ->
  jsonSkipSpace (t ++ u) = t ++ u /\
  (peek (t ++ u) =? "]")%char = false /\
  (peek (t ++ u) =? "}")%char = false.
Proof.
  intros Ht. destruct (starts_value_cons t Ht) as (c & t' & -> & Hsp & H1 & H2).
  simpl. rewrite Hsp. auto.
Qed.

Lemma rdJson_vector_loop_S {T : Type} `{JsonRd T} (fuel : nat) (s : cursor)
  (arr : list T) :
  rdJson_vector_loop (S fuel) s arr =
  let s := jsonSkipSpace s in
  if (peek s =? "]")%char then Some (true, advance s, arr)
  else
    match rdJson s jsonDefault with
    | None => None
    | Some (false, s, _) => Some (false, s, arr)
    | Some (true, s, tmp) =>
        let arr := arr ++ [tmp] in
        let s := jsonSkipSpace s in
        if (peek s =? ",")%char then rdJson_vector_loop fuel (advance s) arr
        else if (peek s =? "]")%char then Some (true, advance s, arr)
        else Some (false, s, arr)
    end.
Proof. reflexivity. Qed.

Section VectorRoundtrip.
Context {T : Type} {W : JsonWr T} {R : JsonRd T}.
Context (est : T -> N) (valid : T -> Prop).
Hypothesis HW : wr_lawful W est.
Hypothesis HR : roundtrips W R valid.

Lemma vector_tail_delimited (arr : list T) (rest : cursor) :
  delimited (vector_tail arr ++ "]"%char :: rest) = true.
Proof. destruct arr; reflexivity. Qed.

Lemma vector_tail_length_ge (arr : list T) :
  length arr <= length (vector_tail arr).
Proof.
  induction arr as [|a arr IH]; [simpl; lia|].
  rewrite vector_tail_cons, !length_cons, length_app. lia.
Qed.

Lemma rdJson_vector_loop_wrJson (r : list T) :
  forall (x : T) (fuel : nat) (acc : list T) (rest : cursor),
    valid x -> Forall valid r -> length r < fuel ->
    rdJson_vector_loop fuel
      (wrJson [] x ++ vector_tail r ++ "]"%char :: rest) acc
    = Some (true, rest, acc ++ x :: r).
Proof.
  induction r as [|y r IH]; intros x fuel acc rest Hx Hr Hfuel;
    (destruct fuel as [|fuel]; [simpl in Hfuel; lia|]);
    rewrite rdJson_vector_loop_S; cbv zeta.
  - destruct (starts_value_app (wrJson [] x) (vector_tail [] ++ "]"%char :: rest)
                (wrJson_starts HR x Hx)) as (-> & -> & _).
    rewrite (rdJson_wrJson HR x _ jsonDefault Hx (vector_tail_delimited [] rest)).
    reflexivity.
  - destruct (starts_value_app (wrJson [] x)
                (vector_tail (y :: r) ++ "]"%char :: rest)
                (wrJson_starts HR x Hx)) as (-> & -> & _).
    rewrite (rdJson_wrJson HR x _ jsonDefault Hx
               (vector_tail_delimited (y :: r) rest)).
    rewrite vector_tail_cons. cbn [app jsonSkipSpace].
    change (isJsonSpace ","%char) with false. cbv iota.
    unfold peek, advance, tl.
    change ((","%char =? ","%char)%char) with true. cbv iota.
    inversion Hr; subst.
    rewrite <- app_assoc.
    rewrite IH by (auto; simpl in Hfuel; lia).
    rewrite <- app_assoc. reflexivity.
Qed.

Lemma rdJson_vector_wrJson (arr : list T) (rest : cursor) (prior : list T) :
  Forall valid arr ->
  rdJson_vector (wrJson_vector [] arr ++ rest) prior = Some (true, rest, arr).
Proof.
  intros Harr. rewrite (wrJson_vector_text est HW). cbn [app].
  unfold rdJson_vector.
  cbn [jsonSkipSpace]. change (isJsonSpace "["%char) with false. cbv iota zeta.
  cbn [peek advance tl]. change (("["%char =? "["%char)%char) with true.
  cbn [negb]. cbv iota.
  rewrite <- app_assoc. cbn [app].
  destruct arr as [|x r].
  - reflexivity.
  - cbn [vector_body]. rewrite <- app_assoc.
    inversion Harr; subst.
    rewrite rdJson_vector_loop_wrJson; auto.
    rewrite !length_app. pose proof (vector_tail_length_ge r). lia.
Qed.

Lemma roundtrips_vector :
  roundtrips (@JsonWr_vector T W) (@JsonRd_vector T R) (Forall valid).
Proof.
  split.
  - intros arr _. cbn [wrJson JsonWr_vector].
    rewrite (wrJson_vector_text est HW). reflexivity.
  - intros arr rest prior Harr _. apply rdJson_vector_wrJson. exact Harr.
Qed.
End VectorRoundtrip.

(** *** [map<KT, VT>] *)

Lemma map_tail_cons {KT VT : Type} `{JsonWr KT} `{JsonWr VT}
  (it : KT * VT) (arr : list (KT * VT)) :
  map_tail (it :: arr) = ","%char :: member_text it ++ map_tail arr.
Proof. reflexivity. Qed.

Section MapWrLaws.
Context {KT VT : Type} {L : Less KT} {WK : JsonWr KT} {WV : JsonWr VT}.
Context (estK : KT -> N) (estV : VT -> N).
Hypothesis HWK : wr_lawful WK estK.
Hypothesis HWV : wr_lawful WV estV.

Local Abbreviation est_member := (est_member estK estV).

Lemma wrJsonSize_map_fold (arr : std_map KT VT) (x : N) :
  fold_left wrJsonSize_map_step arr (x mod size_max)%N
  = ((x + sum_est est_member arr) mod size_max)%N.
Proof.
  revert x. induction arr as [|[k v] arr IH]; intros x.
  - simpl. rewrite N.add_0_r. reflexivity.
  - cbn [fold_left]. unfold wrJsonSize_map_step at 2. cbn [fst snd].
    rewrite (wrJsonSize_est HWK), mod_add_mod.
    rewrite (wrJsonSize_est HWV), mod_add_mod.
    rewrite size_add_mod, IH, sum_est_cons.
    unfold est_member at 2. cbn [fst snd]. f_equal. lia.
Qed.

Lemma wrJson_map_fold_sep (arr : std_map KT VT) (s : text) :
  fold_left wrJson_map_step arr (s, true) = (s ++ map_tail arr, true).
Proof.
  revert s. induction arr as [|it arr IH]; intros s.
  - simpl. rewrite app_nil_r. reflexivity.
  - cbn [fold_left]. unfold wrJson_map_step at 2.
    rewrite IH, map_tail_cons. unfold member_text.
    rewrite (wrJson_appends HWV), (wrJson_appends HWK).
    f_equal. repeat rewrite <- app_assoc. reflexivity.
Qed.

Lemma wrJson_map_text (arr : std_map KT VT) (s : text) :
  wrJson_map s arr = s ++ object_text arr.
Proof.
  unfold wrJson_map, object_text. destruct arr as [|it arr].
  - simpl. rewrite <- app_assoc. reflexivity.
  - cbn [fold_left]. unfold wrJson_map_step at 2.
    rewrite wrJson_map_fold_sep. cbn [map_body]. unfold member_text.
    rewrite (wrJson_appends HWV), (wrJson_appends HWK).
    repeat (rewrite <- app_assoc; cbn [app]). reflexivity.
Qed.

Lemma member_text_length (it : KT * VT) :
  (N.of_nat (length (member_text it)) + 1 <= est_member it)%N.
Proof.
  unfold member_text, est_member. rewrite length_app, length_cons.
  pose proof (wrJson_within HWK (fst it)).
  pose proof (wrJson_within HWV (snd it)). lia.
Qed.

Lemma map_tail_length (arr : list (KT * VT)) :
  (N.of_nat (length (map_tail arr)) <= sum_est est_member arr)%N.
Proof.
  induction arr as [|it arr IH]; [simpl; lia|].
  rewrite map_tail_cons, sum_est_cons, length_cons, length_app.
  pose proof (member_text_length it). lia.
Qed.

Lemma map_body_length (arr : list (KT * VT)) :
  (N.of_nat (length (map_body arr)) <= sum_est est_member arr)%N.
Proof.
  destruct arr as [|it arr]; [simpl; lia|].
  cbn [map_body]. rewrite sum_est_cons, length_app.
  pose proof (member_text_length it). pose proof (map_tail_length arr). lia.
Qed.

Lemma wr_lawful_map : wr_lawful (@JsonWr_map KT VT WK WV) (est_map estK estV).
Proof.
  split.
  - intros size arr. cbn [wrJsonSize JsonWr_map].
    unfold wrJsonSize_map, est_map.
    unfold size_add. rewrite wrJsonSize_map_fold.
    f_equal. fold est_member. lia.
  - intros s arr. cbn [wrJson JsonWr_map].
    rewrite !wrJson_map_text. reflexivity.
  - intros arr. cbn [wrJson JsonWr_map].
    rewrite wrJson_map_text. unfold object_text. cbn [app].
    rewrite length_cons, length_app, length_cons. cbn [length].
    unfold est_map. fold est_member.
    pose proof (map_body_length arr). lia.
Qed.
End MapWrLaws.

Lemma rdJson_map_loop_S {KT VT : Type} `{Less KT} `{JsonRd KT} `{JsonRd VT}
  (fuel : nat) (s : cursor) (arr : std_map KT VT) :
  rdJson_map_loop (S fuel) s arr =
  let s := jsonSkipSpace s in
  if (peek s =? "}")%char then Some (true, advance s, arr)
  else
    match rdJson s jsonDefault with
    | None => None
    | Some (false, s, _) => Some (false, s, arr)
    | Some (true, s, ktmp) =>
        let s := jsonSkipSpace s in
        if negb (peek s =? ":")%char then Some (false, s, arr)
        else
          let s := advance s in
          let s := jsonSkipSpace s in
          match rdJson s jsonDefault with
          | None => None
          | Some (false, s, _) => Some (false, s, arr)
          | Some (true, s, vtmp) =>
              let arr := map_assign arr ktmp vtmp in
              let s := jsonSkipSpace s in
              if (peek s =? ",")%char then rdJson_map_loop fuel (advance s) arr
              else if (peek s =? "}")%char then Some (true, advance s, arr)
              else Some (false, s, arr)
          end
    end.
Proof. reflexivity. Qed.

Section MapOrder.
Context {KT VT : Type} {L : Less KT}.
Hypothesis HL : less_lawful L.

Lemma less_asym (a b : KT) : less a b = true -> less b a = false.
Proof.
  intros Hab. destruct (less b a) eqn:Hba; [|reflexivity].
  pose proof (less_trans HL a b a Hab Hba) as Haa.
  rewrite (less_irrefl HL) in Haa. discriminate.
Qed.

Lemma same_key_eq (a b : KT) : same_key a b = true <-> a = b.
Proof.
  unfold same_key. split.
  - intros H. apply andb_prop in H as [H1 H2].
    rewrite negb_true_iff in H1, H2. apply (less_total HL); assumption.
  - intros ->. rewrite (less_irrefl HL). reflexivity.
Qed.

Lemma same_key_refl (a : KT) : same_key a a = true.
Proof. apply same_key_eq. reflexivity. Qed.

(** Assigning to a key above all the keys of the map appends the entry. *)
Lemma map_assign_above (arr : std_map KT VT) (k : KT) (v : VT) :
  Forall (fun it => less (fst it) k = true) arr ->
  map_assign arr k v = arr ++ [(k, v)].
Proof.
  induction arr as [|[k' v'] arr IH]; intros Harr; [reflexivity|].
  inversion Harr as [|? ? Hk' Harr']; subst. cbn [fst] in Hk'.
  cbn [map_assign app]. rewrite (less_asym _ _ Hk'), Hk', IH by assumption.
  reflexivity.
Qed.

Lemma StronglySorted_app_below (R : KT * VT -> KT * VT -> Prop)
  (acc : list (KT * VT)) (x : KT * VT) (l : list (KT * VT)) :
  StronglySorted R (acc ++ x :: l) -> Forall (fun e => R e x) acc.
Proof.
  induction acc as [|a acc IH]; intros Hs; [constructor|].
  cbn [app] in Hs. apply StronglySorted_inv in Hs as [Hs Ha].
  constructor; [|apply IH; exact Hs].
  rewrite Forall_forall in Ha. apply Ha. apply in_elt.
Qed.

(** Assigning the entries of a map in ascending key order rebuilds it. *)
Lemma assign_all_sorted (arr acc : std_map KT VT) :
  map_sorted (acc ++ arr) -> assign_all acc arr = acc ++ arr.
Proof.
  revert acc. induction arr as [|[k v] arr IH]; intros acc Hs.
  - simpl. rewrite app_nil_r. reflexivity.
  - unfold assign_all. cbn [fold_left fst snd].
    rewrite map_assign_above.
    + fold (assign_all (acc ++ [(k, v)]) arr). rewrite IH.
      * rewrite <- app_assoc. reflexivity.
      * rewrite <- app_assoc. exact Hs.
    + apply StronglySorted_app_below in Hs. exact Hs.
Qed.

(** Looking up after an assignment. *)
Lemma map_find_assign (arr : std_map KT VT) (k k' : KT) (v : VT) :
  map_find (map_assign arr k v) k'
  = if same_key k' k then Some v else map_find arr k'.
Proof.
  induction arr as [|[k1 v1] arr IH]; cbn [map_assign map_find].
  - reflexivity.
  - destruct (less k k1) eqn:Hlt; [reflexivity|].
    destruct (less k1 k) eqn:Hgt; cbn [map_find].
    + rewrite IH. destruct (same_key k' k1) eqn:E1; [|reflexivity].
      destruct (same_key k' k) eqn:E; [|reflexivity].
      apply same_key_eq in E1, E. subst.
      rewrite (less_irrefl HL) in Hgt. discriminate.
    + assert (k = k1) as -> by (apply (less_total HL); assumption).
      destruct (same_key k' k1); reflexivity.
Qed.

Lemma map_find_assign_all (members : list (KT * VT)) (arr : std_map KT VT)
  (k : KT) :
  map_find (assign_all arr members) k
  = match last_occurrence members k with
    | Some v => Some v
    | None => map_find arr k
    end.
Proof.
  revert arr. induction members as [|[k1 v1] members IH]; intros arr.
  - reflexivity.
  - unfold assign_all. cbn [fold_left fst snd last_occurrence].
    fold (assign_all (map_assign arr k1 v1) members).
    rewrite IH, map_find_assign.
    destruct (last_occurrence members k); [reflexivity|].
    destruct (same_key k k1); reflexivity.
Qed.
End MapOrder.

Section MapRoundtrip.
Context {KT VT : Type} {L : Less KT}.
Context {WK : JsonWr KT} {WV : JsonWr VT} {RK : JsonRd KT} {RV : JsonRd VT}.
Context (estK : KT -> N) (estV : VT -> N).
Context (validK : KT -> Prop) (validV : VT -> Prop).
Hypothesis HWK : wr_lawful WK estK.
Hypothesis HWV : wr_lawful WV estV.
Hypothesis HRK : roundtrips WK RK validK.
Hypothesis HRV : roundtrips WV RV validV.

Local Abbreviation valid_member := (valid_member validK validV).

Lemma map_tail_delimited (arr : list (KT * VT)) (rest : cursor) :
  delimited (map_tail arr ++ "}"%char :: rest) = true.
Proof. destruct arr; reflexivity. Qed.

Lemma map_tail_length_ge (arr : list (KT * VT)) :
  length arr <= length (map_tail arr).
Proof.
  induction arr as [|a arr IH]; [simpl; lia|].
  rewrite map_tail_cons, !length_cons, length_app. lia.
Qed.

(** Reading one member and what follows it. *)
Lemma rdJson_map_loop_member (it : KT * VT) (tail : cursor) (fuel : nat)
  (acc : std_map KT VT) :
  valid_member it -> delimited tail = true ->
  rdJson_map_loop (S fuel) (member_text it ++ tail) acc =
  let arr := map_assign acc (fst it) (snd it) in
  let s := jsonSkipSpace tail in
  if (peek s =? ",")%char then rdJson_map_loop fuel (advance s) arr
  else if (peek s =? "}")%char then Some (true, advance s, arr)
  else Some (false, s, arr).
Proof.
  intros [Hk Hv] Htail. destruct it as [k v]. cbn [fst snd] in *.
  rewrite rdJson_map_loop_S. cbv zeta. unfold member_text. cbn [fst snd].
  rewrite <- app_assoc. cbn [app].
  destruct (starts_value_app (wrJson [] k) (":"%char :: wrJson [] v ++ tail)
              (wrJson_starts HRK k Hk)) as (-> & _ & ->).
  rewrite (rdJson_wrJson HRK k (":"%char :: wrJson [] v ++ tail) jsonDefault
             Hk eq_refl).
  cbn [jsonSkipSpace]. change (isJsonSpace ":"%char) with false. cbv iota.
  unfold peek at 1. change ((":"%char =? ":"%char)%char) with true.
  cbn [negb]. cbv iota. unfold advance at 1. cbn [tl].
  destruct (starts_value_app (wrJson [] v) tail (wrJson_starts HRV v Hv))
    as (-> & _ & _).
  rewrite (rdJson_wrJson HRV v _ jsonDefault Hv Htail).
  reflexivity.
Qed.

Lemma rdJson_map_loop_wrJson (r : list (KT * VT)) :
  forall (it : KT * VT) (fuel : nat) (acc : std_map KT VT) (rest : cursor),
    valid_member it -> Forall valid_member r -> length r < fuel ->
    rdJson_map_loop fuel (member_text it ++ map_tail r ++ "}"%char :: rest) acc
    = Some (true, rest, assign_all acc (it :: r)).
Proof.
  induction r as [|it' r IH]; intros it fuel acc rest Hit Hr Hfuel;
    (destruct fuel as [|fuel]; [simpl in Hfuel; lia|]).
  - rewrite rdJson_map_loop_member by (auto using map_tail_delimited).
    reflexivity.
  - rewrite rdJson_map_loop_member by (auto using map_tail_delimited).
    rewrite map_tail_cons. cbv zeta. cbn [app jsonSkipSpace].
    change (isJsonSpace ","%char) with false. cbv iota.
    unfold peek, advance, tl.
    change ((","%char =? ","%char)%char) with true. cbv iota.
    inversion Hr; subst.
    rewrite <- app_assoc.
    rewrite IH by (auto; simpl in Hfuel; lia).
    reflexivity.
Qed.

(** An object text is read back as the map that its members build by
    successive assignment, duplicates and order as they come. *)
Lemma rdJson_map_object_text (members : list (KT * VT)) (rest : cursor)
  (prior : std_map KT VT) :
  Forall valid_member members ->
  rdJson_map (object_text members ++ rest) prior
  = Some (true, rest, assign_all [] members).
Proof.
  intros Hm. unfold object_text. cbn [app]. unfold rdJson_map.
  cbn [jsonSkipSpace]. change (isJsonSpace "{"%char) with false. cbv iota zeta.
  unfold peek, advance, tl.
  change (("{"%char =? "{"%char)%char) with true. cbn [negb]. cbv iota.
  rewrite <- app_assoc. cbn [app].
  destruct members as [|it r].
  - reflexivity.
  - cbn [map_body]. rewrite <- app_assoc.
    inversion Hm; subst.
    rewrite rdJson_map_loop_wrJson; auto.
    rewrite !length_app. pose proof (map_tail_length_ge r). lia.
Qed.

Hypothesis HL : less_lawful L.

Lemma roundtrips_map :
  roundtrips (@JsonWr_map KT VT WK WV) (@JsonRd_map KT VT L RK RV)
             (valid_map validK validV).
Proof.
  split.
  - intros arr _. cbn [wrJson JsonWr_map].
    rewrite (wrJson_map_text estK estV HWK HWV). reflexivity.
  - intros arr rest prior [Hs Hm] _. cbn [wrJson JsonWr_map rdJson JsonRd_map].
    rewrite (wrJson_map_text estK estV HWK HWV). cbn [app].
    rewrite rdJson_map_object_text by assumption.
    rewrite (assign_all_sorted HL arr []) by exact Hs. reflexivity.
Qed.
End MapRoundtrip.

(** *** The [bool] overloads *)

Lemma wr_lawful_bool : wr_lawful JsonWr_bool (fun _ => 5%N).
Proof.
  split.
  - reflexivity.
  - intros s v. reflexivity.
  - intros [|]; simpl; lia.
Qed.

Lemma roundtrips_bool :
  roundtrips JsonWr_bool JsonRd_bool (fun _ => True).
Proof.
  split.
  - intros [|] _; reflexivity.
  - intros [|] rest prior _ _; reflexivity.
Qed.

Lemma less_lawful_bool : less_lawful Less_bool.
Proof.
  split.
  - intros [|]; reflexivity.
  - intros [|] [|] [|]; simpl; congruence.
  - intros [|] [|]; simpl; congruence.
Qed.

(** *** Every shape *)

Section ShapeLaws.
Variable prim : Type.
Variable prim_type : prim -> Type.
Context {prim_wr : forall p, JsonWr (prim_type p)}.
Context {prim_rd : forall p, JsonRd (prim_type p)}.
Context {prim_less : forall p, Less (prim_type p)}.
Variable prim_est : forall p, prim_type p -> N.
Hypothesis prim_wr_lawful : forall p, wr_lawful (prim_wr p) (prim_est p).
Hypothesis prim_roundtrips :
  forall p, roundtrips (prim_wr p) (prim_rd p) (fun _ => True).
Hypothesis prim_less_lawful : forall p, less_lawful (prim_less p).

Lemma shape_wr_lawful (a : shape prim) :
  wr_lawful (shape_wr a) (shape_est prim_est a).
Proof.
  induction a as [p|a IH|a IH|k a IH]; cbn [shape_wr shape_est].
  - apply prim_wr_lawful.
  - apply wr_lawful_shared_ptr, IH.
  - apply wr_lawful_vector, IH.
  - apply wr_lawful_map; [apply prim_wr_lawful | apply IH].
Qed.

Lemma shape_roundtrips (a : shape prim) :
  forall R : JsonRd (value prim_type a),
    shape_rd a = Some R -> roundtrips (shape_wr a) R (shape_valid a).
Proof.
  induction a as [p|a IH|a IH|k a IH]; intros R HR; cbn [shape_rd] in HR.
  - injection HR as <-. apply prim_roundtrips.
  - discriminate.
  - destruct (shape_rd a) as [Ra|]; [|discriminate]. injection HR as <-.
    cbn [shape_wr shape_valid].
    apply (roundtrips_vector (shape_est prim_est a)); [apply shape_wr_lawful|].
    apply IH. reflexivity.
  - destruct (shape_rd a) as [Ra|]; [|discriminate]. injection HR as <-.
    cbn [shape_wr shape_valid].
    apply (roundtrips_map (prim_est k) (shape_est prim_est a)).
    + apply prim_wr_lawful.
    + apply shape_wr_lawful.
    + apply prim_roundtrips.
    + apply IH. reflexivity.
    + apply prim_less_lawful.
Qed.

Lemma asJson_fits (a : shape prim) (v : value prim_type a) :
  (shape_est prim_est a v < size_max)%N ->
  @wrJsonSize _ (shape_wr a) 0%N v = shape_est prim_est a v /\
  @asJson _ (shape_wr a) v = Some (@wrJson _ (shape_wr a) [] v).
Proof.
  intros Hfit.
  assert (Hsize : @wrJsonSize _ (shape_wr a) 0%N v = shape_est prim_est a v).
  { rewrite (wrJsonSize_est (shape_wr_lawful a)). cbn [N.add].
    apply N.mod_small. exact Hfit. }
  split; [exact Hsize|].
  unfold asJson. rewrite Hsize.
  pose proof (wrJson_within (shape_wr_lawful a) v) as Hle.
  apply N.leb_le in Hle. rewrite Hle. reflexivity.
Qed.
End ShapeLaws.

(** *** What a reader leaves in its destination *)

Lemma rdJson_vector_loop_elements {T : Type} `{JsonRd T} (fuel : nat) :
  forall (s : cursor) (arr : list T),
    rdJson_vector_loop fuel s arr =
    match rdJson_vector_elements fuel s with
    | Some (ok, s', elems) => Some (ok, s', arr ++ elems)
    | None => None
    end.
Proof.
  induction fuel as [|fuel IH]; intros s arr; [reflexivity|].
  rewrite rdJson_vector_loop_S. cbn [rdJson_vector_elements]. cbv zeta.
  destruct (peek (jsonSkipSpace s) =? "]")%char.
  { rewrite app_nil_r. reflexivity. }
  destruct (rdJson (jsonSkipSpace s) jsonDefault) as [[[[|] s1] tmp]|];
    [| rewrite app_nil_r; reflexivity | reflexivity].
  destruct (peek (jsonSkipSpace s1) =? ",")%char.
  - rewrite IH.
    destruct (rdJson_vector_elements fuel (advance (jsonSkipSpace s1)))
      as [[[ok s2] elems]|]; [|reflexivity].
    rewrite <- app_assoc. reflexivity.
  - destruct (peek (jsonSkipSpace s1) =? "]")%char; reflexivity.
Qed.

Lemma rdJson_vector_success {T : Type} `{JsonRd T} (s : cursor)
  (prior : list T) (s' : cursor) (arr : list T) :
  rdJson_vector s prior = Some (true, s', arr) ->
  array_elements s = Some (true, s', arr).
Proof.
  unfold rdJson_vector, array_elements.
  destruct (peek (jsonSkipSpace s) =? "[")%char; cbn [negb]; [|discriminate].
  cbv zeta. rewrite rdJson_vector_loop_elements.
  destruct (rdJson_vector_elements _ _) as [[[ok s2] elems]|]; [|discriminate].
  cbn [app]. auto.
Qed.

Lemma rdJson_vector_prior {T : Type} `{JsonRd T} (s : cursor)
  (prior prior' : list T) (s' : cursor) (arr : list T) :
  rdJson_vector s prior = Some (true, s', arr) ->
  rdJson_vector s prior' = Some (true, s', arr).
Proof.
  unfold rdJson_vector.
  destruct (peek (jsonSkipSpace s) =? "[")%char; cbn [negb]; [|discriminate].
  auto.
Qed.

Section MembersLemmas.
Context {KT VT : Type} {L : Less KT} {RK : JsonRd KT} {RV : JsonRd VT}.

Lemma rdJson_map_loop_members (fuel : nat) :
  forall (s : cursor) (arr : std_map KT VT),
    rdJson_map_loop fuel s arr =
    match rdJson_map_members fuel s with
    | Some (ok, s', members) => Some (ok, s', assign_all arr members)
    | None => None
    end.
Proof.
  induction fuel as [|fuel IH]; intros s arr; [reflexivity|].
  rewrite rdJson_map_loop_S. cbn [rdJson_map_members]. cbv zeta.
  destruct (peek (jsonSkipSpace s) =? "}")%char; [reflexivity|].
  destruct (rdJson (jsonSkipSpace s) jsonDefault) as [[[[|] s1] ktmp]|];
    [| reflexivity | reflexivity].
  destruct (negb (peek (jsonSkipSpace s1) =? ":")%char); [reflexivity|].
  destruct (rdJson (jsonSkipSpace (advance (jsonSkipSpace s1))) jsonDefault)
    as [[[[|] s2] vtmp]|]; [| reflexivity | reflexivity].
  destruct (peek (jsonSkipSpace s2) =? ",")%char.
  - rewrite IH.
    destruct (rdJson_map_members fuel (advance (jsonSkipSpace s2)))
      as [[[ok s3] members]|]; reflexivity.
  - destruct (peek (jsonSkipSpace s2) =? "}")%char; reflexivity.
Qed.

Lemma rdJson_map_success (s : cursor) (prior : std_map KT VT) (s' : cursor)
  (arr : std_map KT VT) :
  rdJson_map s prior = Some (true, s', arr) ->
  exists members,
    object_members s = Some (true, s', members) /\
    arr = assign_all [] members.
Proof.
  unfold rdJson_map, object_members.
  destruct (peek (jsonSkipSpace s) =? "{")%char; cbn [negb]; [|discriminate].
  cbv zeta. rewrite rdJson_map_loop_members.
  destruct (rdJson_map_members _ _) as [[[ok s2] members]|]; [|discriminate].
  intros E. injection E as -> -> <-. exists members. auto.
Qed.

Lemma rdJson_map_prior (s : cursor) (prior prior' : std_map KT VT)
  (s' : cursor) (arr : std_map KT VT) :
  rdJson_map s prior = Some (true, s', arr) ->
  rdJson_map s prior' = Some (true, s', arr).
Proof.
  unfold rdJson_map.
  destruct (peek (jsonSkipSpace s) =? "{")%char; cbn [negb]; [|discriminate].
  auto.
Qed.
End MembersLemmas.


(** *** The readers return: the fuel of their loops is enough *)

Lemma jsonSkipSpace_length (s : cursor) : length (jsonSkipSpace s) <= length s.
Proof.
  induction s as [|c s IH]; [reflexivity|].
  cbn [jsonSkipSpace]. destruct (isJsonSpace c); cbn [length]; lia.
Qed.

Lemma advance_length (s : cursor) : length (advance s) <= length s.
Proof. destruct s; cbn; lia. Qed.

Lemma peek_advance_length (s : cursor) (c : ascii) :
  (peek s =? c)%char = true -> c <> zero ->
  length (advance s) < length s.
Proof.
  intros Hpeek Hc. destruct s as [|d s]; [|cbn [advance tl length]; lia].
  unfold peek in Hpeek. apply Ascii.eqb_eq in Hpeek. congruence.
Qed.

Lemma jsonMatch_length (pattern : text) :
  forall s s', jsonMatch s pattern = Some s' -> length s' <= length s.
Proof.
  induction pattern as [|c pattern IH]; intros s s' Hm; cbn [jsonMatch] in Hm.
  - injection Hm as <-. lia.
  - destruct s as [|d s]; [discriminate|].
    destruct (c =? d)%char; [|discriminate].
    apply IH in Hm. cbn [length]. lia.
Qed.

Lemma rd_returns_bool : rd_returns JsonRd_bool.
Proof.
  intros s prior. cbn [rdJson JsonRd_bool]. unfold rdJson_bool.
  pose proof (jsonSkipSpace_length s) as Hskip.
  destruct (jsonMatch (jsonSkipSpace s) (lit "true")) as [s1|] eqn:E1.
  - apply jsonMatch_length in E1. eexists _, _, _. split; [reflexivity|lia].
  - destruct (jsonMatch (jsonSkipSpace s) (lit "false")) as [s2|] eqn:E2.
    + apply jsonMatch_length in E2. eexists _, _, _. split; [reflexivity|lia].
    + eexists _, _, _. split; [reflexivity|lia].
Qed.

Section VectorReturns.
Context {T : Type} {R : JsonRd T}.
Hypothesis HR : rd_returns R.

Lemma rdJson_vector_loop_returns (fuel : nat) :
  forall (s : cursor) (arr : list T),
    length s < fuel ->
    exists ok s' arr',
      rdJson_vector_loop fuel s arr = Some (ok, s', arr') /\
      length s' <= length s.
Proof.
  induction fuel as [|fuel IH]; intros s arr Hfuel; [lia|].
  rewrite rdJson_vector_loop_S. cbv zeta.
  pose proof (jsonSkipSpace_length s) as Hs0.
  pose proof (advance_length (jsonSkipSpace s)) as Ha0.
  destruct (peek (jsonSkipSpace s) =? "]")%char.
  { eexists _, _, _. split; [reflexivity|lia]. }
  destruct (HR (jsonSkipSpace s) jsonDefault) as (ok & s1 & v & -> & Hs1).
  destruct ok; [|eexists _, _, _; split; [reflexivity|lia]].
  pose proof (jsonSkipSpace_length s1) as Hs2.
  pose proof (advance_length (jsonSkipSpace s1)) as Ha2.
  destruct (peek (jsonSkipSpace s1) =? ",")%char eqn:Hcomma.
  - apply peek_advance_length in Hcomma; [|discriminate].
    destruct (IH (advance (jsonSkipSpace s1)) (arr ++ [v]))
      as (ok & s' & arr' & -> & Hs'); [lia|].
    eexists _, _, _. split; [reflexivity|lia].
  - destruct (peek (jsonSkipSpace s1) =? "]")%char;
      eexists _, _, _; (split; [reflexivity|lia]).
Qed.

Lemma rd_returns_vector : rd_returns (@JsonRd_vector T R).
Proof.
  intros s prior. cbn [rdJson JsonRd_vector]. unfold rdJson_vector.
  pose proof (jsonSkipSpace_length s) as Hs0.
  pose proof (advance_length (jsonSkipSpace s)) as Ha0.
  destruct (peek (jsonSkipSpace s) =? "[")%char; cbn [negb].
  - cbv zeta.
    destruct (rdJson_vector_loop_returns
                (S (length (advance (jsonSkipSpace s))))
                (advance (jsonSkipSpace s)) [])
      as (ok & s' & arr' & -> & Hs'); [lia|].
    eexists _, _, _. split; [reflexivity|lia].
  - eexists _, _, _. split; [reflexivity|lia].
Qed.
End VectorReturns.

Section MapReturns.
Context {KT VT : Type} {L : Less KT} {RK : JsonRd KT} {RV : JsonRd VT}.
Hypothesis HRK : rd_returns RK.
Hypothesis HRV : rd_returns RV.

Lemma rdJson_map_loop_returns (fuel : nat) :
  forall (s : cursor) (arr : std_map KT VT),
    length s < fuel ->
    exists ok s' arr',
      rdJson_map_loop fuel s arr = Some (ok, s', arr') /\
      length s' <= length s.
Proof.
  induction fuel as [|fuel IH]; intros s arr Hfuel; [lia|].
  rewrite rdJson_map_loop_S. cbv zeta.
  pose proof (jsonSkipSpace_length s) as Hs0.
  pose proof (advance_length (jsonSkipSpace s)) as Ha0.
  destruct (peek (jsonSkipSpace s) =? "}")%char.
  { eexists _, _, _. split; [reflexivity|lia]. }
  destruct (HRK (jsonSkipSpace s) jsonDefault) as (ok & s1 & k & -> & Hs1).
  destruct ok; [|eexists _, _, _; split; [reflexivity|lia]].
  pose proof (jsonSkipSpace_length s1) as Hs2.
  pose proof (advance_length (jsonSkipSpace s1)) as Ha2.
  destruct (peek (jsonSkipSpace s1) =? ":")%char; cbn [negb];
    [|eexists _, _, _; split; [reflexivity|lia]].
  pose proof (jsonSkipSpace_length (advance (jsonSkipSpace s1))) as Hs3.
  destruct (HRV (jsonSkipSpace (advance (jsonSkipSpace s1))) jsonDefault)
    as (ok & s2 & v & -> & Hs4).
  destruct ok; [|eexists _, _, _; split; [reflexivity|lia]].
  pose proof (jsonSkipSpace_length s2) as Hs5.
  pose proof (advance_length (jsonSkipSpace s2)) as Ha5.
  destruct (peek (jsonSkipSpace s2) =? ",")%char eqn:Hcomma.
  - apply peek_advance_length in Hcomma; [|discriminate].
    destruct (IH (advance (jsonSkipSpace s2)) (map_assign arr k v))
      as (ok & s' & arr' & -> & Hs'); [lia|].
    eexists _, _, _. split; [reflexivity|lia].
  - destruct (peek (jsonSkipSpace s2) =? "}")%char;
      eexists _, _, _; (split; [reflexivity|lia]).
Qed.

Lemma rd_returns_map : rd_returns (@JsonRd_map KT VT L RK RV).
Proof.
  intros s prior. cbn [rdJson JsonRd_map]. unfold rdJson_map.
  pose proof (jsonSkipSpace_length s) as Hs0.
  pose proof (advance_length (jsonSkipSpace s)) as Ha0.
  destruct (peek (jsonSkipSpace s) =? "{")%char; cbn [negb].
  - cbv zeta.
    destruct (rdJson_map_loop_returns
                (S (length (advance (jsonSkipSpace s))))
                (advance (jsonSkipSpace s)) [])
      as (ok & s' & arr' & -> & Hs'); [lia|].
    eexists _, _, _. split; [reflexivity|lia].
  - eexists _, _, _. split; [reflexivity|lia].
Qed.
End MapReturns.

(** Every reader that overload resolution finds returns, provided the
    primitive readers do. *)
Lemma rd_returns_shape (prim : Type) (prim_type : prim -> Type)
  (prim_rd : forall p, JsonRd (prim_type p))
  (prim_less : forall p, Less (prim_type p))
  (Hprim : forall p, rd_returns (prim_rd p)) (a : shape prim) :
  forall R : JsonRd (value prim_type a),
    shape_rd a = Some R -> rd_returns R.
Proof.
  induction a as [p|a IH|a IH|k a IH]; intros R HR; cbn [shape_rd] in HR.
  - injection HR as <-. apply Hprim.
  - discriminate.
  - destruct (shape_rd a) as [Ra|]; [|discriminate]. injection HR as <-.
    apply rd_returns_vector. apply IH. reflexivity.
  - destruct (shape_rd a) as [Ra|]; [|discriminate]. injection HR as <-.
    apply rd_returns_map; [apply Hprim | apply IH; reflexivity].
Qed.

(** Overload resolution finds no reader for [shared_ptr<T>], nor for a vector
    of them. *)
Remark shared_ptr_has_no_reader (prim : Type) (prim_type : prim -> Type)
  (prim_rd : forall p, JsonRd (prim_type p))
  (prim_less : forall p, Less (prim_type p)) (a : shape prim) :
  @shape_rd prim prim_type prim_rd prim_less (SharedPtr a) = None /\
  @shape_rd prim prim_type prim_rd prim_less (Vector (SharedPtr a)) = None.
Proof. split; reflexivity. Qed.

(** * Properties of the transport *)

(** ** The scanning loop of [rxWork] *)

Lemma split_records_app (a b : text) :
  forall (cur : text) (q : list text),
    split_records cur q (a ++ b) =
    let (cur', q') := split_records cur q a in split_records cur' q' b.
Proof.
  induction a as [|c a IH]; intros cur q; cbn [app split_records].
  - reflexivity.
  - destruct (c =? newline)%char; apply IH.
Qed.

Lemma memchr_None (p : text) :
  forall (cur : text) (q : list text),
    memchr p newline = None ->
    split_records cur q p = (cur ++ p, q) /\ has_newline p = false.
Proof.
  induction p as [|c p IH]; intros cur q Hm; cbn [memchr] in Hm.
  - cbn. rewrite app_nil_r. auto.
  - cbn [split_records has_newline existsb].
    destruct (c =? newline)%char; [discriminate|].
    destruct (memchr p newline) eqn:E; [discriminate|].
    destruct (IH (cur ++ [c]) q eq_refl) as [-> Hn].
    rewrite <- app_assoc. split; [reflexivity|exact Hn].
Qed.

Lemma memchr_Some (p : text) :
  forall (cur : text) (q : list text) (i : nat),
    memchr p newline = Some i ->
    split_records cur q p =
    split_records [] (q ++ [cur ++ firstn i p]) (skipn (S i) p)
    /\ has_newline p = true.
Proof.
  induction p as [|c p IH]; intros cur q i Hm; cbn [memchr] in Hm.
  - discriminate.
  - cbn [split_records has_newline existsb].
    destruct (c =? newline)%char.
    + injection Hm as <-. cbn. rewrite app_nil_r. auto.
    + destruct (memchr p newline) as [j|] eqn:E; [|discriminate].
      injection Hm as <-. cbn [firstn skipn orb].
      destruct (IH (cur ++ [c]) q j eq_refl) as [-> Hn].
      rewrite <- app_assoc. split; [reflexivity|exact Hn].
Qed.

Lemma framed_nil (o : jsonpipe) : framed [] o = o.
Proof. destruct o. reflexivity. Qed.

Lemma framed_app (a b : text) (o : jsonpipe) :
  framed (a ++ b) o = framed b (framed a o).
Proof.
  unfold framed. rewrite split_records_app.
  destruct (split_records (rxCur o) (rxQ o) a) as [cur q]. reflexivity.
Qed.

Lemma framed_rxFd (p : text) (o : jsonpipe) : rxFd (framed p o) = rxFd o.
Proof.
  unfold framed. destruct (split_records (rxCur o) (rxQ o) p). reflexivity.
Qed.

Lemma has_newline_app (a b : text) :
  has_newline (a ++ b) = has_newline a || has_newline b.
Proof. apply existsb_app. Qed.

(** With the mutex held, the scanning loop leaves the object [framed] and
    reports whether a record was completed. *)
Lemma rxWork_scan_cons (c : ascii) (p' : text) (rxActivity : bool) :
  rxWork_scan (c :: p') rxActivity =
  match memchr (c :: p') newline with
  | None =>
      cur <- get F_rxCur ;;
      set F_rxCur (cur ++ c :: p') ;;
      ret rxActivity
  | Some q =>
      cur <- get F_rxCur ;;
      (if negb (length cur =? 0) then
         cur <- get F_rxCur ;;
         set F_rxCur (cur ++ firstn q (c :: p')) ;;
         cur <- get F_rxCur ;;
         rxq <- get F_rxQ ;;
         set F_rxQ (rxq ++ [cur]) ;;
         set F_rxCur []
       else
         rxq <- get F_rxQ ;;
         set F_rxQ (rxq ++ [firstn q (c :: p')])) ;;
      rxWork_scan (skipn (S q) (c :: p')) true
  end.
Proof. simp rxWork_scan. reflexivity. Qed.

(** ** Running the methods with the mutex held *)

Section Run.
Context {A B : Type}.

Lemma bind_ret (a : A) (k : A -> M B) (w : world) : bind (ret a) k w = k a w.
Proof. reflexivity. Qed.

Lemma bind_assoc {C : Type} (m : M A) (k : A -> M B) (k' : B -> M C)
  (w : world) :
  bind (bind m k) k' w = bind m (fun a => bind (k a) k') w.
Proof. unfold bind. destruct (m w) as [[a| | |] w']; reflexivity. Qed.

Lemma bind_get_locked (f : field A) (k : A -> M B) (o : jsonpipe) (n : nat)
  (rs : list read_result) (ts : list send_result) (tr : list event)
  (u : list field_name) :
  bind (get f) k (mk_world o true n rs ts tr u)
  = k (load f o) (mk_world o true n rs ts tr u).
Proof. reflexivity. Qed.

Lemma bind_set_locked (f : field A) (x : A) (k : unit -> M B) (o : jsonpipe)
  (n : nat) (rs : list read_result) (ts : list send_result) (tr : list event)
  (u : list field_name) :
  bind (set f x) k (mk_world o true n rs ts tr u)
  = k tt (mk_world (store f x o) true n rs ts tr u).
Proof. reflexivity. Qed.

Lemma bind_emit (e : event) (k : unit -> M B) (o : jsonpipe) (m : bool)
  (n : nat) (rs : list read_result) (ts : list send_result) (tr : list event)
  (u : list field_name) :
  bind (emit e) k (mk_world o m n rs ts tr u)
  = k tt (mk_world o m n rs ts (tr ++ [e]) u).
Proof. reflexivity. Qed.

Lemma set_locked (f : field A) (x : A) (o : jsonpipe) (n : nat)
  (rs : list read_result) (ts : list send_result) (tr : list event)
  (u : list field_name) :
  set f x (mk_world o true n rs ts tr u)
  = (Done tt, mk_world (store f x o) true n rs ts tr u).
Proof. reflexivity. Qed.

Lemma get_locked (f : field A) (o : jsonpipe) (n : nat)
  (rs : list read_result) (ts : list send_result) (tr : list event)
  (u : list field_name) :
  get f (mk_world o true n rs ts tr u)
  = (Done (load f o), mk_world o true n rs ts tr u).
Proof. reflexivity. Qed.
End Run.

Lemma emit_run (e : event) (o : jsonpipe) (m : bool) (n : nat)
  (rs : list read_result) (ts : list send_result) (tr : list event)
  (u : list field_name) :
  emit e (mk_world o m n rs ts tr u)
  = (Done tt, mk_world o m n rs ts (tr ++ [e]) u).
Proof. reflexivity. Qed.

Lemma ret_run {A : Type} (a : A) (w : world) : ret a w = (Done a, w).
Proof. reflexivity. Qed.

Create Rewrite HintDb pipe.

#[local] Hint Rewrite @bind_ret @bind_assoc @bind_get_locked @bind_set_locked
  @bind_emit @set_locked @get_locked @emit_run @ret_run : pipe.

(** One step after the other, the fields of the object being known. *)
Ltac run_pipe :=
  repeat (progress
    (autorewrite with pipe; cbv beta;
     cbn [load store txFd rxFd txEofFlag txCur txQ rxCur rxQ
          length Nat.eqb negb andb])).

Lemma rxWork_scan_locked (p : text) :
  forall (rxActivity : bool) (o : jsonpipe) (n : nat) (rs : list read_result)
         (ts : list send_result) (tr : list event) (u : list field_name),
    rxWork_scan p rxActivity (mk_world o true n rs ts tr u) =
    (Done (rxActivity || has_newline p),
     mk_world (framed p o) true n rs ts tr u).
Proof.
  induction p as [p IH] using (induction_ltof1 _ (@length ascii)).
  unfold ltof in IH.
  intros rxActivity o n rs ts tr u. destruct p as [|c p'].
  - simp rxWork_scan. unfold ret. rewrite orb_false_r, framed_nil. reflexivity.
  - rewrite rxWork_scan_cons.
    destruct o as [tfd rfd eof tcur tq cur q].
    destruct (memchr (c :: p') newline) as [i|] eqn:Hm.
    + destruct (memchr_Some (c :: p') cur q i Hm) as [Hs Hn].
      rewrite Hn, orb_true_r.
      unfold framed at 1. cbn [rxCur rxQ]. rewrite Hs.
      assert (Hlt : length (skipn (S i) (c :: p')) < length (c :: p')).
      { cbn [skipn length]. pose proof (length_skipn i p'). lia. }
      destruct cur as [|c0 cur]; run_pipe; rewrite (IH _ Hlt);
        unfold framed; cbn [rxCur rxQ];
        destruct (split_records [] _ (skipn (S i) (c :: p'))); reflexivity.
    + destruct (memchr_None (c :: p') cur q Hm) as [Hs Hn].
      rewrite Hn, orb_false_r. unfold framed. cbn [rxCur rxQ]. rewrite Hs.
      run_pipe. reflexivity.
Qed.

Lemma feed_chunks_locked (chunks : list text) :
  forall (rxActivity : bool) (o : jsonpipe) (n : nat) (rs : list read_result)
         (ts : list send_result) (tr : list event) (u : list field_name),
    feed_chunks chunks rxActivity (mk_world o true n rs ts tr u) =
    (Done (rxActivity || has_newline (concat chunks)),
     mk_world (framed (concat chunks) o) true n rs ts tr u).
Proof.
  induction chunks as [|chunk chunks IH]; intros rxActivity o n rs ts tr u.
  - cbn [feed_chunks concat]. unfold ret.
    rewrite orb_false_r, framed_nil. reflexivity.
  - cbn [feed_chunks concat]. unfold bind.
    rewrite rxWork_scan_locked, IH, framed_app, has_newline_app, orb_assoc.
    reflexivity.
Qed.

(** ** The system calls and the closing of a direction *)

Section RunSys.
Context {B : Type}.
Variables (o : jsonpipe) (m : bool) (n : nat).
Variables (rs : list read_result) (ts : list send_result).
Variables (tr : list event) (u : list field_name).

Lemma bind_sys_read (fd : Z) (r : read_result) (k : read_result -> M B) :
  (0 <= fd)%Z ->
  bind (sys_read fd) k (mk_world o m n (r :: rs) ts tr u)
  = k r (mk_world o m n rs ts (tr ++ [EvRead fd r]) u).
Proof.
  intros Hfd. apply Z.ltb_ge in Hfd. unfold bind, sys_read. rewrite Hfd.
  reflexivity.
Qed.

Lemma bind_sys_read_empty (fd : Z) (k : read_result -> M B) :
  (0 <= fd)%Z ->
  bind (sys_read fd) k (mk_world o m n [] ts tr u)
  = k (ReadErr EAGAIN)
      (mk_world o m n [] ts (tr ++ [EvRead fd (ReadErr EAGAIN)]) u).
Proof.
  intros Hfd. apply Z.ltb_ge in Hfd. unfold bind, sys_read. rewrite Hfd.
  reflexivity.
Qed.

Lemma bind_sys_send (fd : Z) (data : text) (k : send_result -> M B) :
  (0 <= fd)%Z ->
  bind (sys_send fd data) k (mk_world o m n rs ts tr u)
  = k (next_send ts)
      (mk_world o m n rs (tl ts) (tr ++ [EvSend fd data (next_send ts)]) u).
Proof.
  intros Hfd. apply Z.ltb_ge in Hfd. unfold bind, sys_send. rewrite Hfd.
  destruct ts; reflexivity.
Qed.
End RunSys.

(** The event by which a direction gives up its descriptor: a half-close
    when the other direction uses the same descriptor, a close otherwise. *)
Lemma closeRx_locked (o : jsonpipe) (n : nat) (rs : list read_result)
  (ts : list send_result) (tr : list event) (u : list field_name) :
  (0 <= rxFd o)%Z ->
  closeRx (mk_world o true n rs ts tr u) =
  (Done tt,
   mk_world (store F_rxFd (-1)%Z o) true n rs ts
     (tr ++ [if (rxFd o =? txFd o)%Z then EvShutdown (rxFd o) SHUT_RD
             else EvClose (rxFd o)]) u).
Proof.
  intros Hfd. destruct o as [tfd rfd eof tcur tq cur q]. cbn [rxFd txFd] in *.
  assert (H1 : (rfd =? -1)%Z = false) by (apply Z.eqb_neq; lia).
  unfold closeRx. run_pipe. rewrite H1. run_pipe.
  destruct (rfd =? tfd)%Z; run_pipe; reflexivity.
Qed.

Lemma closeRx_closed (o : jsonpipe) (n : nat) (rs : list read_result)
  (ts : list send_result) (tr : list event) (u : list field_name) :
  rxFd o = (-1)%Z ->
  closeRx (mk_world o true n rs ts tr u) = (Done tt, mk_world o true n rs ts tr u).
Proof.
  intros Hfd. destruct o as [tfd rfd eof tcur tq cur q]. cbn [rxFd] in Hfd.
  subst rfd. unfold closeRx. run_pipe. reflexivity.
Qed.

Lemma bind_closeRx_locked {B : Type} (k : unit -> M B) (o : jsonpipe)
  (n : nat) (rs : list read_result) (ts : list send_result) (tr : list event)
  (u : list field_name) :
  (0 <= rxFd o)%Z ->
  bind closeRx k (mk_world o true n rs ts tr u) =
  k tt
    (mk_world (store F_rxFd (-1)%Z o) true n rs ts
       (tr ++ [if (rxFd o =? txFd o)%Z then EvShutdown (rxFd o) SHUT_RD
               else EvClose (rxFd o)]) u).
Proof.
  intros Hfd. unfold bind. rewrite closeRx_locked by exact Hfd. reflexivity.
Qed.

(** ** The reading loop of [rxWork] *)

Lemma rxWork_loop_S (fuel : nat) (rxActivity : bool) :
  rxWork_loop (S fuel) rxActivity =
  (fd <- get F_rxFd ;;
   r <- sys_read fd ;;
   match r with
   | ReadErr e =>
       if errno_eqb e EAGAIN then ret rxActivity
       else closeRx ;; ret rxActivity
   | ReadOk buf =>
       if length buf =? 0 then
         cur <- get F_rxCur ;;
         (if negb (length cur =? 0) then emit (EvEprintfNoNewline (length cur))
          else ret tt) ;;
         set F_rxCur [] ;;
         closeRx ;;
         ret rxActivity
       else
         rxActivity <- rxWork_scan buf rxActivity ;;
         rxWork_loop fuel rxActivity
   end).
Proof. reflexivity. Qed.

(** Reading chunk after chunk until the descriptor would block. *)
Lemma rxWork_loop_chunks (chunks : list text) :
  forall (fuel : nat) (rxActivity : bool) (o : jsonpipe) (n : nat)
         (ts : list send_result) (tr : list event) (u : list field_name),
    length chunks < fuel ->
    (0 <= rxFd o)%Z ->
    Forall (fun chunk => chunk <> []) chunks ->
    exists tr',
      rxWork_loop fuel rxActivity
        (mk_world o true n (map ReadOk chunks) ts tr u) =
      (Done (rxActivity || has_newline (concat chunks)),
       mk_world (framed (concat chunks) o) true n [] ts tr' u).
Proof.
  induction chunks as [|chunk chunks IH];
    intros fuel rxActivity o n ts tr u Hfuel Hfd Hne;
    (destruct fuel as [|fuel]; [cbn [length] in Hfuel; lia|]);
    rewrite rxWork_loop_S; cbn [map]; rewrite bind_get_locked; cbn [load].
  - eexists. rewrite bind_sys_read_empty by exact Hfd. cbn [errno_eqb].
    cbn [concat has_newline existsb]. rewrite orb_false_r, framed_nil.
    reflexivity.
  - inversion Hne as [|? ? Hchunk Hne']; subst.
    cbn [length] in Hfuel.
    destruct (IH fuel (rxActivity || has_newline chunk) (framed chunk o) n ts
                (tr ++ [EvRead (rxFd o) (ReadOk chunk)]) u) as [tr' Htr'];
      [lia | rewrite framed_rxFd; exact Hfd | exact Hne' |].
    exists tr'. rewrite bind_sys_read by exact Hfd.
    destruct chunk as [|c chunk]; [congruence|]. cbn [length Nat.eqb].
    unfold bind. rewrite rxWork_scan_locked, Htr'.
    cbn [concat]. rewrite framed_app, has_newline_app, orb_assoc. reflexivity.
Qed.

(** [rxWork] with the mutex held, on a descriptor that delivers [chunks] and
    then would block. *)
Lemma rxWork_chunks (chunks : list text) (o : jsonpipe) (n : nat)
  (ts : list send_result) (tr : list event) (u : list field_name) :
  (0 <= rxFd o)%Z ->
  Forall (fun chunk => chunk <> []) chunks ->
  exists n' tr',
    rxWork (mk_world o true n (map ReadOk chunks) ts tr u) =
    (Done tt, mk_world (framed (concat chunks) o) true n' [] ts tr' u).
Proof.
  intros Hfd Hne. unfold rxWork. cbn [rx_script].
  destruct (rxWork_loop_chunks chunks (S (length (map ReadOk chunks))) false
              o n ts tr u) as [tr' Htr']; auto.
  { rewrite length_map. lia. }
  unfold bind at 1. rewrite Htr'. cbn [orb].
  destruct (has_newline (concat chunks)).
  - eexists _, _. unfold cv_notify_all. rewrite bind_emit. reflexivity.
  - eexists _, _. reflexivity.
Qed.

(** One call of [rxWork] per chunk. *)
Lemma rxWork_each_chunks (chunks : list text) :
  forall (o : jsonpipe) (n : nat) (rs : list read_result)
         (ts : list send_result) (tr : list event) (u : list field_name),
    (0 <= rxFd o)%Z ->
    Forall (fun chunk => chunk <> []) chunks ->
    self (rxWork_each chunks (mk_world o true n rs ts tr u))
    = framed (concat chunks) o.
Proof.
  induction chunks as [|chunk chunks IH]; intros o n rs ts tr u Hfd Hne.
  - cbn [rxWork_each fold_left concat self]. rewrite framed_nil. reflexivity.
  - inversion Hne as [|? ? Hchunk Hne']; subst.
    unfold rxWork_each. cbn [fold_left]. fold (rxWork_each chunks).
    unfold with_rx_script.
    cbn [self mutex0 rxQNonempty rx_script tx_script trace unguarded].
    destruct (rxWork_chunks [chunk] o n ts tr u Hfd) as (n' & tr' & Hrun).
    { constructor; [exact Hchunk | constructor]. }
    cbn [map concat] in Hrun. rewrite app_nil_r in Hrun.
    unfold exec. rewrite Hrun. cbn [snd].
    rewrite IH by (rewrite ?framed_rxFd; assumption).
    cbn [concat]. rewrite framed_app. reflexivity.
Qed.

(** [rxWork] with the mutex held, when the first [read] returns 0 or fails
    with an error other than [EAGAIN]: the direction is closed and nobody is
    notified. *)
Lemma rxWork_eof (o : jsonpipe) (n : nat) (rest : list read_result)
  (ts : list send_result) (tr : list event) (u : list field_name) :
  (0 <= rxFd o)%Z ->
  rxWork (mk_world o true n (ReadOk [] :: rest) ts tr u) =
  (Done tt,
   mk_world (store F_rxFd (-1)%Z (store F_rxCur [] o)) true n rest ts
     (tr ++ [EvRead (rxFd o) (ReadOk [])]
         ++ (if negb (length (rxCur o) =? 0)
             then [EvEprintfNoNewline (length (rxCur o))] else [])
         ++ [if (rxFd o =? txFd o)%Z then EvShutdown (rxFd o) SHUT_RD
             else EvClose (rxFd o)]) u).
Proof.
  intros Hfd. unfold rxWork. cbn [rx_script length]. rewrite rxWork_loop_S.
  rewrite bind_assoc, bind_get_locked. cbn [load].
  rewrite bind_assoc, bind_sys_read by exact Hfd. cbn [length Nat.eqb].
  destruct o as [tfd rfd eof tcur tq cur q]. cbn [rxFd txFd rxCur] in *.
  destruct cur as [|c cur]; run_pipe;
    rewrite bind_closeRx_locked by exact Hfd; run_pipe;
    repeat rewrite <- app_assoc; reflexivity.
Qed.

Lemma rxWork_error (o : jsonpipe) (n : nat) (e : errno_t)
  (rest : list read_result) (ts : list send_result) (tr : list event)
  (u : list field_name) :
  (0 <= rxFd o)%Z ->
  e <> EAGAIN ->
  rxWork (mk_world o true n (ReadErr e :: rest) ts tr u) =
  (Done tt,
   mk_world (store F_rxFd (-1)%Z o) true n rest ts
     (tr ++ [EvRead (rxFd o) (ReadErr e)]
         ++ [if (rxFd o =? txFd o)%Z then EvShutdown (rxFd o) SHUT_RD
             else EvClose (rxFd o)]) u).
Proof.
  intros Hfd He. unfold rxWork. cbn [rx_script length]. rewrite rxWork_loop_S.
  rewrite bind_assoc, bind_get_locked. cbn [load].
  rewrite bind_assoc, bind_sys_read by exact Hfd.
  assert (Hne : errno_eqb e EAGAIN = false) by (destruct e; try reflexivity; congruence).
  rewrite Hne. run_pipe. rewrite bind_closeRx_locked by exact Hfd. run_pipe.
  repeat rewrite <- app_assoc. reflexivity.
Qed.

(** ** The sending loop of [txWork] *)

Lemma txWork_loop_S (fuel : nat) :
  txWork_loop (S fuel) =
  (cur <- get F_txCur ;;
   (if length cur =? 0 then
      q <- get F_txQ ;;
      match q with
      | front :: q' =>
          set F_txCur (front ++ [newline]) ;;
          set F_txQ q'
      | [] => ret tt
      end
    else ret tt) ;;
   cur <- get F_txCur ;;
   if length cur =? 0 then
     eof <- get F_txEofFlag ;;
     if eof then closeTx else ret tt
   else
     fd <- get F_txFd ;;
     r <- sys_send fd cur ;;
     match r with
     | SendErr e =>
         if errno_eqb e EAGAIN then ret tt
         else emit (EvEprintfWrite e) ;; closeTx
     | SendOk nw =>
         if nw <? length cur then
           set F_txCur (skipn nw cur) ;;
           txWork_loop fuel
         else if nw =? length cur then
           set F_txCur [] ;;
           txWork_loop fuel
         else
           throw (write_wrote nw (length cur))
     end).
Proof. reflexivity. Qed.

Section ExtendsTrace.
Context {A B : Type}.

Lemma extends_ret (a : A) : extends_trace (ret a).
Proof. intros w. exists []. cbn. rewrite app_nil_r. reflexivity. Qed.

Lemma extends_throw (what : string) : extends_trace (@throw A what).
Proof. intros w. exists []. cbn. rewrite app_nil_r. reflexivity. Qed.

Lemma extends_out_of_fuel : extends_trace (@out_of_fuel A).
Proof. intros w. exists []. cbn. rewrite app_nil_r. reflexivity. Qed.

Lemma extends_bind (m : M A) (k : A -> M B) :
  extends_trace m -> (forall a, extends_trace (k a)) -> extends_trace (bind m k).
Proof.
  intros Hm Hk w. unfold bind. destruct (Hm w) as [more1 H1].
  destruct (m w) as [[a| | |] w1]; cbn [snd] in *;
    try (exists more1; exact H1).
  destruct (Hk a w1) as [more2 H2]. exists (more1 ++ more2).
  rewrite H2, H1, app_assoc. reflexivity.
Qed.
End ExtendsTrace.

Lemma extends_get {A : Type} (f : field A) : extends_trace (get f).
Proof.
  intros w. exists []. unfold get, touch. cbn [snd].
  destruct (mutex0 w); cbn; rewrite app_nil_r; reflexivity.
Qed.

Lemma extends_set {A : Type} (f : field A) (x : A) : extends_trace (set f x).
Proof.
  intros w. exists []. unfold set, touch. cbn [snd].
  destruct (mutex0 w); cbn; rewrite app_nil_r; reflexivity.
Qed.

Lemma extends_emit (e : event) : extends_trace (emit e).
Proof. intros w. exists [e]. reflexivity. Qed.

Lemma extends_sys_send (fd : Z) (data : text) : extends_trace (sys_send fd data).
Proof.
  intros w. unfold sys_send.
  destruct (fd <? 0)%Z; [eexists; reflexivity|].
  destruct (tx_script w); eexists; reflexivity.
Qed.

Create HintDb extends.

#[local] Hint Resolve extends_ret extends_throw extends_out_of_fuel
  extends_get extends_set extends_emit extends_sys_send : extends.

Ltac extends_step :=
  repeat first
    [ solve [auto with extends]
    | match goal with
      | |- extends_trace (bind _ _) => apply extends_bind; [|intros ?]
      | |- extends_trace (if ?b then _ else _) => destruct b
      | |- extends_trace (match ?x with _ => _ end) => destruct x
      end ].

Lemma extends_closeTx : extends_trace closeTx.
Proof. unfold closeTx. extends_step. Qed.

#[local] Hint Resolve extends_closeTx : extends.

Lemma extends_txWork_loop (fuel : nat) : extends_trace (txWork_loop fuel).
Proof.
  induction fuel as [|fuel IH]; [apply extends_out_of_fuel|].
  rewrite txWork_loop_S. extends_step; exact IH.
Qed.

(** A partial send: the loop goes on with the unsent suffix. *)
Lemma txWork_loop_partial (fuel : nat) (o : jsonpipe) (n : nat)
  (rs : list read_result) (rest : list send_result) (tr : list event)
  (u : list field_name) (nw : nat) :
  (0 <= txFd o)%Z ->
  nw < length (txCur (materialize o)) ->
  txWork_loop (S fuel) (mk_world o true n rs (SendOk nw :: rest) tr u) =
  txWork_loop fuel
    (mk_world
       (store F_txCur (skipn nw (txCur (materialize o))) (materialize o))
       true n rs rest
       (tr ++ [EvSend (txFd o) (txCur (materialize o)) (SendOk nw)]) u).
Proof.
  intros Hfd Hnw. destruct o as [tfd rfd eof cur q rcur rq]. cbn [txFd] in Hfd.
  rewrite txWork_loop_S. unfold materialize in *. cbn [txCur txQ] in *.
  destruct cur as [|c cur]; [destruct q as [|front q]|];
    cbn [store txCur length] in Hnw; try lia.
  - assert (Hlen : (length (front ++ [newline]) =? 0) = false).
    { rewrite length_app, Nat.add_1_r. reflexivity. }
    apply Nat.ltb_lt in Hnw.
    run_pipe. rewrite Hlen. run_pipe.
    rewrite bind_sys_send by exact Hfd. cbn [next_send tl].
    rewrite Hnw. run_pipe. reflexivity.
  - apply Nat.ltb_lt in Hnw. cbn [length] in Hnw.
    run_pipe. rewrite bind_sys_send by exact Hfd. cbn [next_send tl].
    rewrite Hnw. run_pipe. reflexivity.
Qed.

(** With a current record and an open descriptor, the loop starts with a
    [send] of the current record. *)
Lemma txWork_loop_first_send (fuel : nat) (o : jsonpipe) (n : nat)
  (rs : list read_result) (ts : list send_result) (tr : list event)
  (u : list field_name) :
  (0 <= txFd o)%Z ->
  txCur o <> [] ->
  exists more,
    trace (snd (txWork_loop (S fuel) (mk_world o true n rs ts tr u))) =
    tr ++ EvSend (txFd o) (txCur o) (next_send ts) :: more.
Proof.
  intros Hfd Hcur. destruct o as [tfd rfd eof cur q rcur rq].
  cbn [txFd txCur] in *.
  destruct cur as [|c cur]; [congruence|].
  rewrite txWork_loop_S. run_pipe. rewrite bind_sys_send by exact Hfd.
  pose proof (extends_txWork_loop fuel) as Hloop.
  match goal with
  | |- exists more, trace (snd (?m ?w)) = _ =>
      assert (Hm : extends_trace m) by (extends_step; exact Hloop);
      destruct (Hm w) as [more Hmore]; exists more; rewrite Hmore
  end.
  cbn [trace]. rewrite <- app_assoc. reflexivity.
Qed.

(** When the descriptor would block, the loop stops and leaves the object
    alone. *)
Lemma txWork_loop_eagain (fuel : nat) (o : jsonpipe) (n : nat)
  (rs : list read_result) (tr : list event) (u : list field_name) :
  (0 <= txFd o)%Z ->
  txCur o <> [] ->
  txWork_loop (S fuel) (mk_world o true n rs [] tr u) =
  (Done tt,
   mk_world o true n rs []
     (tr ++ [EvSend (txFd o) (txCur o) (SendErr EAGAIN)]) u).
Proof.
  intros Hfd Hcur. destruct o as [tfd rfd eof cur q rcur rq].
  cbn [txFd txCur] in *.
  destruct cur as [|c cur]; [congruence|].
  rewrite txWork_loop_S. run_pipe. rewrite bind_sys_send by exact Hfd.
  reflexivity.
Qed.

(** ** The loops return: their fuel is enough *)

Section RunSysClosed.
Context {B : Type}.
Variables (o : jsonpipe) (m : bool) (n : nat).
Variables (rs : list read_result) (ts : list send_result).
Variables (tr : list event) (u : list field_name).

Lemma bind_sys_read_closed (fd : Z) (k : read_result -> M B) :
  (fd < 0)%Z ->
  bind (sys_read fd) k (mk_world o m n rs ts tr u)
  = k (ReadErr EBADF)
      (mk_world o m n rs ts (tr ++ [EvRead fd (ReadErr EBADF)]) u).
Proof.
  intros Hfd. apply Z.ltb_lt in Hfd. unfold bind, sys_read. rewrite Hfd.
  reflexivity.
Qed.

Lemma bind_sys_send_closed (fd : Z) (data : text) (k : send_result -> M B) :
  (fd < 0)%Z ->
  bind (sys_send fd data) k (mk_world o m n rs ts tr u)
  = k (SendErr EBADF)
      (mk_world o m n rs ts (tr ++ [EvSend fd data (SendErr EBADF)]) u).
Proof.
  intros Hfd. apply Z.ltb_lt in Hfd. unfold bind, sys_send. rewrite Hfd.
  reflexivity.
Qed.
End RunSysClosed.

Lemma closeRx_returns (o : jsonpipe) (n : nat) (rs : list read_result)
  (ts : list send_result) (tr : list event) (u : list field_name) :
  exists o' tr',
    closeRx (mk_world o true n rs ts tr u)
    = (Done tt, mk_world o' true n rs ts tr' u).
Proof.
  destruct o as [tfd rfd eof tcur tq cur q]. unfold closeRx. run_pipe.
  destruct (rfd =? -1)%Z; run_pipe; [eexists _, _; reflexivity|].
  destruct (rfd =? tfd)%Z; run_pipe; eexists _, _; reflexivity.
Qed.

Lemma closeTx_returns (o : jsonpipe) (n : nat) (rs : list read_result)
  (ts : list send_result) (tr : list event) (u : list field_name) :
  exists o' tr',
    closeTx (mk_world o true n rs ts tr u)
    = (Done tt, mk_world o' true n rs ts tr' u).
Proof.
  destruct o as [tfd rfd eof tcur tq cur q]. unfold closeTx. run_pipe.
  destruct (tfd =? -1)%Z; run_pipe; [eexists _, _; reflexivity|].
  destruct (tfd =? rfd)%Z; run_pipe; eexists _, _; reflexivity.
Qed.

Lemma rxWork_loop_returns (rs : list read_result) :
  forall (fuel : nat) (rxActivity : bool) (o : jsonpipe) (n : nat)
         (ts : list send_result) (tr : list event) (u : list field_name),
    length rs < fuel ->
    exists rxActivity' o' rs' tr',
      rxWork_loop fuel rxActivity (mk_world o true n rs ts tr u)
      = (Done rxActivity', mk_world o' true n rs' ts tr' u).
Proof.
  induction rs as [|r rs IH]; intros fuel rxActivity o n ts tr u Hfuel;
    (destruct fuel as [|fuel]; [cbn [length] in Hfuel; lia|]);
    rewrite rxWork_loop_S, bind_get_locked; cbn [load];
    destruct (Z.ltb_spec (rxFd o) 0) as [Hfd|Hfd].
  - rewrite bind_sys_read_closed by exact Hfd. cbn [errno_eqb].
    unfold bind.
    destruct (closeRx_returns o n [] ts
                (tr ++ [EvRead (rxFd o) (ReadErr EBADF)]) u)
      as (o' & tr' & ->).
    eexists _, _, _, _. reflexivity.
  - rewrite bind_sys_read_empty by exact Hfd. cbn [errno_eqb].
    eexists _, _, _, _. reflexivity.
  - rewrite bind_sys_read_closed by exact Hfd. cbn [errno_eqb].
    unfold bind.
    destruct (closeRx_returns o n (r :: rs) ts
                (tr ++ [EvRead (rxFd o) (ReadErr EBADF)]) u)
      as (o' & tr' & ->).
    eexists _, _, _, _. reflexivity.
  - rewrite bind_sys_read by exact Hfd. cbn [length] in Hfuel.
    destruct r as [e|buf].
    + destruct (errno_eqb e EAGAIN); [eexists _, _, _, _; reflexivity|].
      unfold bind.
      destruct (closeRx_returns o n rs ts
                  (tr ++ [EvRead (rxFd o) (ReadErr e)]) u) as (o' & tr' & ->).
      eexists _, _, _, _. reflexivity.
    + destruct buf as [|c buf]; cbn [length Nat.eqb].
      * destruct o as [tfd rfd eof tcur tq cur q].
        destruct cur as [|c0 cur]; run_pipe; unfold bind;
          match goal with
          | |- context [closeRx ?w] =>
              match w with
              | mk_world ?o1 _ ?n1 ?rs1 ?ts1 ?tr1 ?u1 =>
                  destruct (closeRx_returns o1 n1 rs1 ts1 tr1 u1)
                    as (o' & tr' & ->)
              end
          end; eexists _, _, _, _; reflexivity.
      * unfold bind. rewrite rxWork_scan_locked.
        apply IH. lia.
Qed.

(** With the mutex held, [rxWork] returns. *)
Lemma rxWork_returns (o : jsonpipe) (n : nat) (rs : list read_result)
  (ts : list send_result) (tr : list event) (u : list field_name) :
  exists w', rxWork (mk_world o true n rs ts tr u) = (Done tt, w').
Proof.
  unfold rxWork. cbn [rx_script].
  destruct (rxWork_loop_returns rs (S (length rs)) false o n ts tr u)
    as (act & o' & rs' & tr' & Hrun); [lia|].
  unfold bind at 1. rewrite Hrun.
  destruct act; [|eexists; reflexivity].
  unfold cv_notify_all. rewrite bind_emit. eexists. reflexivity.
Qed.

Lemma closeTx_done (o : jsonpipe) (n : nat) (rs : list read_result)
  (ts : list send_result) (tr : list event) (u : list field_name) :
  fst (closeTx (mk_world o true n rs ts tr u)) = Done tt.
Proof.
  destruct (closeTx_returns o n rs ts tr u) as (o' & tr' & ->). reflexivity.
Qed.

(** The step of the loop of [txWork] that sends the current record [cur],
    the loop itself returning on every shorter script. *)
Lemma txWork_send_returns (fuel : nat) (cur : text) (fd : Z) (o : jsonpipe)
  (n : nat) (rs : list read_result) (ts : list send_result) (tr : list event)
  (u : list field_name) :
  (forall ts' o' tr', length ts' < fuel ->
      tx_outcome (fst (txWork_loop fuel (mk_world o' true n rs ts' tr' u)))) ->
  length ts <= fuel ->
  tx_outcome
    (fst ((r <- sys_send fd cur ;;
           match r with
           | SendErr e =>
               if errno_eqb e EAGAIN then ret tt
               else emit (EvEprintfWrite e) ;; closeTx
           | SendOk nw =>
               if nw <? length cur then
                 set F_txCur (skipn nw cur) ;; txWork_loop fuel
               else if nw =? length cur then
                 set F_txCur [] ;; txWork_loop fuel
               else throw (write_wrote nw (length cur))
           end) (mk_world o true n rs ts tr u))).
Proof.
  intros IH Hfuel. destruct (Z.ltb_spec fd 0) as [Hfd|Hfd].
  - rewrite bind_sys_send_closed by exact Hfd. cbn [errno_eqb].
    rewrite bind_emit. left. apply closeTx_done.
  - rewrite bind_sys_send by exact Hfd.
    destruct ts as [|r ts]; cbn [next_send tl]; [left; reflexivity|].
    cbn [length] in Hfuel. destruct r as [e|nw].
    + destruct (errno_eqb e EAGAIN); [left; reflexivity|].
      rewrite bind_emit. left. apply closeTx_done.
    + destruct (nw <? length cur); [rewrite bind_set_locked; apply IH; lia|].
      destruct (nw =? length cur); [rewrite bind_set_locked; apply IH; lia|].
      right. eexists _, _. reflexivity.
Qed.

Lemma txWork_loop_returns (fuel : nat) :
  forall (ts : list send_result) (o : jsonpipe) (n : nat)
         (rs : list read_result) (tr : list event) (u : list field_name),
    length ts < fuel ->
    tx_outcome (fst (txWork_loop fuel (mk_world o true n rs ts tr u))).
Proof.
  induction fuel as [|fuel IH]; intros ts o n rs tr u Hfuel; [lia|].
  assert (IH' : forall ts' o' tr', length ts' < fuel ->
            tx_outcome (fst (txWork_loop fuel (mk_world o' true n rs ts' tr' u))))
    by (intros; apply IH; assumption).
  rewrite txWork_loop_S. destruct o as [tfd rfd eof cur q rcur rq].
  destruct cur as [|c cur]; [destruct q as [|front q]|]; run_pipe.
  - destruct eof; [left; apply closeTx_done | left; reflexivity].
  - replace (length (front ++ [newline]) =? 0) with false
      by (rewrite length_app, Nat.add_1_r; reflexivity).
    run_pipe. apply txWork_send_returns; [exact IH' | lia].
  - apply txWork_send_returns; [exact IH' | lia].
Qed.

(** With the mutex held, [txWork] returns, or throws on a [send] that
    reports more bytes than it was given. *)
Lemma txWork_returns (o : jsonpipe) (n : nat) (rs : list read_result)
  (ts : list send_result) (tr : list event) (u : list field_name) :
  tx_outcome (fst (txWork (mk_world o true n rs ts tr u))).
Proof.
  unfold txWork. cbn [tx_script]. apply txWork_loop_returns. lia.
Qed.

(** ** The lock discipline *)

Section Guarded.
Context {A B : Type}.

Lemma guarded_ret (a : A) : guarded (ret a).
Proof. intros w Hw. auto. Qed.

Lemma guarded_throw (what : string) : guarded (@throw A what).
Proof. intros w Hw. auto. Qed.

Lemma guarded_out_of_fuel : guarded (@out_of_fuel A).
Proof. intros w Hw. auto. Qed.

Lemma guarded_cv_wait : guarded (@cv_wait A).
Proof. intros w Hw. auto. Qed.

Lemma guarded_bind (m : M A) (k : A -> M B) :
  guarded m -> (forall a, guarded (k a)) -> guarded (bind m k).
Proof.
  intros Hm Hk w Hw. unfold bind. destruct (Hm w Hw) as [H1 H2].
  destruct (m w) as [[a| | |] w1]; cbn [snd] in *; auto.
  destruct (Hk a w1 H1) as [H3 H4]. rewrite H4. auto.
Qed.

Lemma guarded_get (f : field A) : guarded (get f).
Proof. intros w Hw. unfold get, touch. rewrite Hw. auto. Qed.

Lemma guarded_set (f : field A) (x : A) : guarded (set f x).
Proof. intros w Hw. unfold set, touch. rewrite Hw. auto. Qed.
End Guarded.

Lemma guarded_emit (e : event) : guarded (emit e).
Proof. intros w Hw. auto. Qed.

Lemma guarded_sys_read (fd : Z) : guarded (sys_read fd).
Proof.
  intros w Hw. unfold sys_read.
  destruct (fd <? 0)%Z; [auto|]. destruct (rx_script w); auto.
Qed.

Lemma guarded_sys_send (fd : Z) (data : text) : guarded (sys_send fd data).
Proof.
  intros w Hw. unfold sys_send.
  destruct (fd <? 0)%Z; [auto|]. destruct (tx_script w); auto.
Qed.

Create HintDb guarded.

#[local] Hint Resolve guarded_ret guarded_throw guarded_out_of_fuel
  guarded_cv_wait guarded_get guarded_set guarded_emit guarded_sys_read
  guarded_sys_send : guarded.

Ltac guarded_step :=
  repeat first
    [ solve [auto with guarded]
    | match goal with
      | |- guarded (bind _ _) => apply guarded_bind; [|intros ?]
      | |- guarded (if ?b then _ else _) => destruct b
      | |- guarded (match ?x with _ => _ end) => destruct x
      end ].

Lemma guarded_cv_notify_all : guarded cv_notify_all.
Proof.
  unfold cv_notify_all. apply guarded_bind; [apply guarded_emit|].
  intros _ w Hw. auto.
Qed.

Lemma guarded_closeRx : guarded closeRx.
Proof. unfold closeRx. guarded_step. Qed.

Lemma guarded_closeTx : guarded closeTx.
Proof. unfold closeTx. guarded_step. Qed.

#[local] Hint Resolve guarded_cv_notify_all guarded_closeRx guarded_closeTx
  : guarded.

Lemma guarded_rxWork_scan (p : text) :
  forall rxActivity : bool, guarded (rxWork_scan p rxActivity).
Proof.
  induction p as [p IH] using (induction_ltof1 _ (@length ascii)).
  unfold ltof in IH. intros rxActivity. destruct p as [|c p'].
  - simp rxWork_scan. apply guarded_ret.
  - rewrite rxWork_scan_cons.
    destruct (memchr (c :: p') newline) as [i|].
    + assert (Hlt : length (skipn (S i) (c :: p')) < length (c :: p')).
      { cbn [skipn length]. pose proof (length_skipn i p'). lia. }
      pose proof (IH _ Hlt true). guarded_step; assumption.
    + guarded_step.
Qed.

Lemma guarded_rxWork_loop (fuel : nat) :
  forall rxActivity : bool, guarded (rxWork_loop fuel rxActivity).
Proof.
  induction fuel as [|fuel IH]; intros rxActivity;
    [apply guarded_out_of_fuel|].
  rewrite rxWork_loop_S. pose proof guarded_rxWork_scan.
  guarded_step; auto.
Qed.

Lemma guarded_rxWork : guarded rxWork.
Proof.
  intros w Hw. unfold rxWork.
  apply (guarded_bind (rxWork_loop (S (length (rx_script w))) false)); auto.
  - apply guarded_rxWork_loop.
  - intros [|]; auto with guarded.
Qed.

Lemma guarded_txWork_loop (fuel : nat) : guarded (txWork_loop fuel).
Proof.
  induction fuel as [|fuel IH]; [apply guarded_out_of_fuel|].
  rewrite txWork_loop_S. guarded_step; exact IH.
Qed.

Lemma guarded_txWork : guarded txWork.
Proof. intros w Hw. unfold txWork. apply guarded_txWork_loop. exact Hw. Qed.

#[local] Hint Resolve guarded_rxWork guarded_txWork : guarded.

(** A method whose body runs under [unique_lock] touches no data member
    without the mutex, whatever the state of the world. *)
Lemma unique_lock_guarded {A : Type} (body : M A) (w : world) :
  guarded body -> unguarded (exec (unique_lock body) w) = unguarded w.
Proof.
  intros Hbody. unfold exec, unique_lock.
  destruct (Hbody (with_mutex0 true w) eq_refl) as [_ Hu].
  destruct (body (with_mutex0 true w)) as [r w']. cbn [snd] in *.
  exact Hu.
Qed.

Lemma methods_hold_the_mutex (w : world) :
  (forall s, unguarded (exec (tx s) w) = unguarded w) /\
  unguarded (exec rxNonblock w) = unguarded w /\
  unguarded (exec rxBlock w) = unguarded w /\
  (forall rfds wfds, unguarded (exec (preSelect rfds wfds) w) = unguarded w) /\
  (forall rfds wfds, unguarded (exec (postSelect rfds wfds) w) = unguarded w) /\
  (forall t r, unguarded (exec (setFds t r) w) = unguarded w).
Proof.
  unfold tx, rxNonblock, rxBlock, preSelect, postSelect, setFds.
  repeat split; intros; apply unique_lock_guarded; guarded_step.
Qed.

(** [txEof] does not take the mutex. *)
Lemma txEof_unguarded (w : world) :
  mutex0 w = false ->
  unguarded (exec txEof w) = unguarded w ++ [N_txEofFlag] /\
  txEofFlag (self (exec txEof w)) = true.
Proof.
  intros Hw. unfold exec, txEof, set, touch. rewrite Hw.
  destruct w as [o m n rs ts tr u]. destruct o. auto.
Qed.


(** * Further lemmas on the codec and the transport *)

(** ** Blanks *)

Lemma jsonSkipSpace_blank_app (blanks : text) (s : cursor) :
  is_blank_text blanks = true ->
  jsonSkipSpace (blanks ++ s) = jsonSkipSpace s.
Proof.
  induction blanks as [|c blanks IH]; intros Hb; [reflexivity|].
  cbn [is_blank_text forallb] in Hb. apply andb_prop in Hb as [Hc Hb].
  cbn [app jsonSkipSpace]. rewrite Hc. apply IH. exact Hb.
Qed.

Lemma jsonSkipSpace_peek (s : cursor) :
  isJsonSpace (peek (jsonSkipSpace s)) = false.
Proof.
  induction s as [|c s IH]; [reflexivity|].
  cbn [jsonSkipSpace]. destruct (isJsonSpace c) eqn:Hc; [exact IH|].
  cbn [peek]. exact Hc.
Qed.

Lemma jsonSkipSpace_fixed (s : cursor) :
  isJsonSpace (peek s) = false -> jsonSkipSpace s = s.
Proof.
  destruct s as [|c s]; [reflexivity|]. cbn [peek jsonSkipSpace].
  intros ->. reflexivity.
Qed.


(** ** Blanks between the tokens of a container text *)

Lemma ends_value_blank_app (blanks : text) (tail : cursor) :
  is_blank_text blanks = true -> delimited tail = true ->
  ends_value (blanks ++ tail) = true.
Proof.
  intros Hb Ht. destruct blanks as [|c blanks].
  - unfold ends_value. cbn [app]. rewrite Ht. reflexivity.
  - cbn [is_blank_text forallb] in Hb. apply andb_prop in Hb as [Hc _].
    unfold ends_value. cbn [app peek]. rewrite Hc. apply orb_true_r.
Qed.

Lemma jsonSkipSpace_blank_token (blanks : text) (c : ascii) (s : cursor) :
  is_blank_text blanks = true -> isJsonSpace c = false ->
  jsonSkipSpace (blanks ++ c :: s) = c :: s.
Proof.
  intros Hb Hc. rewrite jsonSkipSpace_blank_app by exact Hb.
  apply jsonSkipSpace_nonspace. exact Hc.
Qed.

Lemma roundtrips_blank_bool :
  roundtrips_blank JsonWr_bool JsonRd_bool (fun _ => True).
Proof.
  split.
  - intros [|] _; reflexivity.
  - intros [|] rest prior _ _; reflexivity.
Qed.

Section SpacedVector.
Context {T : Type} {W : JsonWr T} {R : JsonRd T} (valid : T -> Prop).
Hypothesis HR : roundtrips_blank W R valid.

Local Abbreviation spaced_valid := (spaced_valid valid).

(** Reading one element with the blanks around it, and what follows. *)
Lemma rdJson_vector_loop_spaced_item (it : spaced T) (tail : cursor)
  (fuel : nat) (acc : list T) :
  spaced_valid it -> delimited tail = true ->
  rdJson_vector_loop (S fuel) (spaced_item it ++ tail) acc =
  let arr := acc ++ [spaced_value it] in
  let s := jsonSkipSpace tail in
  if (peek s =? ",")%char then rdJson_vector_loop fuel (advance s) arr
  else if (peek s =? "]")%char then Some (true, advance s, arr)
  else Some (false, s, arr).
Proof.
  intros [Hok Hx] Htail. destruct it as [bb x ba].
  unfold spaced_ok in Hok. cbn [blanks_before blanks_after] in Hok.
  apply andb_prop in Hok as [Hbb Hba]. cbn [spaced_value] in *.
  unfold spaced_item. cbn [blanks_before blanks_after spaced_value].
  rewrite <- !app_assoc. rewrite rdJson_vector_loop_S. cbv zeta.
  rewrite jsonSkipSpace_blank_app by exact Hbb.
  destruct (starts_value_app (wrJson [] x) (ba ++ tail)
              (wrJson_starts_blank HR x Hx)) as (-> & -> & _).
  rewrite (rdJson_wrJson_blank HR x (ba ++ tail) jsonDefault Hx
             (ends_value_blank_app ba tail Hba Htail)).
  rewrite jsonSkipSpace_blank_app by exact Hba. reflexivity.
Qed.

Lemma spaced_tail_cons (it : spaced T) (items : list (spaced T)) :
  spaced_tail (it :: items) = ","%char :: spaced_item it ++ spaced_tail items.
Proof. reflexivity. Qed.

Lemma spaced_tail_length_ge (items : list (spaced T)) :
  length items <= length (spaced_tail items).
Proof.
  induction items as [|a items IH]; [simpl; lia|].
  rewrite spaced_tail_cons, !length_cons, length_app. lia.
Qed.

Lemma rdJson_vector_loop_spaced (items : list (spaced T)) :
  forall (it : spaced T) (fuel : nat) (acc : list T) (rest : cursor),
    spaced_valid it -> Forall spaced_valid items -> length items < fuel ->
    rdJson_vector_loop fuel
      (spaced_item it ++ spaced_tail items ++ "]"%char :: rest) acc
    = Some (true, rest, acc ++ map spaced_value (it :: items)).
Proof.
  induction items as [|it' items IH]; intros it fuel acc rest Hit Hitems Hfuel;
    (destruct fuel as [|fuel]; [cbn [length] in Hfuel; lia|]);
    cbn [length] in Hfuel.
  - cbn [spaced_tail flat_map app].
    rewrite rdJson_vector_loop_spaced_item by (auto; reflexivity).
    reflexivity.
  - rewrite spaced_tail_cons. cbn [app].
    rewrite rdJson_vector_loop_spaced_item by (auto; reflexivity).
    cbv zeta. cbn [jsonSkipSpace].
    change (isJsonSpace ","%char) with false. cbv iota.
    unfold peek, advance, tl.
    change ((","%char =? ","%char)%char) with true. cbv iota.
    inversion Hitems; subst. rewrite <- app_assoc.
    rewrite IH by (auto; lia). rewrite <- app_assoc. reflexivity.
Qed.

Lemma rdJson_vector_spaced_array (lead inner : text)
  (items : list (spaced T)) (rest : cursor) (prior : list T) :
  is_blank_text lead = true -> is_blank_text inner = true ->
  Forall spaced_valid items ->
  rdJson_vector (spaced_array lead inner items ++ rest) prior
  = Some (true, rest, map spaced_value items).
Proof.
  intros Hlead Hinner Hitems. unfold spaced_array, rdJson_vector.
  rewrite <- app_assoc. cbn [app].
  rewrite jsonSkipSpace_blank_token by (auto; reflexivity).
  unfold peek, advance, tl.
  change (("["%char =? "["%char)%char) with true. cbn [negb]. cbv iota zeta.
  rewrite <- app_assoc. cbn [app].
  destruct items as [|it items].
  - cbn [rdJson_vector_loop map].
    rewrite jsonSkipSpace_blank_token by (auto; reflexivity).
    reflexivity.
  - inversion Hitems; subst. rewrite <- app_assoc.
    rewrite rdJson_vector_loop_spaced; auto.
    rewrite !length_app. pose proof (spaced_tail_length_ge items). lia.
Qed.
End SpacedVector.

Section SpacedMap.
Context {KT VT : Type} {L : Less KT}.
Context {WK : JsonWr KT} {WV : JsonWr VT} {RK : JsonRd KT} {RV : JsonRd VT}.
Context (validK : KT -> Prop) (validV : VT -> Prop).
Hypothesis HRK : roundtrips_blank WK RK validK.
Hypothesis HRV : roundtrips_blank WV RV validV.

Local Abbreviation spaced_member_valid := (spaced_member_valid validK validV).

(** Reading one member with the blanks around its key and its value, and
    what follows. *)
Lemma rdJson_map_loop_spaced_member (m : spaced KT * spaced VT)
  (tail : cursor) (fuel : nat) (acc : std_map KT VT) :
  spaced_member_valid m -> delimited tail = true ->
  rdJson_map_loop (S fuel) (spaced_member m ++ tail) acc =
  let arr := map_assign acc (fst (member_value m)) (snd (member_value m)) in
  let s := jsonSkipSpace tail in
  if (peek s =? ",")%char then rdJson_map_loop fuel (advance s) arr
  else if (peek s =? "}")%char then Some (true, advance s, arr)
  else Some (false, s, arr).
Proof.
  intros [[Hokk Hk] [Hokv Hv]] Htail.
  destruct m as [[kb k ka] [vb v va]].
  unfold spaced_ok in Hokk, Hokv.
  cbn [fst snd blanks_before blanks_after spaced_value] in *.
  apply andb_prop in Hokk as [Hkb Hka]. apply andb_prop in Hokv as [Hvb Hva].
  unfold spaced_member, spaced_item, member_value.
  cbn [fst snd blanks_before blanks_after spaced_value].
  rewrite rdJson_map_loop_S. cbv zeta.
  rewrite <- !app_assoc. cbn [app]. rewrite <- !app_assoc.
  rewrite jsonSkipSpace_blank_app by exact Hkb.
  destruct (starts_value_app (wrJson [] k)
              (ka ++ ":"%char :: vb ++ wrJson [] v ++ va ++ tail)
              (wrJson_starts_blank HRK k Hk)) as (-> & _ & ->).
  rewrite (rdJson_wrJson_blank HRK k
             (ka ++ ":"%char :: vb ++ wrJson [] v ++ va ++ tail) jsonDefault Hk
             (ends_value_blank_app ka
                (":"%char :: vb ++ wrJson [] v ++ va ++ tail) Hka eq_refl)).
  rewrite jsonSkipSpace_blank_token by (auto; reflexivity).
  unfold peek at 1. change ((":"%char =? ":"%char)%char) with true.
  cbn [negb]. cbv iota. unfold advance at 1. cbn [tl].
  rewrite jsonSkipSpace_blank_app by exact Hvb.
  destruct (starts_value_app (wrJson [] v) (va ++ tail)
              (wrJson_starts_blank HRV v Hv)) as (-> & _ & _).
  rewrite (rdJson_wrJson_blank HRV v _ jsonDefault Hv
             (ends_value_blank_app va tail Hva Htail)).
  rewrite jsonSkipSpace_blank_app by exact Hva.
  reflexivity.
Qed.

Lemma spaced_members_tail_cons (m : spaced KT * spaced VT)
  (members : list (spaced KT * spaced VT)) :
  spaced_members_tail (m :: members)
  = ","%char :: spaced_member m ++ spaced_members_tail members.
Proof. reflexivity. Qed.

Lemma spaced_members_tail_length_ge
  (members : list (spaced KT * spaced VT)) :
  length members <= length (spaced_members_tail members).
Proof.
  induction members as [|a members IH]; [simpl; lia|].
  rewrite spaced_members_tail_cons, !length_cons, length_app. lia.
Qed.

Lemma rdJson_map_loop_spaced (members : list (spaced KT * spaced VT)) :
  forall (m : spaced KT * spaced VT) (fuel : nat) (acc : std_map KT VT)
         (rest : cursor),
    spaced_member_valid m -> Forall spaced_member_valid members ->
    length members < fuel ->
    rdJson_map_loop fuel
      (spaced_member m ++ spaced_members_tail members ++ "}"%char :: rest) acc
    = Some (true, rest, assign_all acc (map member_value (m :: members))).
Proof.
  induction members as [|m' members IH]; intros m fuel acc rest Hm Hms Hfuel;
    (destruct fuel as [|fuel]; [cbn [length] in Hfuel; lia|]);
    cbn [length] in Hfuel.
  - cbn [spaced_members_tail flat_map app].
    rewrite rdJson_map_loop_spaced_member by (auto; reflexivity).
    reflexivity.
  - rewrite spaced_members_tail_cons. cbn [app].
    rewrite rdJson_map_loop_spaced_member by (auto; reflexivity).
    cbv zeta. cbn [jsonSkipSpace].
    change (isJsonSpace ","%char) with false. cbv iota.
    unfold peek, advance, tl.
    change ((","%char =? ","%char)%char) with true. cbv iota.
    inversion Hms; subst. rewrite <- app_assoc.
    rewrite IH by (auto; lia). reflexivity.
Qed.

Lemma rdJson_map_spaced_object (lead inner : text)
  (members : list (spaced KT * spaced VT)) (rest : cursor)
  (prior : std_map KT VT) :
  is_blank_text lead = true -> is_blank_text inner = true ->
  Forall spaced_member_valid members ->
  rdJson_map (spaced_object lead inner members ++ rest) prior
  = Some (true, rest, assign_all [] (map member_value members)).
Proof.
  intros Hlead Hinner Hms. unfold spaced_object, rdJson_map.
  rewrite <- app_assoc. cbn [app].
  rewrite jsonSkipSpace_blank_token by (auto; reflexivity).
  unfold peek, advance, tl.
  change (("{"%char =? "{"%char)%char) with true. cbn [negb]. cbv iota zeta.
  rewrite <- app_assoc. cbn [app].
  destruct members as [|m members].
  - cbn [rdJson_map_loop map].
    rewrite jsonSkipSpace_blank_token by (auto; reflexivity).
    reflexivity.
  - inversion Hms; subst. rewrite <- app_assoc.
    rewrite rdJson_map_loop_spaced; auto.
    rewrite !length_app. pose proof (spaced_members_tail_length_ge members).
    lia.
Qed.
End SpacedMap.


(** ** Object texts in general *)

Section JsonObjectLaws.
Context {KT VT : Type} {L : Less KT} {RK : JsonRd KT} {RV : JsonRd VT}.

Local Abbreviation member_ok := (member_ok RK RV).

(** Reading one member, whatever its key and value are written like, and
    what follows. *)
Lemma rdJson_map_loop_token_member (m : token KT * token VT) (tail : cursor)
  (fuel : nat) (acc : std_map KT VT) :
  member_ok m -> delimited tail = true ->
  rdJson_map_loop (S fuel) (member_bytes m ++ tail) acc =
  let arr := map_assign acc (fst (member_of m)) (snd (member_of m)) in
  let s := jsonSkipSpace tail in
  if (peek s =? ",")%char then rdJson_map_loop fuel (advance s) arr
  else if (peek s =? "}")%char then Some (true, advance s, arr)
  else Some (false, s, arr).
Proof.
  intros [(Hkb & Hka & Hks & Hk) (Hvb & Hva & Hvs & Hv)] Htail.
  destruct m as [[kb kt k ka] [vb vt v va]].
  cbn [fst snd token_lead token_text token_value token_trail] in *.
  unfold member_bytes, token_bytes, member_of.
  cbn [fst snd token_lead token_text token_value token_trail].
  rewrite rdJson_map_loop_S. cbv zeta.
  rewrite <- !app_assoc. cbn [app]. rewrite <- !app_assoc.
  rewrite jsonSkipSpace_blank_app by exact Hkb.
  destruct (starts_value_app kt (ka ++ ":"%char :: vb ++ vt ++ va ++ tail) Hks)
    as (-> & _ & ->).
  rewrite (Hk (ka ++ ":"%char :: vb ++ vt ++ va ++ tail) jsonDefault
             (ends_value_blank_app ka (":"%char :: vb ++ vt ++ va ++ tail)
                Hka eq_refl)).
  rewrite jsonSkipSpace_blank_token by (auto; reflexivity).
  unfold peek at 1. change ((":"%char =? ":"%char)%char) with true.
  cbn [negb]. cbv iota. unfold advance at 1. cbn [tl].
  rewrite jsonSkipSpace_blank_app by exact Hvb.
  destruct (starts_value_app vt (va ++ tail) Hvs) as (-> & _ & _).
  rewrite (Hv (va ++ tail) jsonDefault
             (ends_value_blank_app va tail Hva Htail)).
  rewrite jsonSkipSpace_blank_app by exact Hva.
  reflexivity.
Qed.

Lemma members_tail_cons (m : token KT * token VT)
  (members : list (token KT * token VT)) :
  members_tail (m :: members)
  = ","%char :: member_bytes m ++ members_tail members.
Proof. reflexivity. Qed.

Lemma members_tail_length_ge (members : list (token KT * token VT)) :
  length members <= length (members_tail members).
Proof.
  induction members as [|a members IH]; [simpl; lia|].
  rewrite members_tail_cons, !length_cons, length_app. lia.
Qed.

Lemma rdJson_map_loop_tokens (members : list (token KT * token VT)) :
  forall (m : token KT * token VT) (fuel : nat) (acc : std_map KT VT)
         (rest : cursor),
    member_ok m -> Forall member_ok members -> length members < fuel ->
    rdJson_map_loop fuel
      (member_bytes m ++ members_tail members ++ "}"%char :: rest) acc
    = Some (true, rest, assign_all acc (map member_of (m :: members))).
Proof.
  induction members as [|m' members IH]; intros m fuel acc rest Hm Hms Hfuel;
    (destruct fuel as [|fuel]; [cbn [length] in Hfuel; lia|]);
    cbn [length] in Hfuel.
  - cbn [members_tail flat_map app].
    rewrite rdJson_map_loop_token_member by (auto; reflexivity).
    reflexivity.
  - rewrite members_tail_cons. cbn [app].
    rewrite rdJson_map_loop_token_member by (auto; reflexivity).
    cbv zeta. cbn [jsonSkipSpace].
    change (isJsonSpace ","%char) with false. cbv iota.
    unfold peek, advance, tl.
    change ((","%char =? ","%char)%char) with true. cbv iota.
    inversion Hms; subst. rewrite <- app_assoc.
    rewrite IH by (auto; lia). reflexivity.
Qed.

(** Every object text is read as the map that its members build by
    successive assignment. *)
Lemma rdJson_map_json_object (lead inner : text)
  (members : list (token KT * token VT)) (rest : cursor)
  (prior : std_map KT VT) :
  is_blank_text lead = true -> is_blank_text inner = true ->
  Forall member_ok members ->
  rdJson_map (json_object lead inner members ++ rest) prior
  = Some (true, rest, assign_all [] (map member_of members)).
Proof.
  intros Hlead Hinner Hms. unfold json_object, rdJson_map.
  rewrite <- app_assoc. cbn [app].
  rewrite jsonSkipSpace_blank_token by (auto; reflexivity).
  unfold peek, advance, tl.
  change (("{"%char =? "{"%char)%char) with true. cbn [negb]. cbv iota zeta.
  rewrite <- app_assoc. cbn [app].
  destruct members as [|m members].
  - cbn [rdJson_map_loop map].
    rewrite jsonSkipSpace_blank_token by (auto; reflexivity).
    reflexivity.
  - inversion Hms; subst. rewrite <- app_assoc.
    rewrite rdJson_map_loop_tokens; auto.
    rewrite !length_app. pose proof (members_tail_length_ge members).
    lia.
Qed.
End JsonObjectLaws.

Lemma parses_bool (v : bool) :
  parses JsonRd_bool (lit (if v then "true" else "false")) v.
Proof. split; [destruct v; reflexivity|]. intros rest prior _. destruct v; reflexivity. Qed.

(** ** [vector<T *>] *)

Section VectorPtrLaws.
Context {T : Type}.

Lemma deref_new_cell (h : heap T) (d : T) :
  deref (h ++ [d]) (length h) = Some d.
Proof.
  unfold deref. rewrite nth_error_app2 by lia.
  rewrite Nat.sub_diag. reflexivity.
Qed.

Lemma write_cell_new_cell (h : heap T) (d v : T) :
  write_cell (h ++ [d]) (length h) v = h ++ [v].
Proof.
  unfold write_cell.
  rewrite firstn_app, firstn_all, Nat.sub_diag. cbn [firstn].
  rewrite app_nil_r.
  rewrite skipn_all2 by (rewrite length_app; cbn [length]; lia).
  reflexivity.
Qed.

Lemma pointees_app (h : heap T) (a b : list nat) :
  pointees h (a ++ b) =
  match pointees h a, pointees h b with
  | Some va, Some vb => Some (va ++ vb)
  | _, _ => None
  end.
Proof.
  induction a as [|p a IH]; cbn [app pointees].
  - destruct (pointees h b); reflexivity.
  - rewrite IH. destruct (deref h p); [|reflexivity].
    destruct (pointees h a); [|reflexivity].
    destruct (pointees h b); reflexivity.
Qed.

Lemma pointees_seq (h vals rest : list T) :
  pointees (h ++ vals ++ rest) (seq (length h) (length vals)) = Some vals.
Proof.
  revert h. induction vals as [|v vals IH]; intros h; [reflexivity|].
  cbn [length seq pointees app].
  unfold deref. rewrite nth_error_app2 by lia. rewrite Nat.sub_diag.
  cbn [nth_error].
  specialize (IH (h ++ [v])).
  rewrite length_app in IH. cbn [length] in IH.
  rewrite Nat.add_1_r in IH. rewrite <- app_assoc in IH. cbn [app] in IH.
  rewrite IH. reflexivity.
Qed.

Lemma pointees_length (h : heap T) (arr : list nat) (vals : list T) :
  pointees h arr = Some vals -> length vals = length arr.
Proof.
  revert vals. induction arr as [|p arr IH]; intros vals; cbn [pointees].
  - intros E. injection E as <-. reflexivity.
  - destruct (deref h p); [|discriminate].
    destruct (pointees h arr) as [vs|]; [|discriminate].
    intros E. injection E as <-. cbn [length]. rewrite (IH vs); reflexivity.
Qed.

Section Write.
Context `{JsonWr T}.

Lemma wrJsonSize_vector_ptr_loop_pointees (h : heap T) (arr : list nat) :
  forall (vals : list T) (size : N),
    pointees h arr = Some vals ->
    wrJsonSize_vector_ptr_loop h arr size
    = Some (fold_left (fun size it => wrJsonSize size it) vals size).
Proof.
  induction arr as [|p arr IH]; intros vals size; cbn [pointees].
  - intros E. injection E as <-. reflexivity.
  - cbn [wrJsonSize_vector_ptr_loop].
    destruct (deref h p) as [v|]; [|discriminate].
    destruct (pointees h arr) as [vs|]; [|discriminate].
    intros E. injection E as <-. cbn [fold_left]. apply IH. reflexivity.
Qed.

Lemma wrJson_vector_ptr_loop_pointees (h : heap T) (arr : list nat) :
  forall (vals : list T) (st : text * bool),
    pointees h arr = Some vals ->
    wrJson_vector_ptr_loop h arr st
    = Some (fold_left wrJson_vector_step vals st).
Proof.
  induction arr as [|p arr IH]; intros vals st; cbn [pointees].
  - intros E. injection E as <-. reflexivity.
  - cbn [wrJson_vector_ptr_loop].
    destruct (deref h p) as [v|]; [|discriminate].
    destruct (pointees h arr) as [vs|]; [|discriminate].
    intros E. injection E as <-. cbn [fold_left]. apply IH. reflexivity.
Qed.
End Write.

Section Read.
Context `{JsonRd T}.

Lemma rdJson_vector_ptr_loop_S (fuel : nat) (s : cursor) (arr : list nat)
  (h : heap T) :
  rdJson_vector_ptr_loop (S fuel) s arr h =
  let s := jsonSkipSpace s in
  if (peek s =? "]")%char then Some (true, advance s, arr, h)
  else
    match rdJson s jsonDefault with
    | None => None
    | Some (false, s, cell) => Some (false, s, arr, h ++ [cell])
    | Some (true, s, cell) =>
        let h := h ++ [cell] in
        let arr := arr ++ [length h - 1] in
        let s := jsonSkipSpace s in
        if (peek s =? ",")%char then
          rdJson_vector_ptr_loop fuel (advance s) arr h
        else if (peek s =? "]")%char then Some (true, advance s, arr, h)
        else Some (false, s, arr, h)
    end.
Proof.
  cbn [rdJson_vector_ptr_loop]. unfold new_cell. cbv zeta.
  destruct (peek (jsonSkipSpace s) =? "]")%char; [reflexivity|].
  cbv beta iota. rewrite deref_new_cell.
  destruct (rdJson (jsonSkipSpace s) jsonDefault) as [[[ok s'] cell]|];
    [|reflexivity].
  rewrite write_cell_new_cell.
  rewrite length_app. cbn [length].
  replace (length h + 1 - 1) with (length h) by lia.
  reflexivity.
Qed.

(** The loop for [vector<T *>] against the elements that the loop for
    [vector<T>] decodes. *)
Lemma rdJson_vector_ptr_loop_elements (fuel : nat) :
  forall (s : cursor) (arr : list nat) (h : heap T),
    match rdJson_vector_elements fuel s with
    | None => rdJson_vector_ptr_loop fuel s arr h = None
    | Some (ok, s', vals) =>
        exists leak : list T,
          rdJson_vector_ptr_loop fuel s arr h
          = Some (ok, s', arr ++ seq (length h) (length vals),
                  h ++ vals ++ leak) /\
          length leak <= 1 /\ (ok = true -> leak = [])
    end.
Proof.
  induction fuel as [|fuel IH]; intros s arr h; [reflexivity|].
  rewrite rdJson_vector_ptr_loop_S. cbn [rdJson_vector_elements]. cbv zeta.
  destruct (peek (jsonSkipSpace s) =? "]")%char.
  { exists []. cbn [length seq]. rewrite !app_nil_r. auto. }
  destruct (rdJson (jsonSkipSpace s) jsonDefault) as [[[ok s1] cell]|];
    [|reflexivity].
  destruct ok.
  - destruct (peek (jsonSkipSpace s1) =? ",")%char.
    + specialize (IH (advance (jsonSkipSpace s1))
                     (arr ++ [length (h ++ [cell]) - 1]) (h ++ [cell])).
      destruct (rdJson_vector_elements fuel (advance (jsonSkipSpace s1)))
        as [[[ok s2] vals]|]; [|exact IH].
      destruct IH as (leak & -> & Hleak & Hok). exists leak.
      rewrite !length_app. cbn [length seq].
      replace (length h + 1 - 1) with (length h) by lia.
      rewrite Nat.add_1_r, <- !app_assoc. cbn [app]. auto.
    + destruct (peek (jsonSkipSpace s1) =? "]")%char;
        exists []; rewrite !length_app; cbn [length seq];
        replace (length h + 1 - 1) with (length h) by lia;
        rewrite !app_nil_r; (split; [reflexivity|split; [lia|auto]]).
  - exists [cell]. cbn [length seq]. rewrite app_nil_r. cbn [app].
    split; [reflexivity|]. split; [lia|discriminate].
Qed.
End Read.
End VectorPtrLaws.


(** ** [map<KT, VT *>] *)

Section MapPtrLaws.
Context {KT VT : Type} {L : Less KT}.

Lemma map_pointees_length (h : heap VT) (arr : std_map KT nat)
  (vals : std_map KT VT) :
  map_pointees h arr = Some vals -> length vals = length arr.
Proof.
  revert vals. induction arr as [|[k p] arr IH]; intros vals;
    cbn [map_pointees].
  - intros E. injection E as <-. reflexivity.
  - destruct (deref h p); [|discriminate].
    destruct (map_pointees h arr) as [vs|]; [|discriminate].
    intros E. injection E as <-. cbn [length]. rewrite (IH vs); reflexivity.
Qed.

Section Write.
Context {WK : JsonWr KT} {WV : JsonWr VT}.

Lemma wrJsonSize_map_ptr_loop_pointees (h : heap VT) (arr : std_map KT nat) :
  forall (vals : std_map KT VT) (size : N),
    map_pointees h arr = Some vals ->
    wrJsonSize_map_ptr_loop h arr size
    = Some (fold_left wrJsonSize_map_step vals size).
Proof.
  induction arr as [|[k p] arr IH]; intros vals size; cbn [map_pointees].
  - intros E. injection E as <-. reflexivity.
  - cbn [wrJsonSize_map_ptr_loop].
    destruct (deref h p) as [v|]; [|discriminate].
    destruct (map_pointees h arr) as [vs|]; [|discriminate].
    intros E. injection E as <-. cbn [fold_left]. apply IH. reflexivity.
Qed.

Lemma wrJson_map_ptr_loop_pointees (h : heap VT) (arr : std_map KT nat) :
  forall (vals : std_map KT VT) (st : text * bool),
    map_pointees h arr = Some vals ->
    wrJson_map_ptr_loop h arr st = Some (fold_left wrJson_map_step vals st).
Proof.
  induction arr as [|[k p] arr IH]; intros vals st; cbn [map_pointees].
  - intros E. injection E as <-. reflexivity.
  - cbn [wrJson_map_ptr_loop].
    destruct (deref h p) as [v|]; [|discriminate].
    destruct (map_pointees h arr) as [vs|]; [|discriminate].
    intros E. injection E as <-. cbn [fold_left]. apply IH. reflexivity.
Qed.
End Write.

Section Read.
Context {RK : JsonRd KT} {RV : JsonRd VT}.

Lemma rdJson_map_ptr_loop_S (fuel : nat) (s : cursor) (arr : std_map KT nat)
  (h : heap VT) :
  rdJson_map_ptr_loop (S fuel) s arr h =
  let s := jsonSkipSpace s in
  if (peek s =? "}")%char then Some (true, advance s, arr, h)
  else
    match rdJson s jsonDefault with
    | None => None
    | Some (false, s, _) => Some (false, s, arr, h)
    | Some (true, s, ktmp) =>
        let s := jsonSkipSpace s in
        if negb (peek s =? ":")%char then Some (false, s, arr, h)
        else
          let s := advance s in
          let s := jsonSkipSpace s in
          match rdJson s jsonDefault with
          | None => None
          | Some (false, s, cell) => Some (false, s, arr, h ++ [cell])
          | Some (true, s, cell) =>
              let arr := map_assign arr ktmp (length h) in
              let h := h ++ [cell] in
              let s := jsonSkipSpace s in
              if (peek s =? ",")%char then
                rdJson_map_ptr_loop fuel (advance s) arr h
              else if (peek s =? "}")%char then Some (true, advance s, arr, h)
              else Some (false, s, arr, h)
          end
    end.
Proof.
  cbn [rdJson_map_ptr_loop]. unfold new_cell. cbv zeta.
  destruct (peek (jsonSkipSpace s) =? "}")%char; [reflexivity|].
  destruct (rdJson (jsonSkipSpace s) jsonDefault) as [[[[|] s1] ktmp]|];
    [| reflexivity | reflexivity].
  destruct (negb (peek (jsonSkipSpace s1) =? ":")%char); [reflexivity|].
  cbv beta iota. rewrite deref_new_cell.
  destruct (rdJson (jsonSkipSpace (advance (jsonSkipSpace s1))) jsonDefault)
    as [[[ok s2] cell]|]; [|reflexivity].
  rewrite write_cell_new_cell. reflexivity.
Qed.

(** The loop for [map<KT, VT *>] against the members that the loop for
    [map<KT, VT>] decodes. *)
Lemma rdJson_map_ptr_loop_members (fuel : nat) :
  forall (s : cursor) (arr : std_map KT nat) (h : heap VT),
    match rdJson_map_members fuel s with
    | None => rdJson_map_ptr_loop fuel s arr h = None
    | Some (ok, s', members) =>
        exists leak : list VT,
          rdJson_map_ptr_loop fuel s arr h
          = Some (ok, s',
                  assign_all arr
                    (combine (map fst members)
                       (seq (length h) (length members))),
                  h ++ map snd members ++ leak) /\
          length leak <= 1 /\ (ok = true -> leak = [])
    end.
Proof.
  induction fuel as [|fuel IH]; intros s arr h; [reflexivity|].
  rewrite rdJson_map_ptr_loop_S. cbn [rdJson_map_members]. cbv zeta.
  destruct (peek (jsonSkipSpace s) =? "}")%char.
  { exists []. cbn [length seq map combine assign_all fold_left app].
    rewrite app_nil_r. auto. }
  destruct (rdJson (jsonSkipSpace s) jsonDefault) as [[[[|] s1] ktmp]|];
    [| | reflexivity].
  2:{ exists []. cbn [length seq map combine assign_all fold_left app].
      rewrite app_nil_r. split; [reflexivity|]. split; [lia|discriminate]. }
  destruct (negb (peek (jsonSkipSpace s1) =? ":")%char).
  { exists []. cbn [length seq map combine assign_all fold_left app].
    rewrite app_nil_r. split; [reflexivity|]. split; [lia|discriminate]. }
  destruct (rdJson (jsonSkipSpace (advance (jsonSkipSpace s1))) jsonDefault)
    as [[[[|] s2] cell]|]; [| | reflexivity].
  2:{ exists [cell]. cbn [length seq map combine assign_all fold_left app].
      split; [reflexivity|]. split; [lia|discriminate]. }
  destruct (peek (jsonSkipSpace s2) =? ",")%char.
  - specialize (IH (advance (jsonSkipSpace s2))
                   (map_assign arr ktmp (length h)) (h ++ [cell])).
    destruct (rdJson_map_members fuel (advance (jsonSkipSpace s2)))
      as [[[ok s3] members]|]; [|exact IH].
    destruct IH as (leak & -> & Hleak & Hok). exists leak.
    rewrite length_app. cbn [length seq map combine fst snd].
    rewrite Nat.add_1_r, <- !app_assoc. cbn [app].
    unfold assign_all. cbn [fold_left fst snd]. auto.
  - destruct (peek (jsonSkipSpace s2) =? "}")%char;
      exists []; cbn [length seq map combine fst snd];
      unfold assign_all; cbn [fold_left fst snd app];
      rewrite ?app_nil_r; (split; [reflexivity|split; [lia|auto]]).
Qed.
End Read.

(** Looking an entry up in the decoded maps. *)
Lemma last_occurrence_new_cells (members : list (KT * VT)) (k : KT) :
  forall (h rest : list VT),
    match last_occurrence
            (combine (map fst members) (seq (length h) (length members))) k,
          last_occurrence members k with
    | Some p, Some v =>
        length h <= p /\ deref (h ++ map snd members ++ rest) p = Some v
    | None, None => True
    | _, _ => False
    end.
Proof.
  induction members as [|[k1 v1] members IH]; intros h rest;
    cbn [map fst snd length seq combine last_occurrence]; [exact I|].
  specialize (IH (h ++ [v1]) rest).
  rewrite length_app in IH. cbn [length] in IH. rewrite Nat.add_1_r in IH.
  rewrite <- app_assoc in IH. cbn [app] in IH.
  destruct (last_occurrence
              (combine (map fst members) (seq (S (length h)) (length members)))
              k) as [p|];
    destruct (last_occurrence members k) as [v|]; try contradiction.
  - destruct IH as [Hp Hd]. split; [lia | exact Hd].
  - destruct (same_key k k1); [|exact I].
    split; [lia|]. unfold deref. rewrite nth_error_app2 by lia.
    rewrite Nat.sub_diag. reflexivity.
Qed.
End MapPtrLaws.


(** ** The round trip through a container of pointers *)

Section VectorPtrRoundtrip.
Context {T : Type} {W : JsonWr T} {R : JsonRd T}.

Lemma asJson_vector_ptr_pointees (h : heap T) (p : list nat) (vals : list T) :
  pointees h p = Some vals ->
  asJson_vector_ptr h p = @asJson _ JsonWr_vector vals.
Proof.
  intros Hp. unfold asJson_vector_ptr, asJson.
  cbn [wrJsonSize wrJson JsonWr_vector].
  unfold wrJsonSize_vector_ptr, wrJsonSize_vector, wrJson_vector_ptr,
    wrJson_vector.
  rewrite (pointees_length h p vals Hp).
  rewrite (wrJsonSize_vector_ptr_loop_pointees h p vals _ Hp).
  rewrite (wrJson_vector_ptr_loop_pointees h p vals _ Hp).
  destruct (fold_left wrJson_vector_step vals ([] ++ ["["%char], false)).
  reflexivity.
Qed.

(** The reader for [vector<T *>] against the reader for [vector<T>]. *)
Lemma rdJson_vector_ptr_of_vector (s : cursor) (prior : list T)
  (arr : list nat) (h : heap T) (ok : bool) (s' : cursor) (vals : list T) :
  (peek (jsonSkipSpace s) =? "[")%char = true ->
  rdJson_vector s prior = Some (ok, s', vals) ->
  exists leak : list T,
    rdJson_vector_ptr s arr h
    = Some (ok, s', seq (length h) (length vals), h ++ vals ++ leak) /\
    length leak <= 1 /\ (ok = true -> leak = []).
Proof.
  intros Hb. unfold rdJson_vector, rdJson_vector_ptr. cbv zeta.
  rewrite Hb. cbn [negb]. cbv iota.
  rewrite rdJson_vector_loop_elements.
  pose proof (rdJson_vector_ptr_loop_elements
                (S (length (advance (jsonSkipSpace s))))
                (advance (jsonSkipSpace s)) [] h) as Hloop.
  destruct (rdJson_vector_elements _ _) as [[[ok1 s1] vals1]|];
    [|discriminate].
  cbn [app]. intros E. injection E as -> -> ->.
  destruct Hloop as (leak & Hrd & Hleak & Hok).
  exists leak. cbn [app] in Hrd. auto.
Qed.

Lemma fresh_pointers_differ (h : heap T) (p : list nat) (vals : list T) :
  pointees h p = Some vals -> p <> [] -> seq (length h) (length p) <> p.
Proof.
  intros Hp Hne. destruct p as [|p0 p]; [congruence|].
  cbn [pointees] in Hp. destruct (deref h p0) as [v|] eqn:Hd; [|discriminate].
  assert (Hlt : p0 < length h).
  { apply nth_error_Some. unfold deref in Hd. congruence. }
  cbn [length seq]. intros E. injection E as E _. lia.
Qed.

Context (est : T -> N) (valid : T -> Prop).
Hypothesis HW : wr_lawful W est.
Hypothesis HR : roundtrips W R valid.

Lemma rdJson_vector_ptr_wrJson (vals : list T) (rest : cursor)
  (q : list nat) (h : heap T) :
  Forall valid vals ->
  rdJson_vector_ptr (wrJson_vector [] vals ++ rest) q h
  = Some (true, rest, seq (length h) (length vals), h ++ vals).
Proof.
  intros Hvals.
  destruct (rdJson_vector_ptr_of_vector (wrJson_vector [] vals ++ rest) []
              q h true rest vals) as (leak & Hrd & _ & Hok).
  - rewrite (wrJson_vector_text est HW). reflexivity.
  - apply (rdJson_vector_wrJson est valid HW HR). exact Hvals.
  - rewrite (Hok eq_refl), app_nil_r in Hrd. exact Hrd.
Qed.
End VectorPtrRoundtrip.

Section MapPtrRoundtrip.
Context {KT VT : Type} {L : Less KT}.
Context {WK : JsonWr KT} {WV : JsonWr VT} {RK : JsonRd KT} {RV : JsonRd VT}.

Lemma asJson_map_ptr_pointees (h : heap VT) (p : std_map KT nat)
  (vals : std_map KT VT) :
  map_pointees h p = Some vals ->
  asJson_map_ptr h p = @asJson _ JsonWr_map vals.
Proof.
  intros Hp. unfold asJson_map_ptr, asJson.
  cbn [wrJsonSize wrJson JsonWr_map].
  unfold wrJsonSize_map_ptr, wrJsonSize_map, wrJson_map_ptr, wrJson_map.
  rewrite (wrJsonSize_map_ptr_loop_pointees h p vals _ Hp).
  rewrite (wrJson_map_ptr_loop_pointees h p vals _ Hp).
  destruct (fold_left wrJson_map_step vals ([] ++ ["{"%char], false)).
  reflexivity.
Qed.

Hypothesis HL : less_lawful L.

(** The reader for [map<KT, VT *>] against the reader for [map<KT, VT>]. *)
Lemma rdJson_map_ptr_of_map (s : cursor) (prior : std_map KT VT)
  (arr : std_map KT nat) (h : heap VT) (ok : bool) (s' : cursor)
  (vals : std_map KT VT) :
  (peek (jsonSkipSpace s) =? "{")%char = true ->
  rdJson_map s prior = Some (ok, s', vals) ->
  exists (arr' : std_map KT nat) (new : list VT),
    rdJson_map_ptr s arr h = Some (ok, s', arr', h ++ new) /\
    (forall k : KT,
        map_find_deref (h ++ new) arr' k = map_find vals k /\
        (forall p, map_find arr' k = Some p -> length h <= p)).
Proof.
  intros Hb. unfold rdJson_map, rdJson_map_ptr. cbv zeta.
  rewrite Hb. cbn [negb]. cbv iota.
  rewrite rdJson_map_loop_members.
  pose proof (rdJson_map_ptr_loop_members
                (S (length (advance (jsonSkipSpace s))))
                (advance (jsonSkipSpace s)) [] h) as Hloop.
  destruct (rdJson_map_members _ _) as [[[ok1 s1] members]|];
    [|discriminate].
  intros E. injection E as -> -> <-.
  destruct Hloop as (leak & Hrd & Hleak & Hok).
  eexists _, (map snd members ++ leak).
  split; [exact Hrd|].
  intros k. unfold map_find_deref.
  rewrite !(map_find_assign_all HL). cbn [map_find].
  pose proof (last_occurrence_new_cells members k h leak) as Hlo.
  destruct (last_occurrence
              (combine (map fst members)
                 (seq (length h) (length members))) k) as [p|];
    destruct (last_occurrence members k) as [v|]; try contradiction.
  - destruct Hlo as [Hp Hd]. split; [exact Hd|].
    intros p' E. injection E as <-. exact Hp.
  - split; [reflexivity | discriminate].
Qed.

Lemma fresh_map_pointers_differ (h : heap VT) (p arr' : std_map KT nat)
  (vals : std_map KT VT) :
  map_pointees h p = Some vals -> p <> [] ->
  (forall k ptr, map_find arr' k = Some ptr -> length h <= ptr) ->
  arr' <> p.
Proof.
  intros Hp Hne Hfresh ->. destruct p as [|[k0 p0] p]; [congruence|].
  cbn [map_pointees] in Hp.
  destruct (deref h p0) as [v|] eqn:Hd; [|discriminate].
  assert (Hlt : p0 < length h).
  { apply nth_error_Some. unfold deref in Hd. congruence. }
  specialize (Hfresh k0 p0). cbn [map_find] in Hfresh.
  rewrite (same_key_refl HL) in Hfresh. specialize (Hfresh eq_refl). lia.
Qed.

Context (estK : KT -> N) (estV : VT -> N).
Context (validK : KT -> Prop) (validV : VT -> Prop).
Hypothesis HWK : wr_lawful WK estK.
Hypothesis HWV : wr_lawful WV estV.
Hypothesis HRK : roundtrips WK RK validK.
Hypothesis HRV : roundtrips WV RV validV.

Lemma rdJson_map_ptr_wrJson (vals : std_map KT VT) (q : std_map KT nat)
  (h : heap VT) :
  valid_map validK validV vals ->
  exists (arr' : std_map KT nat) (new : list VT),
    rdJson_map_ptr (wrJson_map [] vals) q h = Some (true, [], arr', h ++ new) /\
    (forall k : KT,
        map_find_deref (h ++ new) arr' k = map_find vals k /\
        (forall p, map_find arr' k = Some p -> length h <= p)).
Proof.
  intros Hvals.
  apply (rdJson_map_ptr_of_map (wrJson_map [] vals) [] q h true [] vals).
  - rewrite (wrJson_map_text estK estV HWK HWV). reflexivity.
  - pose proof (rdJson_wrJson
                  (roundtrips_map estK estV validK validV HWK HWV HRK HRV HL)
                  vals [] [] Hvals eq_refl) as Hrd.
    rewrite app_nil_r in Hrd. exact Hrd.
Qed.
End MapPtrRoundtrip.

(** ** Running a method step by step *)

Lemma bind_run {A B : Type} (m : M A) (k : A -> M B) (w w' : world) (a : A) :
  m w = (Done a, w') -> bind m k w = k a w'.
Proof. intros H. unfold bind. rewrite H. reflexivity. Qed.

(** ** Closing a direction *)

Lemma closeTx_run (o : jsonpipe) (n : nat) (rs : list read_result)
  (ts : list send_result) (tr : list event) (u : list field_name) :
  closeTx (mk_world o true n rs ts tr u) =
  (Done tt,
   if (txFd o =? -1)%Z then mk_world o true n rs ts tr u
   else mk_world (store F_txFd (-1)%Z o) true n rs ts
          (tr ++ [close_event (txFd o) (rxFd o) SHUT_WR]) u).
Proof.
  destruct o as [tfd rfd eof tcur tq cur q]. unfold closeTx, close_event.
  run_pipe. destruct (tfd =? -1)%Z; run_pipe; [reflexivity|].
  destruct (tfd =? rfd)%Z; run_pipe; reflexivity.
Qed.

Lemma closeRx_run (o : jsonpipe) (n : nat) (rs : list read_result)
  (ts : list send_result) (tr : list event) (u : list field_name) :
  closeRx (mk_world o true n rs ts tr u) =
  (Done tt,
   if (rxFd o =? -1)%Z then mk_world o true n rs ts tr u
   else mk_world (store F_rxFd (-1)%Z o) true n rs ts
          (tr ++ [close_event (rxFd o) (txFd o) SHUT_RD]) u).
Proof.
  destruct o as [tfd rfd eof tcur tq cur q]. unfold closeRx, close_event.
  run_pipe. destruct (rfd =? -1)%Z; run_pipe; [reflexivity|].
  destruct (rfd =? tfd)%Z; run_pipe; reflexivity.
Qed.

(** ** The bytes on their way out *)

Lemma txFd_materialize (o : jsonpipe) : txFd (materialize o) = txFd o.
Proof.
  destruct o as [tfd rfd eof cur q rcur rq]. unfold materialize.
  cbn [txCur txQ]. destruct cur; [destruct q|]; reflexivity.
Qed.

Lemma skipn_nonempty {A : Type} (n : nat) (l : list A) :
  n < length l -> skipn n l <> [].
Proof.
  intros Hn Hnil. pose proof (length_skipn n l) as Hlen.
  rewrite Hnil in Hlen. cbn [length] in Hlen. lia.
Qed.

Lemma accepted_app (a b : list event) :
  accepted (a ++ b) = accepted a ++ accepted b.
Proof. apply flat_map_app. Qed.

Lemma wire_cons (r : text) (records : list text) :
  wire (r :: records) = (r ++ [newline]) ++ wire records.
Proof. reflexivity. Qed.

Lemma wire_app (a b : list text) : wire (a ++ b) = wire a ++ wire b.
Proof. unfold wire. rewrite map_app, concat_app. reflexivity. Qed.

Lemma pending_materialize (o : jsonpipe) :
  pending (materialize o) = pending o.
Proof.
  destruct o as [tfd rfd eof cur q rcur rq]. unfold materialize, pending.
  cbn [txCur txQ]. destruct cur as [|c cur]; [|reflexivity].
  destruct q as [|front q]; reflexivity.
Qed.

Lemma txEofFlag_materialize (o : jsonpipe) :
  txEofFlag (materialize o) = txEofFlag o.
Proof.
  destruct o as [tfd rfd eof cur q rcur rq]. unfold materialize.
  cbn [txCur txQ]. destruct cur; [destruct q|]; reflexivity.
Qed.

Lemma rxFd_materialize (o : jsonpipe) : rxFd (materialize o) = rxFd o.
Proof.
  destruct o as [tfd rfd eof cur q rcur rq]. unfold materialize.
  cbn [txCur txQ]. destruct cur; [destruct q|]; reflexivity.
Qed.

(** One turn of the loop of [txWork], with the mutex held: the head of the
    queue becomes the current record if there is none; then either there is
    nothing to send, or the current record is offered to [send]. *)
Lemma txWork_loop_turn (fuel : nat) (o : jsonpipe) (n : nat)
  (rs : list read_result) (ts : list send_result) (tr : list event)
  (u : list field_name) :
  txWork_loop (S fuel) (mk_world o true n rs ts tr u) =
  let o1 := materialize o in
  let cur := txCur o1 in
  if length cur =? 0 then
    (if txEofFlag o1 then closeTx else ret tt) (mk_world o1 true n rs ts tr u)
  else
    (r <- sys_send (txFd o1) cur ;;
     match r with
     | SendErr e =>
         if errno_eqb e EAGAIN then ret tt
         else emit (EvEprintfWrite e) ;; closeTx
     | SendOk nw =>
         if nw <? length cur then
           set F_txCur (skipn nw cur) ;; txWork_loop fuel
         else if nw =? length cur then
           set F_txCur [] ;; txWork_loop fuel
         else throw (write_wrote nw (length cur))
     end) (mk_world o1 true n rs ts tr u).
Proof.
  rewrite txWork_loop_S. destruct o as [tfd rfd eof cur q rcur rq].
  unfold materialize. cbn [txCur txQ].
  destruct cur as [|c cur]; [destruct q as [|front q]|]; run_pipe.
  - reflexivity.
  - replace (length (front ++ [newline]) =? 0) with false
      by (rewrite length_app, Nat.add_1_r; reflexivity).
    run_pipe. reflexivity.
  - reflexivity.
Qed.

Lemma accepted_close_event (tr : list event) (fd other : Z) (how : shut_how) :
  accepted (tr ++ [close_event fd other how]) = accepted tr.
Proof.
  rewrite accepted_app. unfold close_event.
  destruct (fd =? other)%Z; cbn; apply app_nil_r.
Qed.

Lemma stream_closeTx (o : jsonpipe) (n : nat) (rs : list read_result)
  (ts : list send_result) (tr : list event) (u : list field_name) :
  stream (snd (closeTx (mk_world o true n rs ts tr u)))
  = accepted tr ++ pending o.
Proof.
  rewrite closeTx_run. cbn [snd].
  destruct (txFd o =? -1)%Z; unfold stream; cbn [trace self];
    [reflexivity|].
  rewrite accepted_close_event. destruct o. reflexivity.
Qed.

(** Whatever the socket does, the bytes it has taken followed by the bytes
    still to be sent stay the same through the loop of [txWork]. *)
Lemma txWork_loop_stream (fuel : nat) :
  forall (ts : list send_result) (o : jsonpipe) (n : nat)
         (rs : list read_result) (tr : list event) (u : list field_name),
    fst (txWork_loop fuel (mk_world o true n rs ts tr u)) = Done tt ->
    stream (snd (txWork_loop fuel (mk_world o true n rs ts tr u)))
    = accepted tr ++ pending o.
Proof.
  induction fuel as [|fuel IH]; intros ts o n rs tr u; [discriminate|].
  rewrite txWork_loop_turn. cbv zeta.
  rewrite <- (pending_materialize o).
  generalize (materialize o). clear o.
  intros [tfd rfd eof cur q rcur rq]. cbn [txCur txEofFlag txFd].
  destruct cur as [|c cur]; cbn [length Nat.eqb].
  - intros _. destruct eof; [apply stream_closeTx | reflexivity].
  - set (cur' := c :: cur).
    set (o := mk_jsonpipe tfd rfd eof cur' q rcur rq).
    destruct (Z.ltb_spec tfd 0) as [Hfd|Hfd].
    + rewrite bind_sys_send_closed by exact Hfd. cbn [errno_eqb].
      rewrite bind_emit. intros _. rewrite stream_closeTx.
      rewrite !accepted_app. cbn. rewrite !app_nil_r. reflexivity.
    + rewrite bind_sys_send by exact Hfd.
      destruct ts as [|[e|nw] ts]; cbn [next_send tl].
      * cbn [errno_eqb]. intros _. rewrite ret_run. unfold stream. cbn [snd trace self].
        rewrite accepted_app. cbn. rewrite app_nil_r. reflexivity.
      * destruct (errno_eqb e EAGAIN).
        -- intros _. rewrite ret_run. unfold stream. cbn [snd trace self].
           rewrite accepted_app. cbn. rewrite app_nil_r. reflexivity.
        -- rewrite bind_emit. intros _. rewrite stream_closeTx.
           rewrite !accepted_app. cbn. rewrite !app_nil_r. reflexivity.
      * change (S (length cur)) with (length cur').
        destruct (nw <? length cur') eqn:Hlt;
          [|destruct (nw =? length cur') eqn:Heq;
             [|intros Hd; cbv beta iota delta [throw fst] in Hd;
              discriminate Hd]];
          rewrite bind_set_locked; intros Hdone;
          rewrite (IH _ _ _ _ _ _ Hdone);
          rewrite accepted_app; subst o; unfold pending;
          cbn [store txCur txQ accepted flat_map];
          rewrite app_nil_r, <- !app_assoc; f_equal.
        -- rewrite app_assoc, firstn_skipn. reflexivity.
        -- apply Nat.eqb_eq in Heq. rewrite Heq, firstn_all. reflexivity.
Qed.

(** ** Records on the wire *)

Lemma split_records_no_newline (p : text) :
  forall (cur : text) (q : list text),
    has_newline p = false -> split_records cur q p = (cur ++ p, q).
Proof.
  induction p as [|c p IH]; intros cur q; cbn [split_records].
  - rewrite app_nil_r. reflexivity.
  - unfold has_newline. cbn [existsb]. fold (has_newline p).
    destruct (c =? newline)%char; [discriminate|]. cbn [orb]. intros Hp.
    rewrite IH by exact Hp. rewrite <- app_assoc. reflexivity.
Qed.

Lemma split_records_record (r : text) (cur : text) (q : list text) :
  has_newline r = false ->
  split_records cur q (r ++ [newline]) = ([], q ++ [cur ++ r]).
Proof.
  intros Hr. rewrite split_records_app.
  rewrite split_records_no_newline by exact Hr. reflexivity.
Qed.

Lemma split_records_wire (records : list text) :
  forall (q : list text) (partial : text),
    Forall (fun r => has_newline r = false) records ->
    has_newline partial = false ->
    split_records [] q (wire records ++ partial) = (partial, q ++ records).
Proof.
  induction records as [|r records IH]; intros q partial Hrs Hp.
  - cbn [wire map concat app]. rewrite split_records_no_newline by exact Hp.
    rewrite app_nil_r. reflexivity.
  - inversion Hrs as [|? ? Hr Hrs']; subst.
    rewrite wire_cons, <- app_assoc, split_records_app.
    rewrite split_records_record by exact Hr. cbn [app].
    rewrite IH by assumption. rewrite <- app_assoc. reflexivity.
Qed.

Lemma framed_wire (records : list text) (partial : text) (o : jsonpipe) :
  rxCur o = [] ->
  Forall (fun r => has_newline r = false) records ->
  has_newline partial = false ->
  framed (wire records ++ partial) o
  = store F_rxQ (rxQ o ++ records) (store F_rxCur partial o).
Proof.
  intros Hcur Hrs Hp. unfold framed. rewrite Hcur.
  rewrite split_records_wire by assumption. reflexivity.
Qed.


(** ** Reads that end the loop of [rxWork] *)

Lemma txFd_framed (p : text) (o : jsonpipe) : txFd (framed p o) = txFd o.
Proof.
  unfold framed. destruct (split_records (rxCur o) (rxQ o) p). reflexivity.
Qed.

(** The reads that deliver data, one after the other; the loop then goes on
    with what the script holds next. *)
Lemma rxWork_loop_chunks_then (chunks : list text) :
  forall (k : nat) (act : bool) (o : jsonpipe) (n : nat)
         (rest : list read_result) (ts : list send_result) (tr : list event)
         (u : list field_name),
    (0 <= rxFd o)%Z ->
    Forall (fun chunk => chunk <> []) chunks ->
    rxWork_loop (length chunks + k) act
      (mk_world o true n (map ReadOk chunks ++ rest) ts tr u)
    = rxWork_loop k (act || has_newline (concat chunks))
        (mk_world (framed (concat chunks) o) true n rest ts
           (tr ++ map (fun chunk => EvRead (rxFd o) (ReadOk chunk)) chunks) u).
Proof.
  induction chunks as [|chunk chunks IH]; intros k act o n rest ts tr u Hfd Hne.
  - cbn [length Nat.add map app concat has_newline existsb].
    rewrite orb_false_r, framed_nil, app_nil_r. reflexivity.
  - inversion Hne as [|? ? Hchunk Hne']; subst.
    cbn [length Nat.add map app]. rewrite rxWork_loop_S.
    rewrite bind_get_locked. cbn [load].
    rewrite bind_sys_read by exact Hfd.
    destruct chunk as [|c chunk]; [congruence|]. cbn [length Nat.eqb].
    unfold bind. rewrite rxWork_scan_locked.
    rewrite IH by (rewrite ?framed_rxFd; assumption).
    rewrite framed_rxFd. cbn [concat].
    rewrite framed_app, has_newline_app, orb_assoc, <- app_assoc.
    reflexivity.
Qed.

(** The turn of the loop in which [read] returns 0. *)
Lemma rxWork_loop_eof (k : nat) (act : bool) (o : jsonpipe) (n : nat)
  (rest : list read_result) (ts : list send_result) (tr : list event)
  (u : list field_name) :
  (0 <= rxFd o)%Z ->
  rxWork_loop (S k) act (mk_world o true n (ReadOk [] :: rest) ts tr u) =
  (Done act,
   mk_world (store F_rxFd (-1)%Z (store F_rxCur [] o)) true n rest ts
     (tr ++ [EvRead (rxFd o) (ReadOk [])]
         ++ (if negb (length (rxCur o) =? 0)
             then [EvEprintfNoNewline (length (rxCur o))] else [])
         ++ [close_event (rxFd o) (txFd o) SHUT_RD]) u).
Proof.
  intros Hfd. rewrite rxWork_loop_S.
  rewrite bind_get_locked. cbn [load].
  rewrite bind_sys_read by exact Hfd. cbn [length Nat.eqb].
  destruct o as [tfd rfd eof tcur tq cur q]. cbn [rxFd txFd rxCur] in *.
  unfold close_event.
  destruct cur as [|c cur]; run_pipe;
    rewrite bind_closeRx_locked by exact Hfd; run_pipe;
    repeat rewrite <- app_assoc; reflexivity.
Qed.

(** The turn of the loop in which [read] fails. *)
Lemma rxWork_loop_error (k : nat) (act : bool) (o : jsonpipe) (n : nat)
  (e : errno_t) (rest : list read_result) (ts : list send_result)
  (tr : list event) (u : list field_name) :
  (0 <= rxFd o)%Z ->
  e <> EAGAIN ->
  rxWork_loop (S k) act (mk_world o true n (ReadErr e :: rest) ts tr u) =
  (Done act,
   mk_world (store F_rxFd (-1)%Z o) true n rest ts
     (tr ++ [EvRead (rxFd o) (ReadErr e);
             close_event (rxFd o) (txFd o) SHUT_RD]) u).
Proof.
  intros Hfd He. rewrite rxWork_loop_S.
  rewrite bind_get_locked. cbn [load].
  rewrite bind_sys_read by exact Hfd.
  assert (Hne : errno_eqb e EAGAIN = false)
    by (destruct e; try reflexivity; congruence).
  rewrite Hne. rewrite bind_closeRx_locked by exact Hfd. rewrite ret_run.
  unfold close_event. rewrite <- app_assoc. reflexivity.
Qed.

Lemma rxWork_after_loop (fuel : nat) (act : bool) (o o' : jsonpipe)
  (n : nat) (rs rs' : list read_result) (ts : list send_result)
  (tr tr' : list event) (u : list field_name) :
  fuel = S (length rs) ->
  rxWork_loop fuel false (mk_world o true n rs ts tr u)
  = (Done act, mk_world o' true n rs' ts tr' u) ->
  rxWork (mk_world o true n rs ts tr u)
  = (Done tt,
     mk_world o' true (if act then 0 else n) rs' ts
       (tr' ++ rx_notified act) u).
Proof.
  intros -> Hloop. unfold rxWork. cbn [rx_script].
  rewrite (bind_run _ _ _ _ _ Hloop). unfold rx_notified.
  destruct act.
  - unfold cv_notify_all. rewrite bind_emit. reflexivity.
  - rewrite ret_run, app_nil_r. reflexivity.
Qed.

(** [rxWork] when data arrive and then the stream ends. *)
Lemma rxWork_chunks_eof (chunks : list text) (o : jsonpipe) (n : nat)
  (rest : list read_result) (ts : list send_result) (tr : list event)
  (u : list field_name) :
  (0 <= rxFd o)%Z ->
  Forall (fun chunk => chunk <> []) chunks ->
  let o1 := framed (concat chunks) o in
  rxWork (mk_world o true n (map ReadOk chunks ++ ReadOk [] :: rest) ts tr u)
  = (Done tt,
     mk_world (store F_rxFd (-1)%Z (store F_rxCur [] o1)) true
       (if has_newline (concat chunks) then 0 else n) rest ts
       ((tr ++ map (fun chunk => EvRead (rxFd o) (ReadOk chunk)) chunks
            ++ [EvRead (rxFd o) (ReadOk [])]
            ++ (if negb (length (rxCur o1) =? 0)
                then [EvEprintfNoNewline (length (rxCur o1))] else [])
            ++ [close_event (rxFd o) (txFd o) SHUT_RD])
        ++ rx_notified (has_newline (concat chunks))) u).
Proof.
  intros Hfd Hne. cbv zeta.
  apply (rxWork_after_loop
           (length chunks + S (S (length rest)))
           (has_newline (concat chunks))).
  - rewrite length_app, length_map. cbn [length]. lia.
  - rewrite rxWork_loop_chunks_then by assumption. cbn [orb].
    rewrite rxWork_loop_eof by (rewrite framed_rxFd; exact Hfd).
    rewrite framed_rxFd, txFd_framed, <- !app_assoc. reflexivity.
Qed.

(** [rxWork] when data arrive and then [read] fails. *)
Lemma rxWork_chunks_error (chunks : list text) (e : errno_t) (o : jsonpipe)
  (n : nat) (rest : list read_result) (ts : list send_result)
  (tr : list event) (u : list field_name) :
  (0 <= rxFd o)%Z ->
  e <> EAGAIN ->
  Forall (fun chunk => chunk <> []) chunks ->
  rxWork (mk_world o true n (map ReadOk chunks ++ ReadErr e :: rest) ts tr u)
  = (Done tt,
     mk_world (store F_rxFd (-1)%Z (framed (concat chunks) o)) true
       (if has_newline (concat chunks) then 0 else n) rest ts
       ((tr ++ map (fun chunk => EvRead (rxFd o) (ReadOk chunk)) chunks
            ++ [EvRead (rxFd o) (ReadErr e);
                close_event (rxFd o) (txFd o) SHUT_RD])
        ++ rx_notified (has_newline (concat chunks))) u).
Proof.
  intros Hfd He Hne.
  apply (rxWork_after_loop
           (length chunks + S (S (length rest)))
           (has_newline (concat chunks))).
  - rewrite length_app, length_map. cbn [length]. lia.
  - rewrite rxWork_loop_chunks_then by assumption. cbn [orb].
    rewrite rxWork_loop_error by (rewrite ?framed_rxFd; assumption).
    rewrite framed_rxFd, txFd_framed, <- !app_assoc. reflexivity.
Qed.

(** ** A pass of [txWork], from its first [send] to its end *)

Lemma pass_ended_cons (fd rfd : Z) (e : event) (more : list event)
  (r : outcome unit) (o' : jsonpipe) :
  pass_ended fd rfd more r o' -> pass_ended fd rfd (e :: more) r o'.
Proof.
  intros [Hr Hp | before Hr Hcur Hfd Hm | before e' Hr He Hfd Hm
          | before nw Hnw Hr Hm].
  - apply nothing_left; assumption.
  - apply (would_block _ _ _ _ _ (e :: before)); try assumption.
    rewrite Hm. reflexivity.
  - apply (send_failed _ _ _ _ _ (e :: before) e'); try assumption.
    rewrite Hm. reflexivity.
  - apply (wrote_too_much _ _ _ _ _ (e :: before) nw); try assumption.
    rewrite Hm. reflexivity.
Qed.

Lemma materialize_nothing_left (o : jsonpipe) :
  txCur (materialize o) = [] -> pending (materialize o) = [].
Proof.
  destruct o as [tfd rfd eof cur q rcur rq]. unfold materialize, pending.
  cbn [txCur txQ]. destruct cur as [|c cur]; [|discriminate].
  destruct q as [|front q]; [reflexivity|].
  cbn [store txCur]. destruct front; discriminate.
Qed.

Lemma materialize_current (o : jsonpipe) :
  txCur o <> [] -> materialize o = o.
Proof.
  unfold materialize. destruct (txCur o); [congruence|reflexivity].
Qed.

Lemma partial_sends_continue_close_event (fd other : Z) (how : shut_how) :
  partial_sends_continue [close_event fd other how].
Proof. unfold close_event. destruct (fd =? other)%Z; exact I. Qed.

(** The loop of [txWork] on any script: every partial [send] is followed by
    a [send] of the rest, the first [send] offers the current record, and
    the loop ends in one of four ways. *)
Lemma txWork_loop_pass (fuel : nat) :
  forall (ts : list send_result) (o : jsonpipe) (n : nat)
         (rs : list read_result) (tr : list event) (u : list field_name),
    length ts < fuel ->
    (0 <= txFd o)%Z ->
    exists more : list event,
      trace (snd (txWork_loop fuel (mk_world o true n rs ts tr u)))
      = tr ++ more /\
      partial_sends_continue more /\
      (txCur (materialize o) <> [] ->
       exists more',
         more = EvSend (txFd o) (txCur (materialize o)) (next_send ts)
                :: more') /\
      pass_ended (txFd o) (rxFd o) more
        (fst (txWork_loop fuel (mk_world o true n rs ts tr u)))
        (self (snd (txWork_loop fuel (mk_world o true n rs ts tr u)))).
Proof.
  induction fuel as [|fuel IH]; intros ts o n rs tr u Hfuel Hfd; [lia|].
  rewrite txWork_loop_turn. cbv zeta.
  pose proof (txFd_materialize o) as Htx.
  pose proof (rxFd_materialize o) as Hrx.
  pose proof (materialize_nothing_left o) as Hnil.
  destruct (materialize o) as [tfd rfd eof cur q rcur rq].
  cbn [txCur txEofFlag txFd rxFd] in *. rewrite <- Htx, <- Hrx.
  rewrite <- Htx in Hfd. clear Htx Hrx.
  assert (Hopen : (tfd =? -1)%Z = false) by (apply Z.eqb_neq; lia).
  destruct cur as [|c cur]; cbn [length Nat.eqb].
  - specialize (Hnil eq_refl). destruct eof.
    + rewrite closeTx_run. cbn [txFd rxFd]. rewrite Hopen.
      cbn [fst snd trace self].
      exists [close_event tfd rfd SHUT_WR].
      split; [reflexivity|].
      split; [apply partial_sends_continue_close_event|].
      split; [congruence|].
      apply nothing_left; [reflexivity|exact Hnil].
    + rewrite ret_run. cbn [fst snd trace self]. exists [].
      split; [rewrite app_nil_r; reflexivity|].
      split; [exact I|]. split; [congruence|].
      apply nothing_left; [reflexivity|exact Hnil].
  - clear Hnil. set (cur' := c :: cur).
    set (o1 := mk_jsonpipe tfd rfd eof cur' q rcur rq).
    rewrite bind_sys_send by exact Hfd.
    assert (Hstop : forall e,
               partial_sends_continue [EvSend tfd cur' (SendErr e)])
      by (intros e; exact I).
    destruct ts as [|[e|nw] ts]; cbn [next_send tl].
    + cbn [errno_eqb]. rewrite ret_run. cbn [fst snd trace self].
      exists [EvSend tfd cur' (SendErr EAGAIN)].
      split; [reflexivity|]. split; [exact I|].
      split; [intros _; eexists; reflexivity|].
      apply (would_block _ _ _ _ _ []); try reflexivity. discriminate.
    + destruct (errno_eqb e EAGAIN) eqn:He.
      * assert (e = EAGAIN) as -> by (destruct e; try discriminate; reflexivity).
        rewrite ret_run. cbn [fst snd trace self].
        exists [EvSend tfd cur' (SendErr EAGAIN)].
        split; [reflexivity|]. split; [exact I|].
        split; [intros _; eexists; reflexivity|].
        apply (would_block _ _ _ _ _ []); try reflexivity. discriminate.
      * rewrite bind_emit, closeTx_run. subst o1. cbn [txFd rxFd].
        rewrite Hopen.
        cbn [fst snd trace self].
        exists [EvSend tfd cur' (SendErr e); EvEprintfWrite e;
                close_event tfd rfd SHUT_WR].
        split; [rewrite <- !app_assoc; reflexivity|].
        split; [apply partial_sends_continue_close_event|].
        split; [intros _; eexists; reflexivity|].
        apply (send_failed _ _ _ _ _ [] e); try reflexivity.
        intros ->. discriminate.
    + cbn [length] in Hfuel.
      change (S (length cur)) with (length cur').
      destruct (nw <? length cur') eqn:Hlt;
        [|destruct (nw =? length cur') eqn:Heq].
      * rewrite bind_set_locked.
        apply Nat.ltb_lt in Hlt.
        set (o2 := store F_txCur (skipn nw cur') o1).
        assert (Hcur2 : txCur o2 = skipn nw cur') by reflexivity.
        assert (Hne2 : txCur o2 <> [])
          by (rewrite Hcur2; apply skipn_nonempty; exact Hlt).
        destruct (IH ts o2 n rs (tr ++ [EvSend tfd cur' (SendOk nw)]) u)
          as (more & Htr & Hpsc & Hfirst & Hend); [lia | exact Hfd |].
        rewrite (materialize_current o2 Hne2) in Hfirst.
        destruct (Hfirst Hne2) as [more' Hmore'].
        exists (EvSend tfd cur' (SendOk nw) :: more).
        split; [rewrite Htr, <- app_assoc; reflexivity|].
        split; [|split].
        -- cbn [partial_sends_continue]. split; [|exact Hpsc].
           intros _. rewrite Hmore'. rewrite Hcur2. split; reflexivity.
        -- intros _. eexists. reflexivity.
        -- apply pass_ended_cons. exact Hend.
      * rewrite bind_set_locked.
        apply Nat.eqb_eq in Heq. apply Nat.ltb_ge in Hlt.
        destruct (IH ts (store F_txCur [] o1) n rs
                    (tr ++ [EvSend tfd cur' (SendOk nw)]) u)
          as (more & Htr & Hpsc & _ & Hend); [lia | exact Hfd |].
        exists (EvSend tfd cur' (SendOk nw) :: more).
        split; [rewrite Htr, <- app_assoc; reflexivity|].
        split; [|split].
        -- cbn [partial_sends_continue]. split; [|exact Hpsc].
           intros Habs. lia.
        -- intros _. eexists. reflexivity.
        -- apply pass_ended_cons. exact Hend.
      * unfold throw. cbn [fst snd trace self].
        apply Nat.eqb_neq in Heq. apply Nat.ltb_ge in Hlt.
        exists [EvSend tfd cur' (SendOk nw)].
        split; [reflexivity|]. split; [|split].
        -- cbn [partial_sends_continue]. split; [|exact I].
           intros Habs. lia.
        -- intros _. eexists. reflexivity.
        -- apply (wrote_too_much _ _ _ _ _ [] nw); try reflexivity.
           subst o1. cbn [txCur]. lia.
Qed.
(** * Main theorems: the codec *)

(** C1.  Round trip, for the shapes that have one.

    - Values.  For every shape built from primitive types by [vector<T>]
      and [map<KT, VT>], nested at will, and every well-formed value [v] of
      that shape whose size estimate fits [size_t], [asJson v] yields a
      text [sj], and [fromJson sj w] returns true and leaves [v] in the
      destination, whatever [w] held before.
    - Pointers.  For [vector<T *>] and [map<KT, VT *>] over such a shape,
      [asJson] yields the text of the pointees and [fromJson] returns true,
      but into cells of its own: the pointees of the result are the
      pointees of [v], while the pointers are new, so that the result is
      not [v] unless [v] is empty.
    - [shared_ptr<T>] is written but has no [rdJson], nor has a container
      of them: there is no round trip for it.

    The primitive overloads live outside the header; they are required to
    be lawful writers, to round-trip exactly, and to order keys strictly
    and totally. *)
Theorem fromJson_asJson_roundtrip
  (prim : Type) (prim_type : prim -> Type)
  (prim_wr : forall p, JsonWr (prim_type p))
  (prim_rd : forall p, JsonRd (prim_type p))
  (prim_less : forall p, Less (prim_type p))
  (prim_est : forall p, prim_type p -> N)
  (Hwr : forall p, wr_lawful (prim_wr p) (prim_est p))
  (Hrt : forall p, roundtrips (prim_wr p) (prim_rd p) (fun _ => True))
  (Hless : forall p, less_lawful (prim_less p))
  (a : shape prim) (R : JsonRd (value prim_type a))
  (HR : shape_rd a = Some R) :
  (forall v w : value prim_type a,
      shape_valid a v ->
      (shape_est prim_est a v < size_max)%N ->
      exists sj : jsonstr,
        @asJson _ (shape_wr a) v = Some sj /\
        @fromJson _ R sj w = Some (true, v))
  /\
  (forall (h : heap (value prim_type a)) (v w : list nat)
          (vals : list (value prim_type a)),
      pointees h v = Some vals ->
      Forall (shape_valid a) vals ->
      (est_vector (shape_est prim_est a) vals < size_max)%N ->
      exists sj : jsonstr,
        @asJson_vector_ptr _ (shape_wr a) h v = Some sj /\
        @asJson _ (shape_wr (Vector a)) vals = Some sj /\
        @fromJson_vector_ptr _ R sj w h
        = Some (true, seq (length h) (length v), h ++ vals) /\
        pointees (h ++ vals) (seq (length h) (length v)) = Some vals /\
        (v <> [] -> seq (length h) (length v) <> v))
  /\
  (forall (k : prim) (h : heap (value prim_type a))
          (v w : std_map (prim_type k) nat)
          (vals : std_map (prim_type k) (value prim_type a)),
      map_pointees h v = Some vals ->
      valid_map (fun _ => True) (shape_valid a) vals ->
      (est_map (prim_est k) (shape_est prim_est a) vals < size_max)%N ->
      exists (sj : jsonstr) (v' : std_map (prim_type k) nat)
             (new : list (value prim_type a)),
        @asJson_map_ptr _ _ (prim_wr k) (shape_wr a) h v = Some sj /\
        @asJson _ (shape_wr (Map k a)) vals = Some sj /\
        @fromJson_map_ptr _ _ (prim_less k) (prim_rd k) R sj w h
        = Some (true, v', h ++ new) /\
        (forall key,
            map_find_deref (h ++ new) v' key = map_find vals key /\
            (forall p, map_find v' key = Some p -> length h <= p)) /\
        (v <> [] -> v' <> v))
  /\
  (forall b : shape prim,
      @shape_rd prim prim_type prim_rd prim_less (SharedPtr b) = None /\
      @shape_rd prim prim_type prim_rd prim_less (Vector (SharedPtr b)) = None /\
      (forall k,
          @shape_rd prim prim_type prim_rd prim_less (Map k (SharedPtr b))
          = None)).
Proof.
  pose proof (shape_roundtrips prim prim_type prim_est Hwr Hrt Hless a R HR)
    as Hround.
  pose proof (shape_wr_lawful prim prim_type prim_est Hwr a) as Hlawful.
  split; [|split; [|split]].
  - intros v w Hvalid Hfit.
    destruct (asJson_fits prim prim_type prim_est Hwr a v Hfit) as [_ Has].
    exists (@wrJson _ (shape_wr a) [] v). split; [exact Has|].
    unfold fromJson.
    rewrite <- (app_nil_r (@wrJson _ (shape_wr a) [] v)).
    rewrite (rdJson_wrJson Hround v [] w Hvalid eq_refl). reflexivity.
  - intros h v w vals Hp Hvalid Hfit.
    destruct (asJson_fits prim prim_type prim_est Hwr (Vector a) vals Hfit)
      as [_ Has].
    cbn [shape_wr] in Has.
    exists (@wrJson _ (@JsonWr_vector _ (shape_wr a)) [] vals).
    rewrite (asJson_vector_ptr_pointees h v vals Hp).
    split; [exact Has|]. split; [exact Has|].
    rewrite <- (pointees_length h v vals Hp).
    split; [|split].
    + unfold fromJson_vector_ptr. cbn [wrJson JsonWr_vector].
      rewrite <- (app_nil_r (wrJson_vector [] vals)).
      rewrite (rdJson_vector_ptr_wrJson (shape_est prim_est a)
                 (shape_valid a) Hlawful Hround vals [] w h Hvalid).
      reflexivity.
    + pose proof (pointees_seq h vals []) as Hseq.
      rewrite app_nil_r in Hseq. exact Hseq.
    + rewrite (pointees_length h v vals Hp).
      apply (fresh_pointers_differ h v vals Hp).
  - intros k h v w vals Hp Hvalid Hfit.
    destruct (asJson_fits prim prim_type prim_est Hwr (Map k a) vals Hfit)
      as [_ Has].
    cbn [shape_wr] in Has.
    destruct (rdJson_map_ptr_wrJson (Hless k) (prim_est k)
                (shape_est prim_est a) (fun _ => True) (shape_valid a)
                (Hwr k) Hlawful (Hrt k) Hround vals w h Hvalid)
      as (v' & new & Hrd & Hfind).
    exists (@wrJson _ (@JsonWr_map _ _ (prim_wr k) (shape_wr a)) [] vals),
      v', new.
    rewrite (asJson_map_ptr_pointees h v vals Hp).
    split; [exact Has|]. split; [exact Has|].
    split; [|split; [exact Hfind|]].
    + unfold fromJson_map_ptr. cbn [wrJson JsonWr_map].
      rewrite Hrd. reflexivity.
    + intros Hne.
      apply (fresh_map_pointers_differ (Hless k) h v v' vals Hp Hne).
      intros key ptr. apply (proj2 (Hfind key)).
  - intros b. repeat split.
Qed.

Lemma nested_value_valid :
  @shape_valid unit bool_prim_type bool_less nested_shape nested_value.
Proof.
  split.
  - repeat constructor.
  - repeat constructor.
Qed.

Lemma fromJson_asJson_roundtrip_witness :
  (exists sj : jsonstr,
      @asJson _ (@shape_wr _ _ bool_wr nested_shape) nested_value = Some sj /\
      @fromJson _ nested_rd sj [(true, [false])] = Some (true, nested_value))
  /\
  (exists sj : jsonstr,
      @asJson_vector_ptr _ (@shape_wr _ _ bool_wr nested_shape)
        [[]; nested_value] [1; 1] = Some sj /\
      @asJson _ (@shape_wr _ _ bool_wr (Vector nested_shape))
        [nested_value; nested_value] = Some sj /\
      @fromJson_vector_ptr _ nested_rd sj [0] [[]; nested_value]
      = Some (true, seq 2 2, [[]; nested_value] ++ [nested_value; nested_value]) /\
      pointees ([[]; nested_value] ++ [nested_value; nested_value]) (seq 2 2)
      = Some [nested_value; nested_value] /\
      ([1; 1] <> [] -> seq 2 2 <> [1; 1])).
Proof.
  destruct (@fromJson_asJson_roundtrip unit bool_prim_type bool_wr bool_rd
              bool_less bool_est
              (fun _ => wr_lawful_bool) (fun _ => roundtrips_bool)
              (fun _ => less_lawful_bool)
              nested_shape nested_rd eq_refl) as (Hval & Hvec & _ & _).
  split.
  - apply Hval; [exact nested_value_valid | vm_compute; reflexivity].
  - apply (Hvec [[]; nested_value] [1; 1] [0] [nested_value; nested_value]).
    + reflexivity.
    + repeat constructor.
    + vm_compute. reflexivity.
Defined.

(** C1, as the specification has it, fails for a vector of pointers: the
    vector with the one element that points to the cell 0, which holds
    [true], is written as an array with the element [true] and read back as
    the vector with one element that points to a new cell 1; and a vector
    of [shared_ptr] is written but has no reader at all. *)
Lemma fromJson_asJson_vector_ptr_differs :
  pointees [true] [0] = Some [true] /\
  asJson_vector_ptr [true] [0] = Some (lit "[true]") /\
  fromJson_vector_ptr (lit "[true]") [] [true]
  = Some (true, [1], [true; true]) /\
  ~ vector_ptr_roundtrips [true] [0] /\
  @asJson _ (@shape_wr _ _ bool_wr ptr_shape) ptr_value
  = Some (lit "[true,null]") /\
  @shape_rd unit bool_prim_type bool_rd bool_less ptr_shape = None.
Proof.
  split; [reflexivity|]. split; [reflexivity|]. split; [reflexivity|].
  split; [|split; reflexivity].
  intros Hrt. destruct (Hrt []) as (sj & h' & Has & Hfrom).
  vm_compute in Has. injection Has as <-.
  vm_compute in Hfrom. discriminate.
Qed.



(** C7.  Duplicate keys: the last one wins.  Take any object text: blanks,
    tabs, newlines or carriage returns before the opening brace and around
    every key, colon, value and comma; the members in any order, any key
    repeated; every key and every value written in whatever way its reader
    parses.  [rdJson] into a map succeeds on it, stops behind the closing
    brace, and the map binds every key to the value of the last member of
    the text with that key.  The same holds of the compact object text that
    the members' own writers produce.  And whenever [rdJson] into a map
    succeeds on any text at all, the map binds every key to the value of the
    last member with that key that the loop has decoded. *)
Theorem rdJson_map_duplicate_keys_last_wins
  {KT VT : Type} {L : Less KT}
  {WK : JsonWr KT} {WV : JsonWr VT} {RK : JsonRd KT} {RV : JsonRd VT}
  (estK : KT -> N) (estV : VT -> N)
  (validK : KT -> Prop) (validV : VT -> Prop)
  (HL : less_lawful L)
  (HWK : wr_lawful WK estK) (HWV : wr_lawful WV estV)
  (HRK : roundtrips WK RK validK) (HRV : roundtrips WV RV validV) :
  (forall (s : cursor) (prior : std_map KT VT) (s' : cursor)
          (arr : std_map KT VT),
      rdJson_map s prior = Some (true, s', arr) ->
      exists members,
        object_members s = Some (true, s', members) /\
        forall k, map_find arr k = last_occurrence members k)
  /\
  (forall (members : list (KT * VT)) (rest : cursor) (prior : std_map KT VT),
      Forall (valid_member validK validV) members ->
      exists arr,
        rdJson_map (object_text members ++ rest) prior = Some (true, rest, arr) /\
        forall k, map_find arr k = last_occurrence members k)
  /\
  (forall (lead inner : text) (members : list (token KT * token VT))
          (rest : cursor) (prior : std_map KT VT),
      is_blank_text lead = true ->
      is_blank_text inner = true ->
      Forall (member_ok RK RV) members ->
      exists arr,
        rdJson_map (json_object lead inner members ++ rest) prior
        = Some (true, rest, arr) /\
        forall k, map_find arr k = last_occurrence (map member_of members) k).
Proof.
  split; [|split].
  - intros s prior s' arr Hrd.
    destruct (rdJson_map_success s prior s' arr Hrd) as (members & Hm & ->).
    exists members. split; [exact Hm|].
    intros k. rewrite (map_find_assign_all HL).
    destruct (last_occurrence members k); reflexivity.
  - intros members rest prior Hvalid.
    exists (assign_all [] members). split.
    + apply (rdJson_map_object_text validK validV HRK HRV).
      exact Hvalid.
    + intros k. rewrite (map_find_assign_all HL).
      destruct (last_occurrence members k); reflexivity.
  - intros lead inner members rest prior Hlead Hinner Hms.
    exists (assign_all [] (map member_of members)). split.
    + apply rdJson_map_json_object; assumption.
    + intros k. rewrite (map_find_assign_all HL).
      destruct (last_occurrence (map member_of members) k); reflexivity.
Qed.

Lemma rdJson_map_duplicate_keys_last_wins_witness :
  duplicated duplicate_members true = true /\
  (exists arr : std_map bool bool,
      rdJson_map (object_text duplicate_members ++ []) [(false, true)]
      = Some (true, [], arr) /\
      forall k, map_find arr k = last_occurrence duplicate_members k) /\
  json_object [] [] spaced_duplicate_members = lit "{true:false ,true:true}" /\
  (exists arr : std_map bool bool,
      rdJson_map (json_object [] [] spaced_duplicate_members ++ [])
        [(false, true)]
      = Some (true, [], arr) /\
      forall k,
        map_find arr k
        = last_occurrence (map member_of spaced_duplicate_members) k).
Proof.
  destruct (rdJson_map_duplicate_keys_last_wins
              (fun _ => 5%N) (fun _ => 5%N) (fun _ => True) (fun _ => True)
              less_lawful_bool wr_lawful_bool wr_lawful_bool
              roundtrips_bool roundtrips_bool) as (_ & Hcompact & Hany).
  split; [reflexivity|]. split; [|split; [reflexivity|]].
  - apply Hcompact. repeat constructor.
  - apply Hany; [reflexivity | reflexivity |].
    repeat constructor; try reflexivity;
      first [apply (parses_bool true) | apply (parses_bool false)].
Defined.

(** C9.  The readers of containers clear their destination.  When [rdJson]
    into a vector succeeds, the vector holds exactly the elements of the
    array text, in order; when [rdJson] into a map succeeds, the map is the
    one that the members of the object text build from the empty map; in
    both cases the result is the same whatever the destination held
    before. *)
Theorem rdJson_container_clears_destination
  {T KT VT : Type} {R : JsonRd T} {L : Less KT} {RK : JsonRd KT}
  {RV : JsonRd VT} :
  (forall (s : cursor) (prior : list T) (s' : cursor) (arr : list T),
      rdJson_vector s prior = Some (true, s', arr) ->
      array_elements s = Some (true, s', arr) /\
      forall prior', rdJson_vector s prior' = Some (true, s', arr))
  /\
  (forall (s : cursor) (prior : std_map KT VT) (s' : cursor)
          (arr : std_map KT VT),
      rdJson_map s prior = Some (true, s', arr) ->
      (exists members,
          object_members s = Some (true, s', members) /\
          arr = assign_all [] members) /\
      forall prior', rdJson_map s prior' = Some (true, s', arr)).
Proof.
  split.
  - intros s prior s' arr Hrd. split.
    + exact (rdJson_vector_success s prior s' arr Hrd).
    + intros prior'. exact (rdJson_vector_prior s prior prior' s' arr Hrd).
  - intros s prior s' arr Hrd. split.
    + exact (rdJson_map_success s prior s' arr Hrd).
    + intros prior'. exact (rdJson_map_prior s prior prior' s' arr Hrd).
Qed.

Lemma rdJson_container_clears_destination_witness :
  (rdJson_vector (lit " [true, false]") [false; false; false]
   = Some (true, [], [true; false]) /\
   array_elements (lit " [true, false]") = Some (true, [], [true; false]) /\
   forall prior', rdJson_vector (lit " [true, false]") prior'
                  = Some (true, [], [true; false]))
  /\
  (rdJson_map (lit "{true:false}") [(false, true); (true, true)]
   = Some (true, [], [(true, false)]) /\
   forall prior', rdJson_map (lit "{true:false}") prior'
                  = Some (true, [], [(true, false)])).
Proof.
  destruct (@rdJson_container_clears_destination bool bool bool
              JsonRd_bool Less_bool JsonRd_bool JsonRd_bool)
    as [Hvec Hmap].
  split.
  - split; [reflexivity|].
    apply (Hvec (lit " [true, false]") [false; false; false] []
             [true; false] eq_refl).
  - split; [reflexivity|].
    apply (Hmap (lit "{true:false}") [(false, true); (true, true)] []
             [(true, false)] eq_refl).
Defined.

(** * Main theorems: the transport *)

Lemma concat_nonempty (chunks : list text) :
  chunks <> [] -> Forall (fun chunk => chunk <> []) chunks ->
  concat chunks <> [].
Proof.
  intros Hne Hall. destruct chunks as [|chunk chunks]; [congruence|].
  inversion Hall as [|? ? Hchunk _]; subst.
  destruct chunk; [congruence|]. discriminate.
Qed.

(** C4.  Framing does not depend on the chunking.  Let a byte stream reach
    [rxWork] in non-empty chunks, either as the results of successive calls
    of [read] within one call of [rxWork], or one chunk per call of
    [rxWork].  Either way the receive queue and the carry-over are the same
    as when the whole stream comes from a single [read], namely the records
    that the newlines of the stream delimit. *)
Theorem rxWork_chunking_invariant (w : world) (chunks : list text) :
  mutex0 w = true ->
  (0 <= rxFd (self w))%Z ->
  chunks <> [] ->
  Forall (fun chunk => chunk <> []) chunks ->
  let fed := rxWork (with_rx_script (map ReadOk chunks) w) in
  let whole := rxWork (with_rx_script [ReadOk (concat chunks)] w) in
  fst fed = Done tt /\ fst whole = Done tt /\
  rxQ (self (snd fed)) = rxQ (self (snd whole)) /\
  rxCur (self (snd fed)) = rxCur (self (snd whole)) /\
  self (rxWork_each chunks w) = self (snd whole) /\
  self (snd whole) = framed (concat chunks) (self w).
Proof.
  intros Hlock Hfd Hne Hall. destruct w as [o m n rs ts tr u].
  cbn [mutex0 self] in *. subst m.
  rewrite (rxWork_each_chunks chunks o n rs ts tr u Hfd Hall).
  unfold with_rx_script.
  cbn [self mutex0 rxQNonempty rx_script tx_script trace unguarded].
  destruct (rxWork_chunks chunks o n ts tr u Hfd Hall) as (n1 & tr1 & H1).
  destruct (rxWork_chunks [concat chunks] o n ts tr u Hfd) as (n2 & tr2 & H2).
  { constructor; [apply concat_nonempty; assumption | constructor]. }
  cbn [map concat] in H2. rewrite app_nil_r in H2.
  cbv zeta. rewrite H1, H2. cbn [fst snd self]. auto 6.
Qed.

Lemma rxWork_chunking_invariant_witness :
  let w := locked_world pipe_3_4 [] [] in
  let fed := rxWork (with_rx_script (map ReadOk two_chunks) w) in
  let whole := rxWork (with_rx_script [ReadOk (concat two_chunks)] w) in
  fst fed = Done tt /\ fst whole = Done tt /\
  rxQ (self (snd fed)) = rxQ (self (snd whole)) /\
  rxCur (self (snd fed)) = rxCur (self (snd whole)) /\
  self (rxWork_each two_chunks w) = self (snd whole) /\
  self (snd whole) = framed (concat two_chunks) (self w).
Proof.
  apply (rxWork_chunking_invariant (locked_world pipe_3_4 [] []) two_chunks).
  - reflexivity.
  - cbn. lia.
  - discriminate.
  - repeat constructor; discriminate.
Defined.

(** The scenario of the specification: two records, the second one split
    across the two chunks. *)
Example rxWork_two_chunks :
  rxQ (self (exec rxWork
               (locked_world pipe_3_4 (map ReadOk two_chunks) [])))
  = [ lit "42"; dquote :: lit "ab\" ++ dquote :: lit "c" ++ [dquote] ].
Proof. vm_compute. reflexivity. Qed.

(** C6.  End of stream inside a record.  Let [read] deliver any number of
    non-empty chunks, none at all included, and then return 0, all within
    one call of [rxWork], and let a partial record be buffered when it
    returns 0, be it left over from before the call or from the chunks.
    Then [rxWork] returns normally; the partial record is dropped after a
    diagnostic that gives its length; the receive queue holds what the
    newlines of the chunks have completed and nothing of the partial
    record; the receive direction is closed, by a half-close when the
    descriptor is shared with the transmit direction and by a close
    otherwise; and nothing more is read.  In particular, when the chunks
    are the bytes of newline-free records, each with its newline, followed
    by the beginning of a further record, the queue grows by exactly these
    records. *)
Theorem rxWork_eof_discards_partial_record (w : world)
  (chunks : list text) (rest : list read_result) :
  mutex0 w = true ->
  (0 <= rxFd (self w))%Z ->
  Forall (fun chunk => chunk <> []) chunks ->
  rx_script w = map ReadOk chunks ++ ReadOk [] :: rest ->
  rxCur (framed (concat chunks) (self w)) <> [] ->
  fst (rxWork w) = Done tt /\
  rxQ (self (exec rxWork w)) = rxQ (framed (concat chunks) (self w)) /\
  rxCur (self (exec rxWork w)) = [] /\
  rxFd (self (exec rxWork w)) = (-1)%Z /\
  rx_script (exec rxWork w) = rest /\
  trace (exec rxWork w) =
  trace w
  ++ map (fun chunk => EvRead (rxFd (self w)) (ReadOk chunk)) chunks
  ++ [ EvRead (rxFd (self w)) (ReadOk []);
       EvEprintfNoNewline (length (rxCur (framed (concat chunks) (self w))));
       if (rxFd (self w) =? txFd (self w))%Z
       then EvShutdown (rxFd (self w)) SHUT_RD
       else EvClose (rxFd (self w)) ]
  ++ rx_notified (has_newline (concat chunks)) /\
  (forall (records : list text) (partial : text),
      rxCur (self w) = [] ->
      concat chunks = wire records ++ partial ->
      Forall (fun r => has_newline r = false) records ->
      has_newline partial = false ->
      rxQ (self (exec rxWork w)) = rxQ (self w) ++ records /\
      rxCur (framed (concat chunks) (self w)) = partial).
Proof.
  intros Hlock Hfd Hne Hscript Hcur. destruct w as [o m n rs ts tr u].
  cbn [mutex0 self rx_script trace] in *. subst m rs.
  unfold exec. rewrite (rxWork_chunks_eof chunks o n rest ts tr u Hfd Hne).
  cbn [fst snd self trace rx_script].
  assert (Hq : rxQ (store F_rxFd (-1)%Z
                      (store F_rxCur [] (framed (concat chunks) o)))
               = rxQ (framed (concat chunks) o))
    by (destruct (framed (concat chunks) o); reflexivity).
  rewrite Hq.
  split; [reflexivity|]. split; [reflexivity|].
  split; [destruct (framed (concat chunks) o); reflexivity|].
  split; [destruct (framed (concat chunks) o); reflexivity|].
  split; [reflexivity|]. split.
  - unfold close_event.
    destruct (rxCur (framed (concat chunks) o)) as [|c cur] eqn:E;
      [congruence|].
    cbn [length Nat.eqb negb]. rewrite <- !app_assoc. reflexivity.
  - intros records partial Hcur0 Hcat Hrs Hp.
    rewrite Hcat, framed_wire by assumption.
    destruct o. cbn [store rxQ rxCur]. auto.
Qed.

Lemma rxWork_eof_discards_partial_record_witness :
  let w := locked_world pipe_3_4
             [ReadOk (lit "42" ++ [newline]); ReadOk partial_record;
              ReadOk []; ReadOk (lit "x")] [] in
  fst (rxWork w) = Done tt /\
  rxQ (self (exec rxWork w)) = [lit "42"] /\
  rxCur (self (exec rxWork w)) = [] /\
  rxFd (self (exec rxWork w)) = (-1)%Z /\
  rx_script (exec rxWork w) = [ReadOk (lit "x")] /\
  trace (exec rxWork w) =
  [ EvRead 4 (ReadOk (lit "42" ++ [newline])); EvRead 4 (ReadOk partial_record);
    EvRead 4 (ReadOk []); EvEprintfNoNewline 6; EvClose 4; EvNotifyAll ].
Proof.
  destruct (rxWork_eof_discards_partial_record
              (locked_world pipe_3_4
                 [ReadOk (lit "42" ++ [newline]); ReadOk partial_record;
                  ReadOk []; ReadOk (lit "x")] [])
              [lit "42" ++ [newline]; partial_record] [ReadOk (lit "x")])
    as (H1 & H2 & H3 & H4 & H5 & H6 & _).
  - reflexivity.
  - cbn. lia.
  - repeat constructor; discriminate.
  - reflexivity.
  - discriminate.
  - cbv zeta. auto 7.
Defined.

(** The scenario of the specification, from an empty carry-over: the partial
    record arrives, then the end of the stream. *)
Example rxWork_partial_record_then_eof :
  let w := locked_world pipe_3_4 [ReadOk partial_record; ReadOk []] [] in
  fst (rxWork w) = Done tt /\
  self (exec rxWork w) = store F_rxFd (-1)%Z pipe_3_4.
Proof. vm_compute. auto. Qed.

(** C10.  A blank line is an empty record.  A newline that arrives while
    the carry-over is empty makes [rxWork] push the zero-length record, and
    [rxNonblock] returns the empty string for that record, which is also
    what it returns when the queue is empty. *)
Theorem blank_line_is_empty_record :
  (forall (w : world) (chunk : text),
      mutex0 w = true ->
      (0 <= rxFd (self w))%Z ->
      rxCur (self w) = [] ->
      rx_script w = [ReadOk (newline :: chunk)] ->
      fst (rxWork w) = Done tt /\
      self (exec rxWork w)
      = framed chunk (store F_rxQ (rxQ (self w) ++ [[]]) (self w)))
  /\
  (forall (w : world) (q : list text),
      rxQ (self w) = [] :: q ->
      fst (rxNonblock w) = Done [] /\ rxQ (self (exec rxNonblock w)) = q)
  /\
  (forall w : world,
      rxQ (self w) = [] ->
      fst (rxNonblock w) = Done [] /\ rxQ (self (exec rxNonblock w)) = []).
Proof.
  split; [|split].
  - intros w chunk Hlock Hfd Hcur Hscript. destruct w as [o m n rs ts tr u].
    cbn [mutex0 self rx_script] in *. subst m rs.
    destruct (rxWork_chunks [newline :: chunk] o n ts tr u Hfd)
      as (n' & tr' & Hrun).
    { repeat constructor. discriminate. }
    cbn [map concat] in Hrun. rewrite app_nil_r in Hrun.
    unfold exec. rewrite Hrun. cbn [fst snd self]. split; [reflexivity|].
    destruct o as [tfd rfd eof tcur tq cur q]. cbn [rxCur] in Hcur. subst cur.
    reflexivity.
  - intros w q Hq. destruct w as [o m n rs ts tr u].
    destruct o as [tfd rfd eof tcur tq cur rq]. cbn [self rxQ] in Hq. subst rq.
    unfold exec, rxNonblock, unique_lock, with_mutex0.
    cbn [self mutex0 rxQNonempty rx_script tx_script trace unguarded].
    run_pipe. cbn [fst snd self rxQ]. auto.
  - intros w Hq. destruct w as [o m n rs ts tr u].
    destruct o as [tfd rfd eof tcur tq cur rq]. cbn [self rxQ] in Hq. subst rq.
    unfold exec, rxNonblock, unique_lock, with_mutex0.
    cbn [self mutex0 rxQNonempty rx_script tx_script trace unguarded].
    run_pipe. cbn [fst snd self rxQ]. auto.
Qed.

Lemma blank_line_is_empty_record_witness :
  let w := locked_world pipe_3_4 [ReadOk [newline]] [] in
  (fst (rxWork w) = Done tt /\ rxQ (self (exec rxWork w)) = [[]]) /\
  fst (rxNonblock (exec rxWork w)) = Done [] /\
  fst (rxNonblock w) = Done [].
Proof.
  destruct blank_line_is_empty_record as (Hpush & Hpop & Hempty).
  split; [|split].
  - destruct (Hpush (locked_world pipe_3_4 [ReadOk [newline]] []) [])
      as [Hdone Hself]; [reflexivity | cbn; lia | reflexivity | reflexivity |].
    split; [exact Hdone|]. rewrite Hself. reflexivity.
  - apply (Hpop (exec rxWork (locked_world pipe_3_4 [ReadOk [newline]] [])) []).
    vm_compute. reflexivity.
  - apply (Hempty (locked_world pipe_3_4 [ReadOk [newline]] [])). reflexivity.
Defined.

(** C3, as the code has it.  In every pass of [txWork] on an open
    descriptor, whatever the results of [send]:

    - the pass begins, when there is a record or the rest of one to send,
      with a [send] that offers it;
    - every [send] that takes only part of what it is offered, be it the
      first of the pass or a later one, is directly followed by another
      [send] in the same pass, which offers exactly the unsent rest: the
      rest has become the current record and the pass goes on;
    - the pass ends in one of four ways and in no other: nothing is left to
      send; or the last [send] would have blocked, and what it was offered
      is still the current record; or the last [send] failed otherwise, a
      diagnostic is printed and the transmit direction is closed; or the
      last [send] reported more bytes than it was offered, and [txWork]
      throws.

    In particular, after a first [send] that takes [nw] bytes of a longer
    record, the second [send] offers the rest and gets the next result of
    the script; when that is to block, the pass returns with the rest as
    the current record. *)
Theorem txWork_partial_send_continues (w : world) :
  mutex0 w = true ->
  (0 <= txFd (self w))%Z ->
  (exists more : list event,
      trace (exec txWork w) = trace w ++ more /\
      partial_sends_continue more /\
      (txCur (materialize (self w)) <> [] ->
       exists more',
         more = EvSend (txFd (self w)) (txCur (materialize (self w)))
                  (next_send (tx_script w)) :: more') /\
      pass_ended (txFd (self w)) (rxFd (self w)) more
        (fst (txWork w)) (self (exec txWork w)))
  /\
  (forall (nw : nat) (rest : list send_result),
      tx_script w = SendOk nw :: rest ->
      0 < nw < length (txCur (materialize (self w))) ->
      (exists more,
          trace (exec txWork w) =
          trace w ++
          EvSend (txFd (self w)) (txCur (materialize (self w))) (SendOk nw)
          :: EvSend (txFd (self w)) (skipn nw (txCur (materialize (self w))))
               (next_send rest)
          :: more)
      /\
      (rest = [] ->
       fst (txWork w) = Done tt /\
       txCur (self (exec txWork w)) = skipn nw (txCur (materialize (self w))) /\
       txQ (self (exec txWork w)) = txQ (materialize (self w)))).
Proof.
  intros Hlock Hfd. destruct w as [o m n rs ts tr u].
  cbn [mutex0 self tx_script trace] in *. subst m. split.
  - unfold exec, txWork. cbn [tx_script].
    apply txWork_loop_pass; [lia | exact Hfd].
  - intros nw rest -> [_ Hnw].
    unfold exec, txWork. cbn [tx_script length].
    rewrite (txWork_loop_partial _ o n rs rest tr u nw Hfd Hnw).
    set (cur := txCur (materialize o)) in *.
    set (o' := store F_txCur (skipn nw cur) (materialize o)).
    assert (Hfd' : (0 <= txFd o')%Z).
    { subst o'. destruct (materialize o) eqn:E.
      pose proof (txFd_materialize o) as Hm. rewrite E in Hm.
      cbn [store txFd] in *. lia. }
    assert (Hcur' : txCur o' = skipn nw cur).
    { subst o'. destruct (materialize o). reflexivity. }
    assert (Htx' : txFd o' = txFd o).
    { subst o'. rewrite <- (txFd_materialize o). destruct (materialize o).
      reflexivity. }
    assert (Hne : txCur o' <> []).
    { rewrite Hcur'. apply skipn_nonempty. exact Hnw. }
    split.
    + destruct (txWork_loop_first_send (length rest) o' n rs rest
                  (tr ++ [EvSend (txFd o) cur (SendOk nw)]) u Hfd' Hne)
        as [more Hmore].
      exists more. rewrite Hmore, Hcur', Htx', <- app_assoc. reflexivity.
    + intros ->. cbn [length].
      rewrite (txWork_loop_eagain 0 o' n rs _ u Hfd' Hne).
      cbn [fst snd self]. rewrite Hcur'. subst o'.
      destruct (materialize o). auto.
Qed.

Lemma txWork_partial_send_continues_witness :
  let w := locked_world (store F_txQ [lit "abcde"] pipe_3_4) []
             [SendOk 2; SendOk 1; SendOk 1] in
  (exists more : list event,
      trace (exec txWork w) = trace w ++ more /\
      partial_sends_continue more /\
      (txCur (materialize (self w)) <> [] ->
       exists more',
         more = EvSend 3 (lit "abcde" ++ [newline]) (SendOk 2) :: more') /\
      pass_ended 3 4 more (fst (txWork w)) (self (exec txWork w)))
  /\
  (exists more,
      trace (exec txWork w) =
      trace w ++
      EvSend 3 (lit "abcde" ++ [newline]) (SendOk 2)
      :: EvSend 3 (lit "cde" ++ [newline]) (SendOk 1)
      :: more)
  /\
  trace (exec txWork w)
  = [ EvSend 3 (lit "abcde" ++ [newline]) (SendOk 2);
      EvSend 3 (lit "cde" ++ [newline]) (SendOk 1);
      EvSend 3 (lit "de" ++ [newline]) (SendOk 1);
      EvSend 3 (lit "e" ++ [newline]) (SendErr EAGAIN) ].
Proof.
  destruct (txWork_partial_send_continues
              (locked_world (store F_txQ [lit "abcde"] pipe_3_4) []
                 [SendOk 2; SendOk 1; SendOk 1]))
    as [Hpass Hfirst].
  - reflexivity.
  - cbn. lia.
  - cbv zeta. split; [exact Hpass|]. split; [|reflexivity].
    apply (Hfirst 2 [SendOk 1; SendOk 1]); [reflexivity | cbn; lia].
Defined.

(** When the socket takes two bytes and then would block, the pass makes two
    calls of [send] and ends with the suffix as the current record. *)
Example txWork_partial_send_then_eagain :
  let w := locked_world (store F_txQ [lit "abc"] pipe_3_4) [] [SendOk 2] in
  fst (txWork w) = Done tt /\
  txCur (self (exec txWork w)) = lit "c" ++ [newline] /\
  sends (trace (exec txWork w)) =
    [ (lit "abc" ++ [newline], SendOk 2);
      (lit "c" ++ [newline], SendErr EAGAIN) ].
Proof. vm_compute. auto. Qed.

(** C3, as the specification has it, fails: in [partial_send_world] the
    first [send] takes two of the four bytes of the current record, and the
    same pass sends the remaining two. *)
Lemma txWork_partial_send_does_not_stop :
  hd_error (tx_script partial_send_world) = Some (SendOk 2) /\
  0 < 2 < length (txCur (materialize (self partial_send_world))) /\
  sends (trace (exec txWork partial_send_world)) =
    [ (lit "abc" ++ [newline], SendOk 2); (lit "c" ++ [newline], SendOk 2) ] /\
  txCur (self (exec txWork partial_send_world)) = [] /\
  ~ stops_after_partial_send partial_send_world.
Proof.
  split; [reflexivity|]. split; [cbn; lia|].
  split; [vm_compute; reflexivity|]. split; [vm_compute; reflexivity|].
  intros Hstops. destruct (Hstops 2 eq_refl) as [Hcur _]; [cbn; lia|].
  vm_compute in Hcur. discriminate.
Qed.

(** C2: closing the receive direction wakes nobody.  A thread calls
    [rxBlock] on an open pipe with an empty queue and is suspended
    ([blocked_world]).  The peer closes the stream; [postSelect] runs
    [rxWork], which closes the receive direction ([closed_world]) without
    notifying the condition variable: the thread is still among the
    waiters.  Had it been woken, [rxBlock] would have returned the empty
    string.  The destructor does not notify either. *)
Theorem closeRx_wakes_nobody :
  fst (rxBlock open_world) = Suspended /\
  rxQNonempty blocked_world = 1 /\
  fst (postSelect [4%Z] [] blocked_world) = Done tt /\
  rxFd (self closed_world) = (-1)%Z /\
  rxQ (self closed_world) = [] /\
  trace closed_world = [EvRead 4 (ReadOk []); EvClose 4] /\
  rxQNonempty closed_world = 1 /\
  fst (rxBlock closed_world) = Done [] /\
  rxQNonempty (exec jsonpipe_delete blocked_world) = 1.
Proof. vm_compute. repeat split. Qed.

(** C8: [txEof] writes the latch without the mutex.  On an idle pipe [txEof]
    sets [txEofFlag] while the mutex is not held; the other methods touch
    the data members only under the mutex. *)
Theorem txEof_touches_latch_without_mutex :
  let w := idle_world pipe_3_4 [] [] in
  txEofFlag (self (exec txEof w)) = true /\
  unguarded (exec txEof w) = [N_txEofFlag] /\
  unguarded (exec (tx (lit "abc")) w) = [] /\
  unguarded (exec rxNonblock w) = [] /\
  unguarded (exec rxBlock w) = [] /\
  unguarded (exec (preSelect [] []) w) = [] /\
  unguarded (exec (postSelect [4%Z] [3%Z]) w) = [] /\
  unguarded (exec (setFds 3 4) (idle_world jsonpipe_new [] [])) = [].
Proof. vm_compute. repeat split. Qed.

(** * Further properties of the codec *)

(** X1.  [jsonSkipSpace] removes exactly the leading blanks: the input is a
    text of blanks followed by the result, the result does not start with a
    blank, and skipping again changes nothing. *)
Theorem jsonSkipSpace_skips_leading_blanks (s : cursor) :
  (exists blanks,
      s = blanks ++ jsonSkipSpace s /\ is_blank_text blanks = true) /\
  isJsonSpace (peek (jsonSkipSpace s)) = false /\
  jsonSkipSpace (jsonSkipSpace s) = jsonSkipSpace s.
Proof.
  split; [|split].
  - induction s as [|c s [blanks [Hs Hb]]]; [exists []; auto|].
    cbn [jsonSkipSpace]. destruct (isJsonSpace c) eqn:Hc.
    + exists (c :: blanks). cbn [app is_blank_text forallb].
      fold (is_blank_text blanks). rewrite Hc, Hb, <- Hs. auto.
    + exists []. auto.
  - apply jsonSkipSpace_peek.
  - apply jsonSkipSpace_fixed, jsonSkipSpace_peek.
Qed.

(** ** One element, one member *)

Section VectorElement.
Context {T : Type} {W : JsonWr T} {R : JsonRd T} (valid : T -> Prop).
Hypothesis HR : roundtrips W R valid.

(** Reading one element and what follows it. *)
Lemma rdJson_vector_loop_element (x : T) (tail : cursor) (fuel : nat)
  (acc : list T) :
  valid x -> delimited tail = true ->
  rdJson_vector_loop (S fuel) (wrJson [] x ++ tail) acc =
  let arr := acc ++ [x] in
  let s := jsonSkipSpace tail in
  if (peek s =? ",")%char then rdJson_vector_loop fuel (advance s) arr
  else if (peek s =? "]")%char then Some (true, advance s, arr)
  else Some (false, s, arr).
Proof.
  intros Hx Htail. rewrite rdJson_vector_loop_S. cbv zeta.
  destruct (starts_value_app (wrJson [] x) tail (wrJson_starts HR x Hx))
    as (-> & -> & _).
  rewrite (rdJson_wrJson HR x tail jsonDefault Hx Htail). reflexivity.
Qed.

Lemma rdJson_vector_loop_trailing_comma (r : list T) :
  forall (x : T) (fuel : nat) (acc : list T) (rest : cursor),
    valid x -> Forall valid r -> S (length r) < fuel ->
    rdJson_vector_loop fuel
      (wrJson [] x ++ vector_tail r ++ ","%char :: "]"%char :: rest) acc
    = Some (true, rest, acc ++ x :: r).
Proof.
  induction r as [|y r IH]; intros x fuel acc rest Hx Hr Hfuel;
    (destruct fuel as [|fuel]; [lia|]); cbn [length] in Hfuel.
  - cbn [vector_tail flat_map app].
    rewrite rdJson_vector_loop_element by (auto; reflexivity).
    destruct fuel as [|fuel]; [lia|]. reflexivity.
  - rewrite vector_tail_cons. cbn [app].
    rewrite rdJson_vector_loop_element by (auto; reflexivity).
    cbv zeta. cbn [jsonSkipSpace].
    change (isJsonSpace ","%char) with false. cbv iota.
    unfold peek, advance, tl.
    change ((","%char =? ","%char)%char) with true. cbv iota.
    inversion Hr; subst. rewrite <- app_assoc.
    rewrite IH by (auto; lia). rewrite <- app_assoc. reflexivity.
Qed.

(** Reading an array text that stops after an element: the closing bracket
    is missing. *)
Lemma rdJson_vector_loop_unterminated (r : list T) :
  forall (x : T) (fuel : nat) (acc : list T),
    valid x -> Forall valid r -> length r < fuel ->
    rdJson_vector_loop fuel (wrJson [] x ++ vector_tail r) acc
    = Some (false, [], acc ++ x :: r).
Proof.
  induction r as [|y r IH]; intros x fuel acc Hx Hr Hfuel;
    (destruct fuel as [|fuel]; [cbn [length] in Hfuel; lia|]);
    cbn [length] in Hfuel.
  - cbn [vector_tail flat_map].
    rewrite rdJson_vector_loop_element by (auto; reflexivity). reflexivity.
  - rewrite vector_tail_cons.
    rewrite rdJson_vector_loop_element by (auto; reflexivity).
    cbv zeta. cbn [jsonSkipSpace].
    change (isJsonSpace ","%char) with false. cbv iota.
    unfold peek, advance, tl.
    change ((","%char =? ","%char)%char) with true. cbv iota.
    inversion Hr; subst.
    rewrite IH by (auto; lia). rewrite <- app_assoc. reflexivity.
Qed.
End VectorElement.

Section MapMember.
Context {KT VT : Type} {L : Less KT}.
Context {WK : JsonWr KT} {WV : JsonWr VT} {RK : JsonRd KT} {RV : JsonRd VT}.
Context (validK : KT -> Prop) (validV : VT -> Prop).
Hypothesis HRK : roundtrips WK RK validK.
Hypothesis HRV : roundtrips WV RV validV.

Lemma rdJson_map_loop_trailing_comma (r : list (KT * VT)) :
  forall (it : KT * VT) (fuel : nat) (acc : std_map KT VT) (rest : cursor),
    valid_member validK validV it ->
    Forall (valid_member validK validV) r ->
    S (length r) < fuel ->
    rdJson_map_loop fuel
      (member_text it ++ map_tail r ++ ","%char :: "}"%char :: rest) acc
    = Some (true, rest, assign_all acc (it :: r)).
Proof.
  induction r as [|it' r IH]; intros it fuel acc rest Hit Hr Hfuel;
    (destruct fuel as [|fuel]; [lia|]); cbn [length] in Hfuel.
  - cbn [map_tail flat_map app].
    rewrite (rdJson_map_loop_member validK validV HRK HRV)
      by (auto; reflexivity).
    destruct fuel as [|fuel]; [lia|]. reflexivity.
  - rewrite map_tail_cons. cbn [app].
    rewrite (rdJson_map_loop_member validK validV HRK HRV)
      by (auto; reflexivity).
    cbv zeta. cbn [jsonSkipSpace].
    change (isJsonSpace ","%char) with false. cbv iota.
    unfold peek, advance, tl.
    change ((","%char =? ","%char)%char) with true. cbv iota.
    inversion Hr; subst. rewrite <- app_assoc.
    rewrite IH by (auto; lia). reflexivity.
Qed.

Lemma rdJson_map_loop_unterminated (r : list (KT * VT)) :
  forall (it : KT * VT) (fuel : nat) (acc : std_map KT VT),
    valid_member validK validV it ->
    Forall (valid_member validK validV) r ->
    length r < fuel ->
    rdJson_map_loop fuel (member_text it ++ map_tail r) acc
    = Some (false, [], assign_all acc (it :: r)).
Proof.
  induction r as [|it' r IH]; intros it fuel acc Hit Hr Hfuel;
    (destruct fuel as [|fuel]; [cbn [length] in Hfuel; lia|]);
    cbn [length] in Hfuel.
  - cbn [map_tail flat_map].
    rewrite (rdJson_map_loop_member validK validV HRK HRV)
      by (auto; reflexivity).
    reflexivity.
  - rewrite map_tail_cons.
    rewrite (rdJson_map_loop_member validK validV HRK HRV)
      by (auto; reflexivity).
    cbv zeta. cbn [jsonSkipSpace].
    change (isJsonSpace ","%char) with false. cbv iota.
    unfold peek, advance, tl.
    change ((","%char =? ","%char)%char) with true. cbv iota.
    inversion Hr; subst.
    rewrite IH by (auto; lia). reflexivity.
Qed.
End MapMember.

(** The opening bracket of a container text. *)
Lemma rdJson_vector_open {T : Type} `{JsonRd T} (s : cursor) (prior : list T) :
  rdJson_vector ("["%char :: s) prior = rdJson_vector_loop (S (length s)) s [].
Proof. reflexivity. Qed.

Lemma rdJson_map_open {KT VT : Type} `{Less KT} `{JsonRd KT} `{JsonRd VT}
  (s : cursor) (prior : std_map KT VT) :
  rdJson_map ("{"%char :: s) prior = rdJson_map_loop (S (length s)) s [].
Proof. reflexivity. Qed.

(** X2.  A comma before the closing bracket is accepted.  The text of a
    non-empty vector with a comma inserted before the closing bracket
    decodes to the same vector, and the text of a non-empty map (members in
    any order, duplicates allowed) with a comma inserted before the closing
    brace decodes to the map that its members build. *)
Theorem rdJson_accepts_trailing_comma
  {T KT VT : Type} {L : Less KT}
  {W : JsonWr T} {R : JsonRd T}
  {WK : JsonWr KT} {WV : JsonWr VT} {RK : JsonRd KT} {RV : JsonRd VT}
  (valid : T -> Prop) (validK : KT -> Prop) (validV : VT -> Prop)
  (HR : roundtrips W R valid)
  (HRK : roundtrips WK RK validK) (HRV : roundtrips WV RV validV) :
  (forall (arr prior : list T) (rest : cursor),
      arr <> [] -> Forall valid arr ->
      rdJson_vector
        ("["%char :: vector_body arr ++ ","%char :: "]"%char :: rest) prior
      = Some (true, rest, arr))
  /\
  (forall (members : list (KT * VT)) (prior : std_map KT VT) (rest : cursor),
      members <> [] -> Forall (valid_member validK validV) members ->
      rdJson_map
        ("{"%char :: map_body members ++ ","%char :: "}"%char :: rest) prior
      = Some (true, rest, assign_all [] members)).
Proof.
  split.
  - intros arr prior rest Hne Harr. destruct arr as [|x r]; [congruence|].
    inversion Harr; subst. rewrite rdJson_vector_open.
    cbn [vector_body]. rewrite <- app_assoc.
    rewrite (rdJson_vector_loop_trailing_comma valid HR); auto.
    rewrite !length_app. cbn [length].
    pose proof (vector_tail_length_ge r). lia.
  - intros members prior rest Hne Hm. destruct members as [|it r]; [congruence|].
    inversion Hm; subst. rewrite rdJson_map_open.
    cbn [map_body]. rewrite <- app_assoc.
    rewrite (rdJson_map_loop_trailing_comma validK validV HRK HRV); auto.
    rewrite !length_app. cbn [length].
    pose proof (map_tail_length_ge r). lia.
Qed.

Lemma rdJson_accepts_trailing_comma_witness :
  rdJson_vector (lit "[true,false,]") [] = Some (true, [], [true; false]) /\
  rdJson_map (lit "{true:false,}x") [] = Some (true, lit "x", [(true, false)]).
Proof.
  destruct (@rdJson_accepts_trailing_comma bool bool bool Less_bool
              JsonWr_bool JsonRd_bool JsonWr_bool JsonWr_bool JsonRd_bool
              JsonRd_bool (fun _ => True) (fun _ => True) (fun _ => True)
              roundtrips_bool roundtrips_bool roundtrips_bool) as [Hv Hm].
  split.
  - apply (Hv [true; false] [] []); [discriminate | repeat constructor].
  - apply (Hm [(true, false)] [] (lit "x"));
      [discriminate | repeat constructor].
Defined.

(** X3.  What a failed read leaves behind.  When [rdJson] into a vector
    returns false, either the text does not start with an opening bracket,
    and then the destination is untouched and the cursor has only moved
    over blanks; or it does, and then the former content is gone and the
    destination holds the elements decoded before the failure.  The same
    holds for a map, which then holds the map that the members decoded
    before the failure build. *)
Theorem rdJson_container_failure
  {T KT VT : Type} {R : JsonRd T} {L : Less KT} {RK : JsonRd KT}
  {RV : JsonRd VT} :
  (forall (s : cursor) (prior : list T) (s' : cursor) (arr : list T),
      rdJson_vector s prior = Some (false, s', arr) ->
      ((peek (jsonSkipSpace s) =? "[")%char = false /\
       s' = jsonSkipSpace s /\ arr = prior) \/
      ((peek (jsonSkipSpace s) =? "[")%char = true /\
       array_elements s = Some (false, s', arr)))
  /\
  (forall (s : cursor) (prior : std_map KT VT) (s' : cursor)
          (arr : std_map KT VT),
      rdJson_map s prior = Some (false, s', arr) ->
      ((peek (jsonSkipSpace s) =? "{")%char = false /\
       s' = jsonSkipSpace s /\ arr = prior) \/
      ((peek (jsonSkipSpace s) =? "{")%char = true /\
       exists members,
         object_members s = Some (false, s', members) /\
         arr = assign_all [] members)).
Proof.
  split.
  - intros s prior s' arr. unfold rdJson_vector, array_elements.
    destruct (peek (jsonSkipSpace s) =? "[")%char; cbn [negb].
    + cbv zeta. rewrite rdJson_vector_loop_elements.
      destruct (rdJson_vector_elements _ _) as [[[ok s2] elems]|];
        [|discriminate].
      cbn [app]. intros E. injection E as -> -> ->. right. auto.
    + intros E. injection E as <- <-. left. auto.
  - intros s prior s' arr. unfold rdJson_map, object_members.
    destruct (peek (jsonSkipSpace s) =? "{")%char; cbn [negb].
    + cbv zeta. rewrite rdJson_map_loop_members.
      destruct (rdJson_map_members _ _) as [[[ok s2] members]|];
        [|discriminate].
      intros E. injection E as -> -> <-. right. split; [reflexivity|].
      exists members. auto.
    + intros E. injection E as <- <-. left. auto.
Qed.

Lemma rdJson_container_failure_witness :
  rdJson_vector (lit " true") [false] = Some (false, lit "true", [false]) /\
  rdJson_vector (lit "[true,fals") [false; false]
  = Some (false, lit "fals", [true]) /\
  array_elements (lit "[true,fals") = Some (false, lit "fals", [true]) /\
  rdJson_map (lit "{true:false,false}") [(false, false)]
  = Some (false, lit "}", [(true, false)]).
Proof.
  destruct (@rdJson_container_failure bool bool bool JsonRd_bool Less_bool
              JsonRd_bool JsonRd_bool) as [Hv Hm].
  split; [reflexivity|]. split; [reflexivity|]. split; [|reflexivity].
  destruct (Hv (lit "[true,fals") [false; false] (lit "fals") [true] eq_refl)
    as [[Habs _]|[_ Hel]]; [discriminate Habs | exact Hel].
Defined.

(** X4.  A container text that ends before its closing bracket is
    refused: the reader returns false with the cursor at the end of the
    text, and the destination holds every element (the map built from every
    member) of the text. *)
Theorem rdJson_truncated_container
  {T KT VT : Type} {L : Less KT}
  {W : JsonWr T} {R : JsonRd T}
  {WK : JsonWr KT} {WV : JsonWr VT} {RK : JsonRd KT} {RV : JsonRd VT}
  (valid : T -> Prop) (validK : KT -> Prop) (validV : VT -> Prop)
  (HR : roundtrips W R valid)
  (HRK : roundtrips WK RK validK) (HRV : roundtrips WV RV validV) :
  (forall (arr prior : list T),
      arr <> [] -> Forall valid arr ->
      rdJson_vector ("["%char :: vector_body arr) prior
      = Some (false, [], arr))
  /\
  (forall (members : list (KT * VT)) (prior : std_map KT VT),
      members <> [] -> Forall (valid_member validK validV) members ->
      rdJson_map ("{"%char :: map_body members) prior
      = Some (false, [], assign_all [] members)).
Proof.
  split.
  - intros arr prior Hne Harr. destruct arr as [|x r]; [congruence|].
    inversion Harr; subst. rewrite rdJson_vector_open.
    cbn [vector_body].
    rewrite (rdJson_vector_loop_unterminated valid HR); auto.
    rewrite !length_app.
    pose proof (vector_tail_length_ge r). lia.
  - intros members prior Hne Hm. destruct members as [|it r]; [congruence|].
    inversion Hm; subst. rewrite rdJson_map_open.
    cbn [map_body].
    rewrite (rdJson_map_loop_unterminated validK validV HRK HRV); auto.
    rewrite !length_app.
    pose proof (map_tail_length_ge r). lia.
Qed.

Lemma rdJson_truncated_container_witness :
  rdJson_vector (lit "[true,false") [true] = Some (false, [], [true; false]) /\
  rdJson_map (lit "{true:false") [] = Some (false, [], [(true, false)]).
Proof.
  destruct (@rdJson_truncated_container bool bool bool Less_bool
              JsonWr_bool JsonRd_bool JsonWr_bool JsonWr_bool JsonRd_bool
              JsonRd_bool (fun _ => True) (fun _ => True) (fun _ => True)
              roundtrips_bool roundtrips_bool roundtrips_bool) as [Hv Hm].
  split.
  - apply (Hv [true; false] [true]); [discriminate | repeat constructor].
  - apply (Hm [(true, false)] []); [discriminate | repeat constructor].
Defined.

(** ** The text of a value as a record of the transport *)

Lemma has_newline_vector_tail {T : Type} `{JsonWr T} (arr : list T) :
  Forall (fun v => has_newline (wrJson [] v) = false) arr ->
  has_newline (vector_tail arr) = false.
Proof.
  induction 1 as [|v arr Hv _ IH]; [reflexivity|].
  rewrite vector_tail_cons. cbn [app].
  change (has_newline (","%char :: ?t)) with (has_newline t).
  rewrite has_newline_app, Hv, IH. reflexivity.
Qed.

Lemma has_newline_vector_body {T : Type} `{JsonWr T} (arr : list T) :
  Forall (fun v => has_newline (wrJson [] v) = false) arr ->
  has_newline (vector_body arr) = false.
Proof.
  destruct 1 as [|v arr Hv Harr]; [reflexivity|].
  cbn [vector_body].
  rewrite has_newline_app, Hv, has_newline_vector_tail; auto.
Qed.

Lemma has_newline_member_text {KT VT : Type} `{JsonWr KT} `{JsonWr VT}
  (it : KT * VT) :
  has_newline (wrJson [] (fst it)) = false ->
  has_newline (wrJson [] (snd it)) = false ->
  has_newline (member_text it) = false.
Proof.
  intros Hk Hv. unfold member_text.
  rewrite has_newline_app, Hk.
  change (has_newline (":"%char :: ?t)) with (has_newline t).
  rewrite Hv. reflexivity.
Qed.

Lemma has_newline_map_tail {KT VT : Type} `{JsonWr KT} `{JsonWr VT}
  (arr : list (KT * VT)) :
  Forall (fun it => has_newline (member_text it) = false) arr ->
  has_newline (map_tail arr) = false.
Proof.
  induction 1 as [|v arr Hv _ IH]; [reflexivity|].
  rewrite map_tail_cons. cbn [app].
  change (has_newline (","%char :: ?t)) with (has_newline t).
  rewrite has_newline_app, Hv, IH. reflexivity.
Qed.

Lemma has_newline_map_body {KT VT : Type} `{JsonWr KT} `{JsonWr VT}
  (arr : list (KT * VT)) :
  Forall (fun it => has_newline (member_text it) = false) arr ->
  has_newline (map_body arr) = false.
Proof.
  destruct 1 as [|v arr Hv Harr]; [reflexivity|].
  cbn [map_body].
  rewrite has_newline_app, Hv, has_newline_map_tail; auto.
Qed.

(** X5.  The writers of the header add no newline of their own: when the
    texts of the primitive values contain none, the text of a value of any
    shape contains none, so it can travel as one record of the
    newline-framed transport. *)
Theorem wrJson_adds_no_newline
  (prim : Type) (prim_type : prim -> Type)
  (prim_wr : forall p, JsonWr (prim_type p))
  (prim_est : forall p, prim_type p -> N)
  (prim_wr_lawful : forall p, wr_lawful (prim_wr p) (prim_est p))
  (prim_no_newline :
     forall p (v : prim_type p), has_newline (wrJson [] v) = false)
  (a : shape prim) (v : value prim_type a) :
  has_newline (@wrJson _ (shape_wr a) [] v) = false.
Proof.
  revert v.
  induction a as [p|a IH|a IH|k a IH]; intros v; cbn [shape_wr].
  - apply prim_no_newline.
  - destruct v as [v|]; [apply IH | reflexivity].
  - cbn [wrJson JsonWr_vector].
    rewrite (wrJson_vector_text (shape_est prim_est a)
               (shape_wr_lawful prim prim_type prim_est prim_wr_lawful a)).
    cbn [app].
    change (has_newline ("["%char :: ?t)) with (has_newline t).
    rewrite has_newline_app, has_newline_vector_body; [reflexivity|].
    apply Forall_forall. intros x _. apply IH.
  - cbn [wrJson JsonWr_map].
    rewrite (wrJson_map_text (prim_est k) (shape_est prim_est a)
               (prim_wr_lawful k)
               (shape_wr_lawful prim prim_type prim_est prim_wr_lawful a)).
    cbn [app]. unfold object_text.
    change (has_newline ("{"%char :: ?t)) with (has_newline t).
    rewrite has_newline_app, has_newline_map_body; [reflexivity|].
    apply Forall_forall. intros it _.
    apply has_newline_member_text; [apply prim_no_newline | apply IH].
Qed.

Lemma wrJson_adds_no_newline_witness :
  has_newline (@wrJson _ (@shape_wr _ bool_prim_type bool_wr nested_shape) []
                 nested_value) = false.
Proof.
  apply (wrJson_adds_no_newline unit bool_prim_type bool_wr bool_est).
  - intros []. exact wr_lawful_bool.
  - intros [] [|]; reflexivity.
Defined.

(** X6.  What follows a container text is not looked at.  For a vector or
    map shape that has a reader, the text of a well-formed value followed by
    any bytes whatever is read back as the value: [rdJson] stops right
    behind the closing bracket, and [fromJson] returns true without
    checking that the text has been used up. *)
Theorem fromJson_ignores_trailing_text
  (prim : Type) (prim_type : prim -> Type)
  (prim_wr : forall p, JsonWr (prim_type p))
  (prim_rd : forall p, JsonRd (prim_type p))
  (prim_less : forall p, Less (prim_type p))
  (prim_est : forall p, prim_type p -> N)
  (Hwr : forall p, wr_lawful (prim_wr p) (prim_est p))
  (Hrt : forall p, roundtrips (prim_wr p) (prim_rd p) (fun _ => True))
  (Hless : forall p, less_lawful (prim_less p))
  (a : shape prim) (R : JsonRd (value prim_type a))
  (Hcont : is_container a = true)
  (HR : shape_rd a = Some R)
  (v w : value prim_type a)
  (Hvalid : shape_valid a v)
  (junk : text) :
  @rdJson _ R (@wrJson _ (shape_wr a) [] v ++ junk) w = Some (true, junk, v) /\
  @fromJson _ R (@wrJson _ (shape_wr a) [] v ++ junk) w = Some (true, v).
Proof.
  assert (Hrd : @rdJson _ R (@wrJson _ (shape_wr a) [] v ++ junk) w
                = Some (true, junk, v)).
  { destruct a as [p|a|a|k a]; cbn [is_container] in Hcont;
      try discriminate; cbn [shape_rd] in HR;
      (destruct (shape_rd a) as [Ra|] eqn:HRa; [|discriminate]);
      injection HR as <-; cbn [shape_wr]; cbn [shape_valid] in Hvalid.
    - cbn [rdJson JsonRd_vector wrJson JsonWr_vector].
      apply (rdJson_vector_wrJson (shape_est prim_est a) (shape_valid a)
               (shape_wr_lawful prim prim_type prim_est Hwr a)
               (shape_roundtrips prim prim_type prim_est Hwr Hrt Hless
                  a Ra HRa)).
      exact Hvalid.
    - destruct Hvalid as [Hs Hm].
      cbn [rdJson JsonRd_map wrJson JsonWr_map].
      rewrite (wrJson_map_text (prim_est k) (shape_est prim_est a) (Hwr k)
                 (shape_wr_lawful prim prim_type prim_est Hwr a)).
      cbn [app].
      rewrite (rdJson_map_object_text (fun _ => True) (shape_valid a)
                 (Hrt k)
                 (shape_roundtrips prim prim_type prim_est Hwr Hrt Hless
                    a Ra HRa)) by exact Hm.
      rewrite (assign_all_sorted (VT:=value prim_type a) (Hless k) v []) by exact Hs. reflexivity. }
  split; [exact Hrd|]. unfold fromJson. rewrite Hrd. reflexivity.
Qed.

Lemma fromJson_ignores_trailing_text_witness :
  @fromJson _ nested_rd (lit "{false:[true,false],true:[]}]]garbage") []
  = Some (true, nested_value).
Proof.
  refine (proj2 (@fromJson_ignores_trailing_text unit bool_prim_type bool_wr
           bool_rd bool_less bool_est
           (fun _ => wr_lawful_bool) (fun _ => roundtrips_bool)
           (fun _ => less_lawful_bool)
           nested_shape nested_rd eq_refl eq_refl nested_value []
           _ (lit "]]garbage"))).
  split; repeat constructor.
Defined.

(** X7.  Blanks between the tokens are skipped.  An array text with blanks,
    tabs, newlines or carriage returns before the opening bracket, around
    every element and between the brackets of an empty array decodes to
    its elements, and an object text with such blanks before the opening
    brace, around every key and every value decodes to the map that its
    members build, provided the readers of the elements, keys and values
    accept a blank after their text. *)
Theorem rdJson_skips_blanks
  {T KT VT : Type} {L : Less KT}
  {W : JsonWr T} {R : JsonRd T}
  {WK : JsonWr KT} {WV : JsonWr VT} {RK : JsonRd KT} {RV : JsonRd VT}
  (valid : T -> Prop) (validK : KT -> Prop) (validV : VT -> Prop)
  (HR : roundtrips_blank W R valid)
  (HRK : roundtrips_blank WK RK validK)
  (HRV : roundtrips_blank WV RV validV)
  (lead inner : text)
  (Hlead : is_blank_text lead = true)
  (Hinner : is_blank_text inner = true) :
  (forall (items : list (spaced T)) (rest : cursor) (prior : list T),
      Forall (spaced_valid valid) items ->
      rdJson_vector (spaced_array lead inner items ++ rest) prior
      = Some (true, rest, map spaced_value items))
  /\
  (forall (members : list (spaced KT * spaced VT)) (rest : cursor)
          (prior : std_map KT VT),
      Forall (spaced_member_valid validK validV) members ->
      rdJson_map (spaced_object lead inner members ++ rest) prior
      = Some (true, rest, assign_all [] (map member_value members))).
Proof.
  split.
  - intros items rest prior Hitems.
    apply (rdJson_vector_spaced_array valid HR); assumption.
  - intros members rest prior Hms.
    apply (rdJson_map_spaced_object validK validV HRK HRV); assumption.
Qed.

Lemma rdJson_skips_blanks_witness :
  rdJson_vector (" "%char :: "["%char :: newline :: lit "true , false ]x") [false]
  = Some (true, lit "x", [true; false]) /\
  rdJson_map (lit " { true : false }") [] = Some (true, [], [(true, false)]).
Proof.
  destruct (@rdJson_skips_blanks bool bool bool Less_bool
              JsonWr_bool JsonRd_bool JsonWr_bool JsonWr_bool JsonRd_bool
              JsonRd_bool (fun _ => True) (fun _ => True) (fun _ => True)
              roundtrips_blank_bool roundtrips_blank_bool
              roundtrips_blank_bool (lit " ") (lit " ") eq_refl eq_refl)
    as [Hv Hm].
  split.
  - apply (Hv [mk_spaced [newline] true (lit " ");
               mk_spaced (lit " ") false (lit " ")] (lit "x") [false]).
    repeat constructor.
  - apply (Hm [(mk_spaced (lit " ") true (lit " "),
                mk_spaced (lit " ") false (lit " "))] [] []).
    repeat constructor.
Defined.

(** X8.  [vector<T *>] is written as the [vector<T>] of its pointees: when
    every element of [arr] points to a cell, the size pass and the write
    pass give what they give for the vector of these cells. *)
Theorem wrJson_vector_ptr_writes_pointees {T : Type} {W : JsonWr T}
  (h : heap T) (arr : list nat) (vals : list T) (size : N) (s : text) :
  pointees h arr = Some vals ->
  wrJsonSize_vector_ptr h size arr = Some (wrJsonSize_vector size vals) /\
  wrJson_vector_ptr h s arr = Some (wrJson_vector s vals).
Proof.
  intros Hp. split.
  - unfold wrJsonSize_vector_ptr, wrJsonSize_vector.
    rewrite (pointees_length h arr vals Hp).
    apply wrJsonSize_vector_ptr_loop_pointees. exact Hp.
  - unfold wrJson_vector_ptr, wrJson_vector.
    rewrite (wrJson_vector_ptr_loop_pointees h arr vals _ Hp).
    destruct (fold_left wrJson_vector_step vals (s ++ ["["%char], false)).
    reflexivity.
Qed.

Lemma wrJson_vector_ptr_writes_pointees_witness :
  wrJsonSize_vector_ptr [true; false] 0 [1; 0; 1] = Some 20%N /\
  wrJson_vector_ptr [true; false] [] [1; 0; 1]
  = Some (lit "[false,true,false]").
Proof.
  apply (@wrJson_vector_ptr_writes_pointees bool JsonWr_bool
           [true; false] [1; 0; 1] [false; true; false] 0%N []).
  reflexivity.
Defined.

(** X9.  [rdJson] into a [vector<T *>] decodes what [rdJson] into a
    [vector<T>] decodes, into cells of its own.  Without an opening
    bracket it fails with the destination and the heap untouched.
    Otherwise, when the reader for [vector<T>] returns the flag [ok], the
    cursor [s'] and the elements [vals], the reader for [vector<T *>]
    returns the same flag and cursor; the destination holds the addresses
    of as many new cells, in order, which hold [vals]; the cells that
    existed before are neither changed nor freed, whether the former
    elements of the destination pointed to them or not; and on failure at
    most one more cell has been allocated, which no element points to. *)
Theorem rdJson_vector_ptr_decodes_into_new_cells {T : Type} {R : JsonRd T}
  (s : cursor) (prior : list T) (arr : list nat) (h : heap T) :
  ((peek (jsonSkipSpace s) =? "[")%char = false ->
   rdJson_vector_ptr s arr h = Some (false, jsonSkipSpace s, arr, h)) /\
  (forall (ok : bool) (s' : cursor) (vals : list T),
      (peek (jsonSkipSpace s) =? "[")%char = true ->
      rdJson_vector s prior = Some (ok, s', vals) ->
      exists leak : list T,
        rdJson_vector_ptr s arr h
        = Some (ok, s', seq (length h) (length vals), h ++ vals ++ leak) /\
        pointees (h ++ vals ++ leak) (seq (length h) (length vals))
        = Some vals /\
        length leak <= 1 /\ (ok = true -> leak = [])).
Proof.
  split.
  - intros Hb. unfold rdJson_vector_ptr. cbv zeta. rewrite Hb. reflexivity.
  - intros ok s' vals Hb. unfold rdJson_vector, rdJson_vector_ptr. cbv zeta.
    rewrite Hb. cbn [negb]. cbv iota.
    rewrite rdJson_vector_loop_elements.
    pose proof (rdJson_vector_ptr_loop_elements
                  (S (length (advance (jsonSkipSpace s))))
                  (advance (jsonSkipSpace s)) [] h) as Hloop.
    destruct (rdJson_vector_elements _ _) as [[[ok1 s1] vals1]|];
      [|discriminate].
    cbn [app]. intros E. injection E as -> -> ->.
    destruct Hloop as (leak & Hrd & Hleak & Hok).
    exists leak. cbn [app] in Hrd.
    split; [exact Hrd|]. split; [apply pointees_seq|]. auto.
Qed.

Lemma rdJson_vector_ptr_decodes_into_new_cells_witness :
  rdJson_vector_ptr (lit "[true,false]") [0; 0] [false]
  = Some (true, [], [1; 2], [false; true; false]) /\
  (exists leaked : bool,
      rdJson_vector_ptr (lit "[true,x") [0] [false]
      = Some (false, lit "x", [1], [false; true; leaked])).
Proof.
  split; [|eexists; reflexivity].
  destruct (proj2 (@rdJson_vector_ptr_decodes_into_new_cells bool JsonRd_bool
                     (lit "[true,false]") [] [0; 0] [false])
              true [] [true; false] eq_refl eq_refl)
    as (leak & Hrd & _ & _ & Hok).
  rewrite (Hok eq_refl) in Hrd. exact Hrd.
Defined.

(** X10.  [map<KT, VT *>] is written as the [map<KT, VT>] of its pointees:
    when every value of [arr] points to a cell, the size pass and the write
    pass give what they give for the map of these cells. *)
Theorem wrJson_map_ptr_writes_pointees {KT VT : Type}
  {WK : JsonWr KT} {WV : JsonWr VT}
  (h : heap VT) (arr : std_map KT nat) (vals : std_map KT VT) (size : N)
  (s : text) :
  map_pointees h arr = Some vals ->
  wrJsonSize_map_ptr h size arr = Some (wrJsonSize_map size vals) /\
  wrJson_map_ptr h s arr = Some (wrJson_map s vals).
Proof.
  intros Hp. split.
  - unfold wrJsonSize_map_ptr, wrJsonSize_map.
    apply wrJsonSize_map_ptr_loop_pointees. exact Hp.
  - unfold wrJson_map_ptr, wrJson_map.
    rewrite (wrJson_map_ptr_loop_pointees h arr vals _ Hp).
    destruct (fold_left wrJson_map_step vals (s ++ ["{"%char], false)).
    reflexivity.
Qed.

Lemma wrJson_map_ptr_writes_pointees_witness :
  wrJsonSize_map_ptr [true; false] 0 [(false, 1); (true, 1)] = Some 26%N /\
  wrJson_map_ptr [true; false] [] [(false, 1); (true, 1)]
  = Some (lit "{false:false,true:false}").
Proof.
  apply (@wrJson_map_ptr_writes_pointees bool bool JsonWr_bool JsonWr_bool
           [true; false] [(false, 1); (true, 1)]
           [(false, false); (true, false)] 0%N []).
  reflexivity.
Defined.

(** X11.  [rdJson] into a [map<KT, VT *>] decodes what [rdJson] into a
    [map<KT, VT>] decodes, into cells of its own.  Without an opening
    brace it fails with the destination and the heap untouched.
    Otherwise, when the reader for [map<KT, VT>] returns the flag [ok],
    the cursor [s'] and the map [vals], the reader for [map<KT, VT *>]
    returns the same flag and cursor; the cells that existed before are
    still there, unchanged; and the destination has an entry for exactly
    the keys of [vals], each pointing to a cell allocated by this call
    that holds the value [vals] has for the key.  One cell is allocated
    per member of the text: when a key occurs more than once, the cells
    of its earlier occurrences are left without a pointer to them. *)
Theorem rdJson_map_ptr_decodes_into_new_cells {KT VT : Type} {L : Less KT}
  {RK : JsonRd KT} {RV : JsonRd VT} (HL : less_lawful L)
  (s : cursor) (prior : std_map KT VT) (arr : std_map KT nat) (h : heap VT) :
  ((peek (jsonSkipSpace s) =? "{")%char = false ->
   rdJson_map_ptr s arr h = Some (false, jsonSkipSpace s, arr, h)) /\
  (forall (ok : bool) (s' : cursor) (vals : std_map KT VT),
      (peek (jsonSkipSpace s) =? "{")%char = true ->
      rdJson_map s prior = Some (ok, s', vals) ->
      exists (arr' : std_map KT nat) (new : list VT) (members : list (KT * VT)),
        rdJson_map_ptr s arr h = Some (ok, s', arr', h ++ new) /\
        object_members s = Some (ok, s', members) /\
        length members <= length new <= S (length members) /\
        (ok = true -> length new = length members) /\
        (forall k : KT,
            map_find_deref (h ++ new) arr' k = map_find vals k /\
            (forall p, map_find arr' k = Some p -> length h <= p))).
Proof.
  split.
  - intros Hb. unfold rdJson_map_ptr. cbv zeta. rewrite Hb. reflexivity.
  - intros ok s' vals Hb.
    unfold rdJson_map, rdJson_map_ptr, object_members. cbv zeta.
    rewrite Hb. cbn [negb]. cbv iota.
    rewrite rdJson_map_loop_members.
    pose proof (rdJson_map_ptr_loop_members
                  (S (length (advance (jsonSkipSpace s))))
                  (advance (jsonSkipSpace s)) [] h) as Hloop.
    destruct (rdJson_map_members _ _) as [[[ok1 s1] members]|];
      [|discriminate].
    intros E. injection E as -> -> <-.
    destruct Hloop as (leak & Hrd & Hleak & Hok).
    eexists _, (map snd members ++ leak), members.
    split; [exact Hrd|]. split; [reflexivity|].
    rewrite length_app, length_map.
    split; [lia|]. split; [intros Ht; rewrite (Hok Ht); cbn; lia|].
    intros k. unfold map_find_deref.
    rewrite !(map_find_assign_all HL). cbn [map_find].
    pose proof (last_occurrence_new_cells members k h leak) as Hlo.
    destruct (last_occurrence
                (combine (map fst members)
                   (seq (length h) (length members))) k) as [p|];
      destruct (last_occurrence members k) as [v|]; try contradiction.
    + destruct Hlo as [Hp Hd]. split; [exact Hd|].
      intros p' E. injection E as <-. exact Hp.
    + split; [reflexivity | discriminate].
Qed.

Lemma rdJson_map_ptr_decodes_into_new_cells_witness :
  exists (arr' : std_map bool nat) (new : list bool)
         (members : list (bool * bool)),
    rdJson_map_ptr (lit "{true:false,true:true}") [(false, 0)] [false]
    = Some (true, [], arr', [false] ++ new) /\
    object_members (lit "{true:false,true:true}") = Some (true, [], members) /\
    length members <= length new <= S (length members) /\
    (true = true -> length new = length members) /\
    (forall k : bool,
        map_find_deref ([false] ++ new) arr' k = map_find [(true, true)] k /\
        (forall p, map_find arr' k = Some p -> length [false] <= p)).
Proof.
  apply (proj2 (@rdJson_map_ptr_decodes_into_new_cells bool bool Less_bool
                  JsonRd_bool JsonRd_bool less_lawful_bool
                  (lit "{true:false,true:true}") [] [(false, 0)] [false])
           true [] [(true, true)] eq_refl eq_refl).
Defined.

(** * Further properties of the transport *)

Lemma unique_lock_run {A : Type} (body : M A) (o : jsonpipe) (m : bool)
  (n : nat) (rs : list read_result) (ts : list send_result) (tr : list event)
  (u : list field_name) :
  unique_lock body (mk_world o m n rs ts tr u) =
  (fst (body (mk_world o true n rs ts tr u)),
   with_mutex0 false (snd (body (mk_world o true n rs ts tr u)))).
Proof.
  unfold unique_lock, with_mutex0 at 1.
  cbn [self rxQNonempty rx_script tx_script trace unguarded].
  destruct (body _). reflexivity.
Qed.

Lemma pending_push (o : jsonpipe) (s : text) :
  pending (store F_txQ (txQ o ++ [s]) o) = pending o ++ s ++ [newline].
Proof.
  destruct o. unfold pending. cbn [store txCur txQ].
  rewrite wire_app, <- app_assoc. cbn. rewrite app_nil_r. reflexivity.
Qed.

Lemma txWork_stream (o : jsonpipe) (n : nat) (rs : list read_result)
  (ts : list send_result) (tr : list event) (u : list field_name) :
  fst (txWork (mk_world o true n rs ts tr u)) = Done tt ->
  exists sent,
    accepted (trace (snd (txWork (mk_world o true n rs ts tr u))))
    = accepted tr ++ sent /\
    sent ++ pending (self (snd (txWork (mk_world o true n rs ts tr u))))
    = pending o.
Proof.
  unfold txWork. cbn [tx_script]. intros Hdone.
  pose proof (txWork_loop_stream _ ts o n rs tr u Hdone) as Hs.
  destruct (extends_txWork_loop (S (length ts)) (mk_world o true n rs ts tr u))
    as [more Hmore].
  cbn [trace] in Hmore. unfold stream in Hs. rewrite Hmore in *.
  rewrite accepted_app in *. exists (accepted more).
  split; [reflexivity|].
  rewrite <- app_assoc in Hs. apply app_inv_head in Hs. exact Hs.
Qed.

(** X12.  [txWork] loses nothing, repeats nothing and keeps the order.
    Whatever the socket does (it takes all, part or nothing of what it is
    offered, fails, or the descriptor is closed), when [txWork] returns,
    the bytes that [send] has taken during the call, followed by what is
    then left of the current record and by the queued records, each with
    its newline, are exactly what was left to send before the call. *)
Theorem txWork_conserves_the_stream (w : world) :
  mutex0 w = true ->
  fst (txWork w) = Done tt ->
  exists sent : text,
    accepted (trace (exec txWork w)) = accepted (trace w) ++ sent /\
    sent ++ pending (self (exec txWork w)) = pending (self w).
Proof.
  destruct w as [o m n rs ts tr u]. cbn [mutex0 self trace].
  intros -> Hdone. unfold exec. apply txWork_stream. exact Hdone.
Qed.

Lemma txWork_conserves_the_stream_witness :
  exists sent : text,
    accepted (trace (exec txWork partial_send_world))
    = accepted (trace partial_send_world) ++ sent /\
    sent ++ pending (self (exec txWork partial_send_world))
    = pending (self partial_send_world).
Proof.
  apply (txWork_conserves_the_stream partial_send_world); reflexivity.
Defined.

(** X13.  [tx] appends one record to the stream.  When [tx s] returns, the
    bytes that [send] has taken during the call followed by what is then
    left to send are what was left to send before, followed by [s] and a
    newline; the mutex is released.  When the queue already held a record,
    [tx] only appends [s] to the queue: it makes no system call and leaves
    the sending to the select loop. *)
Theorem tx_appends_to_the_stream (w : world) (s : text) :
  (fst (tx s w) = Done tt ->
   exists sent : text,
     accepted (trace (exec (tx s) w)) = accepted (trace w) ++ sent /\
     sent ++ pending (self (exec (tx s) w))
     = pending (self w) ++ s ++ [newline]) /\
  mutex0 (exec (tx s) w) = false /\
  (txQ (self w) <> [] ->
   tx s w
   = (Done tt,
      with_mutex0 false
        (with_self (store F_txQ (txQ (self w) ++ [s]) (self w)) w))).
Proof.
  destruct w as [o m n rs ts tr u]. cbn [self trace].
  unfold exec, tx. rewrite unique_lock_run. cbn [fst snd].
  rewrite bind_get_locked, bind_set_locked, bind_get_locked.
  assert (Hq : load F_txQ (store F_txQ (load F_txQ o ++ [s]) o)
               = txQ o ++ [s]) by (destruct o; reflexivity).
  rewrite Hq. replace (load F_txQ o) with (txQ o) by (destruct o; reflexivity).
  split; [|split].
  - destruct (length (txQ o ++ [s]) =? 1).
    + intros Hdone.
      destruct (txWork_stream _ n rs ts tr u Hdone) as (sent & H1 & H2).
      exists sent. unfold with_mutex0. cbn [self trace].
      rewrite H1, H2, pending_push. auto.
    + intros _. exists []. rewrite ret_run. cbn [snd with_mutex0 self trace].
      rewrite app_nil_r, pending_push. auto.
  - reflexivity.
  - intros Hne. destruct (txQ o) as [|r q] eqn:Eq; [congruence|].
    cbn [app length]. rewrite length_app, Nat.add_1_r. cbn [Nat.eqb].
    rewrite ret_run. reflexivity.
Qed.

Lemma tx_appends_to_the_stream_witness :
  (exists sent : text,
      accepted (trace (exec (tx (lit "abc"))
                         (idle_world pipe_3_4 [] [SendOk 2; SendOk 2])))
      = [] ++ sent /\
      sent ++ pending (self (exec (tx (lit "abc"))
                               (idle_world pipe_3_4 [] [SendOk 2; SendOk 2])))
      = [] ++ lit "abc" ++ [newline]) /\
  tx (lit "d") (idle_world (store F_txQ [lit "abc"] pipe_3_4) [] [SendOk 2])
  = (Done tt,
     idle_world (store F_txQ [lit "abc"; lit "d"] pipe_3_4) [] [SendOk 2]).
Proof.
  split.
  - apply (proj1 (tx_appends_to_the_stream
                    (idle_world pipe_3_4 [] [SendOk 2; SendOk 2])
                    (lit "abc"))).
    reflexivity.
  - apply (proj2 (proj2 (tx_appends_to_the_stream
                    (idle_world (store F_txQ [lit "abc"] pipe_3_4) []
                       [SendOk 2])
                    (lit "d")))).
    discriminate.
Defined.

(** ** A socket that takes every record whole *)

Lemma txWork_loop_takes_all (q : list text) :
  forall (fuel : nat) (tfd rfd : Z) (eof : bool) (rcur : text)
         (rq : list text) (n : nat) (rs : list read_result)
         (rest : list send_result) (tr : list event) (u : list field_name),
    (0 <= tfd)%Z ->
    length q < fuel ->
    txWork_loop fuel
      (mk_world (mk_jsonpipe tfd rfd eof [] q rcur rq) true n rs
         (takes_all q ++ rest) tr u) =
    (Done tt,
     mk_world (mk_jsonpipe (if eof then -1 else tfd) rfd eof [] [] rcur rq)
       true n rs rest
       (tr ++ sends_whole tfd q ++
        (if eof then [close_event tfd rfd SHUT_WR] else [])) u).
Proof.
  induction q as [|r q IH];
    intros fuel tfd rfd eof rcur rq n rs rest tr u Hfd Hfuel;
    (destruct fuel as [|fuel]; [cbn [length] in Hfuel; lia|]);
    cbn [length] in Hfuel; rewrite txWork_loop_turn; unfold materialize;
    cbn [txCur txQ store txEofFlag txFd takes_all sends_whole map app length
         Nat.eqb].
  - destruct eof; [|rewrite ret_run, app_nil_r; reflexivity].
    rewrite closeTx_run. cbn [txFd rxFd store].
    replace (tfd =? -1)%Z with false by (symmetry; apply Z.eqb_neq; lia).
    reflexivity.
  - replace (length (r ++ [newline]) =? 0) with false
      by (rewrite length_app, Nat.add_1_r; reflexivity).
    rewrite bind_sys_send by exact Hfd. cbn [next_send tl].
    rewrite length_app, Nat.add_1_r, Nat.ltb_irrefl, Nat.eqb_refl.
    rewrite bind_set_locked. cbn [store txFd rxFd txEofFlag txQ rxCur rxQ].
    fold (takes_all q). rewrite IH by (auto; lia).
    rewrite <- !app_assoc. reflexivity.
Qed.

(** X14.  On a socket that takes every record whole, one call of [txWork]
    empties the queue: each queued record is handed to one call of [send],
    followed by its newline, in the order of the queue; there is no further
    call of [send].  When the latch of [txEof] is set the transmit direction
    is closed after the last record and not before; when it is not set the
    descriptor stays open. *)
Theorem txWork_drains_the_queue (w : world) (rest : list send_result) :
  mutex0 w = true ->
  (0 <= txFd (self w))%Z ->
  txCur (self w) = [] ->
  tx_script w = takes_all (txQ (self w)) ++ rest ->
  fst (txWork w) = Done tt /\
  txQ (self (exec txWork w)) = [] /\
  txCur (self (exec txWork w)) = [] /\
  tx_script (exec txWork w) = rest /\
  trace (exec txWork w)
  = trace w ++ sends_whole (txFd (self w)) (txQ (self w)) ++
    (if txEofFlag (self w)
     then [close_event (txFd (self w)) (rxFd (self w)) SHUT_WR] else []) /\
  txFd (self (exec txWork w))
  = (if txEofFlag (self w) then -1 else txFd (self w))%Z.
Proof.
  destruct w as [[tfd rfd eof cur q rcur rq] m n rs ts tr u].
  cbn [mutex0 self txFd txCur txQ tx_script trace txEofFlag rxFd].
  intros -> Hfd -> ->. unfold exec, txWork. cbn [tx_script].
  rewrite txWork_loop_takes_all;
    [|exact Hfd
     |rewrite length_app; unfold takes_all; rewrite length_map; apply Nat.lt_succ_r, Nat.le_add_r].
  cbn [fst snd self trace tx_script txQ txCur txFd]. auto 7.
Qed.

Lemma txWork_drains_the_queue_witness :
  trace (exec txWork
           (locked_world
              (store F_txEofFlag true
                 (store F_txQ [lit "ab"; []] pipe_3_4)) []
              [SendOk 3; SendOk 1; SendOk 7]))
  = [EvSend 3 (lit "ab" ++ [newline]) (SendOk 3);
     EvSend 3 [newline] (SendOk 1); EvClose 3].
Proof.
  apply (txWork_drains_the_queue
           (locked_world
              (store F_txEofFlag true
                 (store F_txQ [lit "ab"; []] pipe_3_4)) []
              [SendOk 3; SendOk 1; SendOk 7]) [SendOk 7]);
    try reflexivity.
  cbn. lia.
Defined.

(** ** Closing both directions *)

Section RunAny.
Context {A B : Type}.
Variables (o : jsonpipe) (m : bool) (n : nat).
Variables (rs : list read_result) (ts : list send_result).
Variables (tr : list event) (u : list field_name).

Lemma bind_get_any (f : field A) (k : A -> M B) :
  bind (get f) k (mk_world o m n rs ts tr u)
  = k (load f o) (mk_world o m n rs ts tr (touched m u [name_of f])).
Proof. unfold bind, get, touch, touched. destruct m; reflexivity. Qed.

Lemma bind_set_any (f : field A) (x : A) (k : unit -> M B) :
  bind (set f x) k (mk_world o m n rs ts tr u)
  = k tt (mk_world (store f x o) m n rs ts tr (touched m u [name_of f])).
Proof. unfold bind, set, touch, touched. destruct m; reflexivity. Qed.

Lemma set_any (f : field A) (x : A) :
  set f x (mk_world o m n rs ts tr u)
  = (Done tt, mk_world (store f x o) m n rs ts tr (touched m u [name_of f])).
Proof. unfold set, touch, touched. destruct m; reflexivity. Qed.
End RunAny.

Lemma touched_touched (m : bool) (u a b : list field_name) :
  touched m (touched m u a) b = touched m u (a ++ b).
Proof. unfold touched. destruct m; [reflexivity|apply eq_sym, app_assoc]. Qed.

(** [closeTx] and [closeRx] in any world, with or without the mutex. *)
Lemma closeTx_any (o : jsonpipe) (m : bool) (n : nat) (rs : list read_result)
  (ts : list send_result) (tr : list event) (u : list field_name) :
  closeTx (mk_world o m n rs ts tr u) =
  (Done tt,
   if (txFd o =? -1)%Z then mk_world o m n rs ts tr (touched m u [N_txFd])
   else mk_world (store F_txFd (-1)%Z o) m n rs ts
          (tr ++ [close_event (txFd o) (rxFd o) SHUT_WR])
          (touched m u [N_txFd; N_rxFd; N_txFd])).
Proof.
  destruct o as [tfd rfd eof tcur tq cur q]. unfold closeTx, close_event.
  rewrite bind_get_any. cbn [load txFd rxFd name_of].
  destruct (tfd =? -1)%Z; [reflexivity|].
  rewrite bind_get_any. cbn [load txFd rxFd name_of].
  rewrite touched_touched.
  destruct (tfd =? rfd)%Z; rewrite bind_emit, set_any, touched_touched;
    reflexivity.
Qed.

Lemma closeRx_any (o : jsonpipe) (m : bool) (n : nat) (rs : list read_result)
  (ts : list send_result) (tr : list event) (u : list field_name) :
  closeRx (mk_world o m n rs ts tr u) =
  (Done tt,
   if (rxFd o =? -1)%Z then mk_world o m n rs ts tr (touched m u [N_rxFd])
   else mk_world (store F_rxFd (-1)%Z o) m n rs ts
          (tr ++ [close_event (rxFd o) (txFd o) SHUT_RD])
          (touched m u [N_rxFd; N_txFd; N_rxFd])).
Proof.
  destruct o as [tfd rfd eof tcur tq cur q]. unfold closeRx, close_event.
  rewrite bind_get_any. cbn [load txFd rxFd name_of].
  destruct (rfd =? -1)%Z; [reflexivity|].
  rewrite bind_get_any. cbn [load txFd rxFd name_of].
  rewrite touched_touched.
  destruct (rfd =? tfd)%Z; rewrite bind_emit, set_any, touched_touched;
    reflexivity.
Qed.

(** X15.  Closing both directions closes every open descriptor once.  The
    destructor closes the transmit direction first: a descriptor shared by
    the two directions is shut down for writing and then closed by
    [closeRx], which by then finds a different descriptor in [txFd].  In
    the other order (end of stream first, the latch of [txEof] later) the
    shared descriptor is shut down for reading and then closed by
    [closeTx].  Either way a direction that is closed already is left
    alone, the call returns, and the queues are not touched. *)
Theorem closing_both_directions (w : world) :
  let tfd := txFd (self w) in
  let rfd := rxFd (self w) in
  fst (jsonpipe_delete w) = Done tt /\
  self (exec jsonpipe_delete w) = both_closed (self w) /\
  trace (exec jsonpipe_delete w)
  = trace w
    ++ (if (tfd =? -1)%Z then [] else [close_event tfd rfd SHUT_WR])
    ++ (if (rfd =? -1)%Z then [] else [EvClose rfd]) /\
  fst ((closeRx ;; closeTx) w) = Done tt /\
  self (exec (closeRx ;; closeTx) w) = both_closed (self w) /\
  trace (exec (closeRx ;; closeTx) w)
  = trace w
    ++ (if (rfd =? -1)%Z then [] else [close_event rfd tfd SHUT_RD])
    ++ (if (tfd =? -1)%Z then [] else [EvClose tfd]).
Proof.
  destruct w as [[tfd rfd eof cur q rcur rq] m n rs ts tr u].
  cbn [self txFd rxFd trace]. cbv zeta.
  unfold jsonpipe_delete, exec, bind.
  rewrite closeTx_any, closeRx_any. cbn [txFd rxFd].
  destruct (Z.eqb_spec tfd (-1)) as [->|Ht];
    destruct (Z.eqb_spec rfd (-1)) as [->|Hr];
    rewrite ?closeTx_any, ?closeRx_any; unfold close_event;
    cbn [store txFd rxFd];
    repeat match goal with
           | |- context [(?a =? ?b)%Z] =>
               first [ replace (a =? b)%Z with false
                         by (symmetry; apply Z.eqb_neq; lia)
                     | replace (a =? b)%Z with true
                         by (symmetry; apply Z.eqb_eq; lia) ]
           end;
    cbn [fst snd self trace app]; rewrite ?app_nil_r, <- ?app_assoc;
    repeat split; reflexivity.
Qed.

(** ** Records and wake-ups *)

Lemma split_records_grows (p : text) :
  forall (cur : text) (q : list text),
    exists new : list text,
      snd (split_records cur q p) = q ++ new /\
      has_newline p = negb (length new =? 0).
Proof.
  induction p as [|c p IH]; intros cur q; cbn [split_records].
  - exists []. rewrite app_nil_r. auto.
  - unfold has_newline. cbn [existsb]. fold (has_newline p).
    destruct (c =? newline)%char.
    + destruct (IH [] (q ++ [cur])) as (new & Hs & _).
      exists (cur :: new). rewrite Hs, <- app_assoc. auto.
    + apply IH.
Qed.

Lemma rxQ_framed (p : text) (o : jsonpipe) :
  exists new : list text,
    rxQ (framed p o) = rxQ o ++ new /\
    has_newline p = negb (length new =? 0).
Proof.
  destruct (split_records_grows p (rxCur o) (rxQ o)) as (new & Hs & Hn).
  exists new. split; [|exact Hn]. unfold framed.
  destruct (split_records (rxCur o) (rxQ o) p) as [cur q].
  cbn [snd] in Hs. destruct o. exact Hs.
Qed.

Lemma notifications_app (a b : list event) :
  notifications (a ++ b) = notifications a + notifications b.
Proof. unfold notifications. rewrite filter_app, length_app. reflexivity. Qed.

Lemma notifications_close_event (fd other : Z) (how : shut_how) :
  notifications [close_event fd other how] = 0.
Proof. unfold close_event. destruct (fd =? other)%Z; reflexivity. Qed.

Ltac rx_loop_ends :=
  eexists _, _, _, _, []; split; [reflexivity|];
  split; [cbn [store rxQ]; rewrite app_nil_r; reflexivity|];
  split; [rewrite orb_false_r; reflexivity|];
  rewrite ?notifications_app, ?notifications_close_event;
  cbn [notifications filter length]; lia.

(** The loop of [rxWork] on any script: it returns, the queue only grows,
    [rxActivity] tells whether it grew, and nobody is notified inside the
    loop. *)
Lemma rxWork_loop_activity (rs : list read_result) :
  forall (fuel : nat) (act : bool) (o : jsonpipe) (n : nat)
         (ts : list send_result) (tr : list event) (u : list field_name),
    length rs < fuel ->
    exists act' o' rs' tr' new,
      rxWork_loop fuel act (mk_world o true n rs ts tr u)
      = (Done act', mk_world o' true n rs' ts tr' u) /\
      rxQ o' = rxQ o ++ new /\
      act' = act || negb (length new =? 0) /\
      notifications tr' = notifications tr.
Proof.
  induction rs as [|r rs IH]; intros fuel act o n ts tr u Hfuel;
    (destruct fuel as [|fuel]; [cbn [length] in Hfuel; lia|]);
    rewrite rxWork_loop_S, bind_get_locked; cbn [load];
    destruct (Z.ltb_spec (rxFd o) 0) as [Hfd|Hfd].
  - rewrite bind_sys_read_closed by exact Hfd. cbn [errno_eqb].
    unfold bind. rewrite closeRx_run.
    destruct o as [tfd rfd eof tcur tq cur q]. cbn [rxFd txFd].
    destruct (rfd =? -1)%Z; rx_loop_ends.
  - rewrite bind_sys_read_empty by exact Hfd. cbn [errno_eqb].
    rewrite ret_run. rx_loop_ends.
  - rewrite bind_sys_read_closed by exact Hfd. cbn [errno_eqb].
    unfold bind. rewrite closeRx_run.
    destruct o as [tfd rfd eof tcur tq cur q]. cbn [rxFd txFd].
    destruct (rfd =? -1)%Z; rx_loop_ends.
  - rewrite bind_sys_read by exact Hfd. cbn [length] in Hfuel.
    destruct r as [e|buf].
    + destruct (errno_eqb e EAGAIN); [rewrite ret_run; rx_loop_ends|].
      unfold bind. rewrite closeRx_run.
      destruct o as [tfd rfd eof tcur tq cur q]. cbn [rxFd txFd].
      destruct (rfd =? -1)%Z; rx_loop_ends.
    + destruct buf as [|c buf]; cbn [length Nat.eqb].
      * destruct o as [tfd rfd eof tcur tq cur q].
        destruct cur as [|c0 cur]; run_pipe; unfold bind;
          rewrite closeRx_run; cbn [rxFd txFd];
          destruct (rfd =? -1)%Z; rx_loop_ends.
      * unfold bind at 1. rewrite rxWork_scan_locked.
        destruct (IH fuel (act || has_newline (c :: buf))
                    (framed (c :: buf) o) n ts
                    (tr ++ [EvRead (rxFd o) (ReadOk (c :: buf))]) u)
          as (act' & o' & rs' & tr' & new2 & Hrun & Hq & Hact & Hnot); [lia|].
        destruct (rxQ_framed (c :: buf) o) as (new1 & Hq1 & Hn1).
        exists act', o', rs', tr', (new1 ++ new2).
        split; [exact Hrun|]. split; [|split].
        -- rewrite Hq, Hq1, app_assoc. reflexivity.
        -- rewrite Hact, Hn1, length_app.
           destruct new1, new2; cbn [length Nat.add Nat.eqb negb];
             rewrite ?orb_false_r, ?orb_true_r; reflexivity.
        -- rewrite Hnot, notifications_app. cbn. lia.
Qed.

(** X16.  No record without a wake-up, no wake-up without a record.  On
    any sequence of results of [read], [rxWork] returns; the receive queue
    keeps what it held and may grow at its end; when it has grown,
    [rxWork] has called [notify_all] exactly once, after the last record
    was queued, and no thread is left waiting; when it has not grown, also
    when the direction was closed, [rxWork] has notified nobody and the
    waiters are still waiting. *)
Theorem rxWork_notifies_iff_queued (w : world) :
  mutex0 w = true ->
  exists new : list text,
    fst (rxWork w) = Done tt /\
    rxQ (self (exec rxWork w)) = rxQ (self w) ++ new /\
    notifications (trace (exec rxWork w))
    = notifications (trace w) + (if length new =? 0 then 0 else 1) /\
    rxQNonempty (exec rxWork w)
    = (if length new =? 0 then rxQNonempty w else 0) /\
    (new <> [] ->
     exists before, trace (exec rxWork w) = before ++ [EvNotifyAll]).
Proof.
  destruct w as [o m n rs ts tr u]. cbn [mutex0 self trace rxQNonempty].
  intros ->. unfold exec, rxWork. cbn [rx_script].
  destruct (rxWork_loop_activity rs (S (length rs)) false o n ts tr u)
    as (act & o' & rs' & tr' & new & Hrun & Hq & Hact & Hnot); [lia|].
  exists new. rewrite !(bind_run _ _ _ _ _ Hrun). cbn [orb] in Hact.
  subst act.
  destruct new as [|r new]; cbn [length Nat.eqb negb].
  - rewrite ret_run. cbn [fst snd self trace rxQNonempty].
    repeat split; auto; try lia; congruence.
  - unfold cv_notify_all. rewrite bind_emit.
    cbn [fst snd self trace rxQNonempty with_rxQNonempty].
    rewrite notifications_app. cbn [notifications filter length].
    repeat split; auto; try lia. intros _. eexists. reflexivity.
Qed.

Lemma rxWork_notifies_iff_queued_witness :
  exists new : list text,
    fst (rxWork blocked_world_locked) = Done tt /\
    rxQ (self (exec rxWork blocked_world_locked))
    = rxQ (self blocked_world_locked) ++ new /\
    notifications (trace (exec rxWork blocked_world_locked))
    = notifications (trace blocked_world_locked)
      + (if length new =? 0 then 0 else 1) /\
    rxQNonempty (exec rxWork blocked_world_locked)
    = (if length new =? 0 then rxQNonempty blocked_world_locked else 0) /\
    (new <> [] ->
     exists before,
       trace (exec rxWork blocked_world_locked) = before ++ [EvNotifyAll]).
Proof.
  apply (rxWork_notifies_iff_queued blocked_world_locked). reflexivity.
Defined.

(** X17.  What is framed on the way out is unframed on the way in.  Let
    the bytes of the records [records], each followed by a newline, and of
    the beginning [partial] of a further record arrive in non-empty chunks,
    cut anywhere; none of the records contains a newline.  Then [rxWork]
    appends exactly [records] to the receive queue, in order, and keeps
    [partial] as the carry-over; the direction stays open. *)
Theorem rxWork_unframes_the_wire (w : world) (chunks records : list text)
  (partial : text) :
  mutex0 w = true ->
  (0 <= rxFd (self w))%Z ->
  rxCur (self w) = [] ->
  rx_script w = map ReadOk chunks ->
  Forall (fun chunk => chunk <> []) chunks ->
  concat chunks = wire records ++ partial ->
  Forall (fun r => has_newline r = false) records ->
  has_newline partial = false ->
  fst (rxWork w) = Done tt /\
  rxQ (self (exec rxWork w)) = rxQ (self w) ++ records /\
  rxCur (self (exec rxWork w)) = partial /\
  rxFd (self (exec rxWork w)) = rxFd (self w).
Proof.
  destruct w as [o m n rs ts tr u]. cbn [mutex0 self rx_script].
  intros -> Hfd Hcur -> Hne Hcat Hrs Hp.
  destruct (rxWork_chunks chunks o n ts tr u Hfd Hne) as (n' & tr' & Hrun).
  unfold exec. rewrite Hrun. cbn [fst snd self].
  rewrite Hcat, framed_wire by assumption.
  destruct o. cbn [store rxQ rxCur rxFd]. auto.
Qed.

Lemma rxWork_unframes_the_wire_witness :
  rxQ (self (exec rxWork
               (locked_world pipe_3_4
                  (map ReadOk [lit "tr"; lit "ue" ++ newline :: lit "[1"]) [])))
  = [lit "true"] /\
  rxCur (self (exec rxWork
                 (locked_world pipe_3_4
                    (map ReadOk [lit "tr"; lit "ue" ++ newline :: lit "[1"])
                    [])))
  = lit "[1".
Proof.
  destruct (rxWork_unframes_the_wire
              (locked_world pipe_3_4
                 (map ReadOk [lit "tr"; lit "ue" ++ newline :: lit "[1"]) [])
              [lit "tr"; lit "ue" ++ newline :: lit "[1"]
              [lit "true"] (lit "[1")) as (_ & Hq & Hcur & _);
    try reflexivity.
  - cbn. lia.
  - repeat constructor; discriminate.
  - repeat constructor.
  - split; [exact Hq | exact Hcur].
Defined.

(** X18.  A failing [read].  When [read] fails with an error other than
    [EAGAIN], after any number of reads that delivered data in the same
    call, [rxWork] closes the receive direction and stops reading; in
    contrast to the end of the stream, the carry-over is kept and no
    diagnostic is printed.  The failure itself adds nothing to the queue
    and wakes nobody: the queue holds what the data read before have
    completed, and [notify_all] is called exactly when they have completed
    a record.  On a direction that is closed already, [rxWork] makes one
    failing call of [read] and changes nothing. *)
Theorem rxWork_read_error (w : world) :
  mutex0 w = true ->
  (forall (chunks : list text) (e : errno_t) (rest : list read_result),
      (0 <= rxFd (self w))%Z ->
      e <> EAGAIN ->
      Forall (fun chunk => chunk <> []) chunks ->
      rx_script w = map ReadOk chunks ++ ReadErr e :: rest ->
      fst (rxWork w) = Done tt /\
      self (exec rxWork w)
      = store F_rxFd (-1)%Z (framed (concat chunks) (self w)) /\
      trace (exec rxWork w)
      = trace w
        ++ map (fun chunk => EvRead (rxFd (self w)) (ReadOk chunk)) chunks
        ++ [EvRead (rxFd (self w)) (ReadErr e);
            close_event (rxFd (self w)) (txFd (self w)) SHUT_RD]
        ++ rx_notified (has_newline (concat chunks)) /\
      rx_script (exec rxWork w) = rest /\
      rxQNonempty (exec rxWork w)
      = (if has_newline (concat chunks) then 0 else rxQNonempty w)) /\
  (rxFd (self w) = (-1)%Z ->
   fst (rxWork w) = Done tt /\
   self (exec rxWork w) = self w /\
   trace (exec rxWork w) = trace w ++ [EvRead (-1) (ReadErr EBADF)] /\
   rx_script (exec rxWork w) = rx_script w /\
   rxQNonempty (exec rxWork w) = rxQNonempty w).
Proof.
  destruct w as [o m n rs ts tr u].
  cbn [mutex0 self rx_script trace rxQNonempty]. intros ->. split.
  - intros chunks e rest Hfd He Hne ->. unfold exec.
    rewrite (rxWork_chunks_error chunks e o n rest ts tr u Hfd He Hne).
    cbn [fst snd self trace rx_script rxQNonempty].
    rewrite <- !app_assoc. repeat split; reflexivity.
  - intros Hfd. unfold exec, rxWork. cbn [rx_script].
    rewrite rxWork_loop_S. rewrite bind_assoc, bind_get_locked. cbn [load].
    rewrite Hfd. rewrite bind_assoc, bind_sys_read_closed by lia.
    cbn [errno_eqb]. rewrite bind_assoc.
    rewrite !(bind_run _ _ _ _ _
                (closeRx_closed o n rs ts
                   (tr ++ [EvRead (-1) (ReadErr EBADF)]) u Hfd)).
    rewrite bind_ret, ret_run.
    cbn [fst snd self trace rx_script rxQNonempty].
    repeat split; reflexivity.
Qed.

Lemma rxWork_read_error_witness :
  self (exec rxWork
          (locked_world pipe_3_4
             [ReadOk (lit "a" ++ newline :: lit "b"); ReadErr ECONNRESET] []))
  = store F_rxFd (-1)%Z
      (store F_rxQ [lit "a"] (store F_rxCur (lit "b") pipe_3_4)) /\
  trace (exec rxWork
           (locked_world pipe_3_4
              [ReadOk (lit "a" ++ newline :: lit "b"); ReadErr ECONNRESET] []))
  = [EvRead 4 (ReadOk (lit "a" ++ newline :: lit "b"));
     EvRead 4 (ReadErr ECONNRESET); EvClose 4; EvNotifyAll] /\
  trace (exec rxWork (locked_world jsonpipe_new [ReadOk (lit "x")] []))
  = [EvRead (-1) (ReadErr EBADF)].
Proof.
  destruct (proj1 (rxWork_read_error
                     (locked_world pipe_3_4
                        [ReadOk (lit "a" ++ newline :: lit "b");
                         ReadErr ECONNRESET] []) eq_refl)
              [lit "a" ++ newline :: lit "b"] ECONNRESET [])
    as (_ & Hself & Htrace & _).
  - cbn. lia.
  - discriminate.
  - repeat constructor; discriminate.
  - reflexivity.
  - split; [exact Hself|]. split; [exact Htrace|].
    apply (proj2 (rxWork_read_error
                    (locked_world jsonpipe_new [ReadOk (lit "x")] [])
                    eq_refl) eq_refl).
Defined.

(** ** Taking records off the receive queue *)

Lemma rxBlock_pop (o : jsonpipe) (m : bool) (n : nat) (rs : list read_result)
  (ts : list send_result) (tr : list event) (u : list field_name)
  (r : text) (q : list text) :
  rxQ o = r :: q ->
  rxBlock (mk_world o m n rs ts tr u)
  = (Done r, mk_world (store F_rxQ q o) false n rs ts tr u).
Proof.
  intros Hq. unfold rxBlock. rewrite unique_lock_run.
  rewrite bind_get_locked. cbn [load]. rewrite Hq.
  rewrite bind_set_locked, ret_run. reflexivity.
Qed.

Lemma rxNonblock_pop (o : jsonpipe) (m : bool) (n : nat)
  (rs : list read_result) (ts : list send_result) (tr : list event)
  (u : list field_name) (r : text) (q : list text) :
  rxQ o = r :: q ->
  rxNonblock (mk_world o m n rs ts tr u)
  = (Done r, mk_world (store F_rxQ q o) false n rs ts tr u).
Proof.
  intros Hq. unfold rxNonblock. rewrite unique_lock_run.
  rewrite bind_get_locked. cbn [load]. rewrite Hq.
  rewrite bind_set_locked, ret_run. reflexivity.
Qed.

Lemma rxQ_store_rxQ (q : list text) (o : jsonpipe) : rxQ (store F_rxQ q o) = q.
Proof. destruct o. reflexivity. Qed.

Lemma store_rxQ_twice (q q' : list text) (o : jsonpipe) :
  store F_rxQ q (store F_rxQ q' o) = store F_rxQ q o.
Proof. destruct o. reflexivity. Qed.

Lemma store_rxQ_same (o : jsonpipe) : store F_rxQ (rxQ o) o = o.
Proof. destruct o. reflexivity. Qed.

(** Calling a method that pops the queue once per queued record. *)
Lemma times_pop (pop : M text) :
  (forall o m n rs ts tr u r q,
      rxQ o = r :: q ->
      pop (mk_world o m n rs ts tr u)
      = (Done r, mk_world (store F_rxQ q o) false n rs ts tr u)) ->
  forall (records rest : list text) (o : jsonpipe) (n : nat)
         (rs : list read_result) (ts : list send_result) (tr : list event)
         (u : list field_name),
    rxQ o = records ++ rest ->
    times (length records) pop (mk_world o false n rs ts tr u)
    = (Done records, mk_world (store F_rxQ rest o) false n rs ts tr u).
Proof.
  intros Hpop records. induction records as [|r records IH];
    intros rest o n rs ts tr u Hq; cbn [length times].
  - cbn [app] in Hq. rewrite ret_run, <- Hq, store_rxQ_same. reflexivity.
  - cbn [app] in Hq.
    rewrite (bind_run _ _ _ _ _ (Hpop o false n rs ts tr u r _ Hq)).
    rewrite (bind_run _ _ _ _ _
               (IH rest (store F_rxQ (records ++ rest) o) n rs ts tr u
                  (rxQ_store_rxQ _ o))).
    rewrite ret_run, store_rxQ_twice. reflexivity.
Qed.

(** X19.  The receive queue is first in, first out, and outlives the
    descriptor.  Called once per queued record, [rxBlock] returns the
    records in the order in which they were queued and never suspends the
    caller, whether the receive direction is open or closed; so does
    [rxNonblock].  Once the queue is empty, [rxBlock] returns the empty
    string at once when the direction is closed, and when it is open it
    suspends the caller, who joins the waiters with the mutex released. *)
Theorem rxBlock_delivers_the_queue (w : world) (records rest : list text) :
  mutex0 w = false ->
  rxQ (self w) = records ++ rest ->
  times (length records) rxBlock w
  = (Done records, with_self (store F_rxQ rest (self w)) w) /\
  times (length records) rxNonblock w
  = (Done records, with_self (store F_rxQ rest (self w)) w) /\
  (rest = [] ->
   let w' := with_self (store F_rxQ [] (self w)) w in
   if (rxFd (self w) =? -1)%Z then rxBlock w' = (Done [], w')
   else rxBlock w' = (Suspended, with_rxQNonempty (S (rxQNonempty w)) w')).
Proof.
  destruct w as [o m n rs ts tr u]. cbn [mutex0 self rxQNonempty].
  intros -> Hq. unfold with_self.
  cbn [self mutex0 rxQNonempty rx_script tx_script trace unguarded].
  split; [|split].
  - apply (times_pop rxBlock rxBlock_pop). exact Hq.
  - apply (times_pop rxNonblock rxNonblock_pop). exact Hq.
  - intros _. cbv zeta. unfold rxBlock. rewrite unique_lock_run.
    rewrite bind_get_locked. destruct o as [tfd rfd eof tcur tq cur q].
    cbn [load store rxFd rxQ]. rewrite bind_get_locked. cbn [load rxFd].
    destruct (rfd =? -1)%Z; reflexivity.
Qed.

Lemma rxBlock_delivers_the_queue_witness :
  times 2 rxBlock
    (idle_world (store F_rxQ [lit "a"; []; lit "b"] jsonpipe_new) [] [])
  = (Done [lit "a"; []],
     idle_world (store F_rxQ [lit "b"] jsonpipe_new) [] []).
Proof.
  apply (proj1 (rxBlock_delivers_the_queue
                  (idle_world (store F_rxQ [lit "a"; []; lit "b"] jsonpipe_new)
                     [] [])
                  [lit "a"; []] [lit "b"] eq_refl eq_refl)).
Defined.

(** ** From one end to the other *)

Lemma bind_done {A B : Type} (m : M A) (k : A -> M B) (w : world) (b : B) :
  fst (bind m k w) = Done b ->
  exists a w', m w = (Done a, w') /\ bind m k w = k a w'.
Proof.
  unfold bind. destruct (m w) as [[a| | |] w']; cbn [fst]; try discriminate.
  intros _. exists a, w'. auto.
Qed.

Lemma tx_stream (s : text) (w : world) :
  fst (tx s w) = Done tt ->
  stream (snd (tx s w)) = stream w ++ s ++ [newline].
Proof.
  destruct w as [o m n rs ts tr u]. unfold tx. rewrite unique_lock_run.
  cbn [fst snd].
  rewrite bind_get_locked, bind_set_locked, bind_get_locked.
  assert (Hq : load F_txQ (store F_txQ (load F_txQ o ++ [s]) o)
               = txQ o ++ [s]) by (destruct o; reflexivity).
  rewrite Hq. replace (load F_txQ o) with (txQ o) by (destruct o; reflexivity).
  unfold stream at 2. cbn [trace self].
  rewrite <- app_assoc, <- pending_push.
  destruct (length (txQ o ++ [s]) =? 1).
  - intros Hdone. unfold txWork in *. cbn [tx_script] in *.
    pose proof (txWork_loop_stream _ ts _ n rs tr u Hdone) as Hs.
    unfold stream, with_mutex0 in *. cbn [trace self]. exact Hs.
  - intros _. rewrite ret_run. reflexivity.
Qed.

Lemma tx_each_stream (records : list text) :
  forall w : world,
    fst (tx_each records w) = Done tt ->
    stream (snd (tx_each records w)) = stream w ++ wire records.
Proof.
  induction records as [|r records IH]; intros w; cbn [tx_each].
  - intros _. rewrite ret_run. cbn [snd wire map concat].
    rewrite app_nil_r. reflexivity.
  - intros Hdone.
    destruct (bind_done _ _ _ _ Hdone) as ([] & w' & Htx & Hbind).
    rewrite Hbind in *. rewrite IH by exact Hdone.
    replace w' with (snd (tx r w)) by (rewrite Htx; reflexivity).
    rewrite tx_stream by (rewrite Htx; reflexivity).
    rewrite wire_cons, <- !app_assoc. reflexivity.
Qed.

(** [postSelect] when only the receive descriptor is ready, and delivers
    [chunks] before it would block. *)
Lemma postSelect_rx_chunks (chunks : list text) (rfds wfds : fd_set)
  (o : jsonpipe) (m : bool) (n : nat) (ts : list send_result)
  (tr : list event) (u : list field_name) :
  (0 <= rxFd o)%Z ->
  FD_ISSET (rxFd o) rfds = true ->
  FD_ISSET (txFd o) wfds = false ->
  Forall (fun chunk => chunk <> []) chunks ->
  exists n' tr',
    postSelect rfds wfds (mk_world o m n (map ReadOk chunks) ts tr u)
    = (Done tt, mk_world (framed (concat chunks) o) false n' [] ts tr' u).
Proof.
  intros Hfd Hr Ht Hne.
  destruct (rxWork_chunks chunks o n ts tr u Hfd Hne) as (n' & tr' & Hrun).
  exists n', tr'. unfold postSelect. rewrite unique_lock_run.
  rewrite !bind_get_locked. cbn [load]. rewrite Hr.
  replace (rxFd o =? -1)%Z with false by (symmetry; apply Z.eqb_neq; lia).
  cbn [negb andb].
  rewrite !(bind_run _ _ _ _ _ Hrun). rewrite !bind_get_locked. cbn [load].
  rewrite txFd_framed, Ht, andb_false_r, ret_run. reflexivity.
Qed.

(** X20.  From [tx] at one end to [rxNonblock] at the other.  One pipe is
    given the records [records] by successive calls of [tx] and has sent
    everything by the end of them; the bytes that its calls of [send] have
    taken reach another pipe in non-empty chunks, cut anywhere, and the
    select loop of that pipe calls [postSelect] with the receive descriptor
    ready.  If no record contains a newline, as many calls of [rxNonblock]
    as there are records return the records, in order. *)
Theorem records_cross_the_pipe (ws wr : world) (records chunks : list text) :
  pending (self ws) = [] ->
  accepted (trace ws) = [] ->
  fst (tx_each records ws) = Done tt ->
  pending (self (exec (tx_each records) ws)) = [] ->
  (0 <= rxFd (self wr))%Z ->
  rxCur (self wr) = [] ->
  rxQ (self wr) = [] ->
  rx_script wr = map ReadOk chunks ->
  Forall (fun chunk => chunk <> []) chunks ->
  concat chunks = accepted (trace (exec (tx_each records) ws)) ->
  Forall (fun r => has_newline r = false) records ->
  fst (times (length records) rxNonblock
         (exec (postSelect [rxFd (self wr)] []) wr))
  = Done records.
Proof.
  intros Hp0 Ha0 Hdone Hp1 Hfd Hcur Hq Hscript Hne Hcat Hrs.
  pose proof (tx_each_stream records ws Hdone) as Hs.
  unfold stream in Hs. fold (exec (tx_each records) ws) in Hs.
  rewrite Hp1, Hp0, Ha0, app_nil_r in Hs. cbn [app] in Hs.
  rewrite Hs in Hcat. clear Hs Hp0 Ha0 Hdone Hp1.
  destruct wr as [o m n rs ts tr u].
  cbn [self rx_script] in *. subst rs.
  destruct (postSelect_rx_chunks chunks [rxFd o] [] o m n ts tr u Hfd)
    as (n' & tr' & Hrun); auto.
  { unfold FD_ISSET. cbn [existsb]. rewrite Z.eqb_refl. reflexivity. }
  unfold exec. rewrite Hrun. cbn [snd].
  rewrite Hcat, <- (app_nil_r (wire records)).
  rewrite framed_wire by (auto; reflexivity).
  rewrite Hq. cbn [app].
  rewrite (times_pop rxNonblock rxNonblock_pop records [] _ n' [] ts tr' u).
  - reflexivity.
  - rewrite rxQ_store_rxQ, app_nil_r. reflexivity.
Qed.

Lemma records_cross_the_pipe_witness :
  fst (times 2 rxNonblock
         (exec (postSelect [4%Z] [])
            (idle_world pipe_3_4
               (map ReadOk [lit "a"; lit "b" ++ [newline; "c"%char];
                            lit "de" ++ [newline]]) [])))
  = Done [lit "ab"; lit "cde"].
Proof.
  apply (records_cross_the_pipe
           (idle_world pipe_3_4 [] [SendOk 1; SendOk 2; SendOk 4])
           (idle_world pipe_3_4
              (map ReadOk [lit "a"; lit "b" ++ [newline; "c"%char];
                           lit "de" ++ [newline]]) [])
           [lit "ab"; lit "cde"]
           [lit "a"; lit "b" ++ [newline; "c"%char]; lit "de" ++ [newline]]);
    try reflexivity.
  - cbn. lia.
  - repeat constructor; discriminate.
  - repeat constructor.
Defined.

(** ** Setting the descriptors *)



(** ** What the select loop is asked to wait for *)






(** ** What the methods never undo *)

Section Stable.
Context {A B : Type} (P : jsonpipe -> Prop).

Lemma stable_ret (a : A) : stable P (ret a).
Proof. intros w Hw. exact Hw. Qed.

Lemma stable_throw (what : string) : stable P (@throw A what).
Proof. intros w Hw. exact Hw. Qed.

Lemma stable_out_of_fuel : stable P (@out_of_fuel A).
Proof. intros w Hw. exact Hw. Qed.

Lemma stable_cv_wait : stable P (@cv_wait A).
Proof. intros w Hw. exact Hw. Qed.

Lemma stable_bind (m : M A) (k : A -> M B) :
  stable P m -> (forall a, stable P (k a)) -> stable P (bind m k).
Proof.
  intros Hm Hk w Hw. unfold bind. specialize (Hm w Hw).
  destruct (m w) as [[a| | |] w1]; cbn [snd] in *; auto.
  apply Hk. exact Hm.
Qed.

Lemma stable_get (f : field A) : stable P (get f).
Proof.
  intros w Hw. unfold get, touch. cbn [snd]. destruct (mutex0 w); exact Hw.
Qed.

Lemma stable_set (f : field A) (x : A) :
  (forall o, P o -> P (store f x o)) -> stable P (set f x).
Proof.
  intros Hs w Hw. unfold set, touch. cbn [snd].
  destruct (mutex0 w); apply Hs; exact Hw.
Qed.

Lemma stable_unique_lock (body : M A) :
  stable P body -> stable P (unique_lock body).
Proof.
  intros Hb w Hw. unfold unique_lock. specialize (Hb (with_mutex0 true w) Hw).
  destruct (body (with_mutex0 true w)) as [r w']. exact Hb.
Qed.
End Stable.

Lemma stable_emit (P : jsonpipe -> Prop) (e : event) : stable P (emit e).
Proof. intros w Hw. exact Hw. Qed.

Lemma stable_cv_notify_all (P : jsonpipe -> Prop) : stable P cv_notify_all.
Proof. intros w Hw. exact Hw. Qed.

Lemma stable_sys_read (P : jsonpipe -> Prop) (fd : Z) : stable P (sys_read fd).
Proof.
  intros w Hw. unfold sys_read.
  destruct (fd <? 0)%Z; [exact Hw|]. destruct (rx_script w); exact Hw.
Qed.

Lemma stable_sys_send (P : jsonpipe -> Prop) (fd : Z) (data : text) :
  stable P (sys_send fd data).
Proof.
  intros w Hw. unfold sys_send.
  destruct (fd <? 0)%Z; [exact Hw|]. destruct (tx_script w); exact Hw.
Qed.

Create HintDb stable.

#[local] Hint Resolve stable_ret stable_throw stable_out_of_fuel
  stable_cv_wait stable_get stable_emit stable_cv_notify_all stable_sys_read
  stable_sys_send : stable.

(** The three properties: a closed receive direction, a closed transmit
    direction, the latch of [txEof]. *)
Ltac stable_store :=
  let o := fresh "o" in let H := fresh "H" in
  intros o H; destruct o; cbn [store rxFd txFd txEofFlag] in *;
  first [exact H | reflexivity].

Ltac stable_step :=
  repeat first
    [ solve [auto with stable]
    | match goal with
      | |- stable _ (bind _ _) => apply stable_bind; [|intros ?]
      | |- stable _ (unique_lock _) => apply stable_unique_lock
      | |- stable _ (set _ _) => apply stable_set; stable_store
      | |- stable _ (if ?b then _ else _) => destruct b
      | |- stable _ (match ?x with _ => _ end) => destruct x
      end ].

Section StableMethods.
Variable P : jsonpipe -> Prop.
Hypothesis P_rxFd : forall o, P o -> P (store F_rxFd (-1)%Z o).
Hypothesis P_txFd : forall o, P o -> P (store F_txFd (-1)%Z o).
Hypothesis P_txEofFlag : forall o, P o -> P (store F_txEofFlag true o).
Hypothesis P_txCur : forall x o, P o -> P (store F_txCur x o).
Hypothesis P_txQ : forall x o, P o -> P (store F_txQ x o).
Hypothesis P_rxCur : forall x o, P o -> P (store F_rxCur x o).
Hypothesis P_rxQ : forall x o, P o -> P (store F_rxQ x o).

Ltac stable_fields :=
  repeat first
    [ solve [auto with stable]
    | match goal with
      | |- stable _ (bind _ _) => apply stable_bind; [|intros ?]
      | |- stable _ (unique_lock _) => apply stable_unique_lock
      | |- stable _ (set F_rxFd _) => apply stable_set, P_rxFd
      | |- stable _ (set F_txFd _) => apply stable_set, P_txFd
      | |- stable _ (set F_txEofFlag _) => apply stable_set, P_txEofFlag
      | |- stable _ (set F_txCur _) => apply stable_set, P_txCur
      | |- stable _ (set F_txQ _) => apply stable_set, P_txQ
      | |- stable _ (set F_rxCur _) => apply stable_set, P_rxCur
      | |- stable _ (set F_rxQ _) => apply stable_set, P_rxQ
      | |- stable _ (if ?b then _ else _) => destruct b
      | |- stable _ (match ?x with _ => _ end) => destruct x
      end ].

Lemma stable_closeRx : stable P closeRx.
Proof. unfold closeRx. stable_fields. Qed.

Lemma stable_closeTx : stable P closeTx.
Proof. unfold closeTx. stable_fields. Qed.

Lemma stable_rxWork_scan (p : text) :
  forall rxActivity : bool, stable P (rxWork_scan p rxActivity).
Proof.
  induction p as [p IH] using (induction_ltof1 _ (@length ascii)).
  unfold ltof in IH. intros rxActivity. destruct p as [|c p'].
  - simp rxWork_scan. apply stable_ret.
  - rewrite rxWork_scan_cons.
    destruct (memchr (c :: p') newline) as [i|].
    + assert (Hlt : length (skipn (S i) (c :: p')) < length (c :: p')).
      { cbn [skipn length]. pose proof (length_skipn i p'). lia. }
      pose proof (IH _ Hlt true). stable_fields; assumption.
    + stable_fields.
Qed.

Lemma stable_rxWork_loop (fuel : nat) :
  forall rxActivity : bool, stable P (rxWork_loop fuel rxActivity).
Proof.
  induction fuel as [|fuel IH]; intros rxActivity;
    [apply stable_out_of_fuel|].
  rewrite rxWork_loop_S. pose proof stable_rxWork_scan.
  pose proof stable_closeRx. stable_fields; auto.
Qed.

Lemma stable_rxWork : stable P rxWork.
Proof.
  intros w Hw. unfold rxWork.
  apply (stable_bind P (rxWork_loop (S (length (rx_script w))) false)); auto.
  - apply stable_rxWork_loop.
  - intros [|]; auto with stable.
Qed.

Lemma stable_txWork_loop (fuel : nat) : stable P (txWork_loop fuel).
Proof.
  induction fuel as [|fuel IH]; [apply stable_out_of_fuel|].
  rewrite txWork_loop_S. pose proof stable_closeTx.
  stable_fields; auto.
Qed.

Lemma stable_txWork : stable P txWork.
Proof. intros w Hw. unfold txWork. apply stable_txWork_loop. exact Hw. Qed.

Lemma kept_by_the_methods_intro : kept_by_the_methods P.
Proof.
  pose proof stable_rxWork. pose proof stable_txWork.
  pose proof stable_closeRx. pose proof stable_closeTx.
  unfold kept_by_the_methods, tx, txEof, rxBlock, rxNonblock, preSelect,
    postSelect.
  repeat split; intros; try assumption; stable_fields; auto.
Qed.
End StableMethods.

(** X23.  What is closed stays closed, and the latch stays set.  No method
    other than [setFds] gives a closed direction a descriptor: when
    [rxFd] is -1 before a call of [rxWork], [txWork], [tx], [txEof],
    [rxBlock], [rxNonblock], [preSelect], [postSelect], [closeRx] or
    [closeTx], it is -1 after it, however the call ends, and so for
    [txFd].  No method at all clears the latch of [txEof], not even
    [setFds]. *)
Theorem closed_stays_closed :
  kept_by_the_methods (fun o => rxFd o = (-1)%Z) /\
  kept_by_the_methods (fun o => txFd o = (-1)%Z) /\
  kept_by_the_methods (fun o => txEofFlag o = true) /\
  (forall t r, stable (fun o => txEofFlag o = true) (setFds t r)).
Proof.
  split; [|split; [|split]].
  - apply kept_by_the_methods_intro; intros; destruct o; auto.
  - apply kept_by_the_methods_intro; intros; destruct o; auto.
  - apply kept_by_the_methods_intro; intros; destruct o; auto.
  - intros t r. unfold setFds. stable_step.
Qed.

(** ** A reader that waits, a writer that is closed *)

Lemma rxWork_chunks_waiters (chunks : list text) (o : jsonpipe) (n : nat)
  (ts : list send_result) (tr : list event) (u : list field_name) :
  (0 <= rxFd o)%Z ->
  Forall (fun chunk => chunk <> []) chunks ->
  exists tr',
    rxWork (mk_world o true n (map ReadOk chunks) ts tr u) =
    (Done tt,
     mk_world (framed (concat chunks) o) true
       (if has_newline (concat chunks) then 0 else n) [] ts tr' u).
Proof.
  intros Hfd Hne. unfold rxWork. cbn [rx_script].
  destruct (rxWork_loop_chunks chunks (S (length (map ReadOk chunks))) false
              o n ts tr u) as [tr' Htr']; auto.
  { rewrite length_map. lia. }
  rewrite (bind_run _ _ _ _ _ Htr'). cbn [orb].
  destruct (has_newline (concat chunks)).
  - eexists. unfold cv_notify_all. rewrite bind_emit. reflexivity.
  - eexists. reflexivity.
Qed.

(** X24.  A reader that waits is woken by the record it waits for.  On an
    open pipe with an empty queue [rxBlock] suspends the caller, who joins
    the waiters.  When a record then arrives and the select loop calls
    [postSelect] with the receive descriptor ready, no waiter is left, and
    the caller, going on with the test of its loop, returns the record and
    leaves the queue empty. *)
Theorem rxBlock_is_woken_by_a_record (w : world) (r : text) :
  mutex0 w = false ->
  (0 <= rxFd (self w))%Z ->
  rxQ (self w) = [] ->
  rxCur (self w) = [] ->
  has_newline r = false ->
  let w1 := exec rxBlock w in
  let w2 := exec (postSelect [rxFd (self w)] [])
              (with_rx_script [ReadOk (r ++ [newline])] w1) in
  fst (rxBlock w) = Suspended /\
  rxQNonempty w1 = S (rxQNonempty w) /\
  mutex0 w1 = false /\
  fst (postSelect [rxFd (self w)] []
         (with_rx_script [ReadOk (r ++ [newline])] w1)) = Done tt /\
  rxQNonempty w2 = 0 /\
  fst (rxBlock w2) = Done r /\
  rxQ (self (exec rxBlock w2)) = [].
Proof.
  destruct w as [o m n rs ts tr u]. cbn [mutex0 self rxQNonempty].
  intros -> Hfd Hq Hcur Hr. cbv zeta.
  assert (Hopen : (rxFd o =? -1)%Z = false) by (apply Z.eqb_neq; lia).
  assert (Hblock : rxBlock (mk_world o false n rs ts tr u)
                   = (Suspended, mk_world o false (S n) rs ts tr u)).
  { unfold rxBlock. rewrite unique_lock_run, bind_get_locked. cbn [load].
    rewrite Hq, bind_get_locked. cbn [load]. rewrite Hopen. reflexivity. }
  unfold exec. rewrite !Hblock. cbn [fst snd]. unfold with_rx_script.
  cbn [self mutex0 rxQNonempty rx_script tx_script trace unguarded].
  destruct (rxWork_chunks_waiters [r ++ [newline]] o (S n) ts tr u Hfd)
    as [tr' Hrun].
  { constructor; [destruct r; discriminate | constructor]. }
  assert (Hpost : postSelect [rxFd o] []
                    (mk_world o false (S n) [ReadOk (r ++ [newline])] ts tr u)
                  = (Done tt,
                     mk_world (store F_rxQ [r] o) false 0 [] ts tr' u)).
  { unfold postSelect. rewrite unique_lock_run.
    match goal with
    | |- context [snd (?b ?W)] =>
        assert (Hb : b W = (Done tt,
                            mk_world (store F_rxQ [r] o) true 0 [] ts tr' u))
    end.
    { rewrite bind_get_locked. cbn [load]. unfold FD_ISSET.
      cbn [existsb]. rewrite Z.eqb_refl, Hopen. cbn [negb andb orb].
      cbn [map] in Hrun. rewrite (bind_run _ _ _ _ _ Hrun).
      rewrite bind_get_locked, andb_false_r, ret_run.
      assert (Hw : concat [r ++ [newline]] = wire [r] ++ [])
        by (unfold wire; cbn [map concat]; rewrite !app_nil_r; reflexivity).
      rewrite Hw.
      rewrite framed_wire by (auto; repeat constructor; assumption).
      assert (Hn : has_newline (wire [r] ++ []) = true).
      { unfold wire. cbn [map concat]. rewrite !has_newline_app.
        cbn [has_newline existsb].
        change ((newline =? newline)%char) with true.
        cbn [orb]. rewrite orb_true_r. reflexivity. }
      rewrite Hn, Hq.
      destruct o. cbn [rxCur] in Hcur. subst. reflexivity. }
    rewrite Hb. reflexivity. }
  rewrite !Hpost. cbn [fst snd rxQNonempty].
  rewrite (rxBlock_pop (store F_rxQ [r] o) false 0 [] ts tr' u r []
             (rxQ_store_rxQ _ _)).
  cbn [fst snd self]. rewrite rxQ_store_rxQ. auto 8.
Qed.

Lemma rxBlock_is_woken_by_a_record_witness :
  fst (rxBlock
         (exec (postSelect [4%Z] [])
            (with_rx_script [ReadOk (lit "true" ++ [newline])]
               (exec rxBlock (idle_world pipe_3_4 [] [])))))
  = Done (lit "true").
Proof.
  apply (rxBlock_is_woken_by_a_record (idle_world pipe_3_4 [] [])
           (lit "true")); try reflexivity.
  cbn. lia.
Defined.

(** X25.  A closed transmit direction takes records and sends none.  When
    [txFd] is -1, [tx s] still returns and queues [s]: nothing is taken by
    [send], and what is left to send grows by [s] and a newline.  [tx]
    does not look at [txFd]: when the queue was empty it calls [txWork],
    which offers the current record to [send] on the descriptor -1, prints
    the diagnostic of the failure, and keeps the record. *)
Theorem tx_on_a_closed_direction (w : world) (s : text) :
  txFd (self w) = (-1)%Z ->
  fst (tx s w) = Done tt /\
  accepted (trace (exec (tx s) w)) = accepted (trace w) /\
  pending (self (exec (tx s) w)) = pending (self w) ++ s ++ [newline] /\
  txFd (self (exec (tx s) w)) = (-1)%Z /\
  (txQ (self w) = [] ->
   exists cur,
     cur <> [] /\
     txCur (self (exec (tx s) w)) = cur /\
     trace (exec (tx s) w)
     = trace w ++ [EvSend (-1) cur (SendErr EBADF); EvEprintfWrite EBADF]).
Proof.
  destruct w as [[tfd rfd eof cur q rcur rq] m n rs ts tr u].
  cbn [self txFd trace txQ]. intros ->.
  unfold exec, tx. rewrite unique_lock_run.
  rewrite bind_get_locked, bind_set_locked, bind_get_locked.
  cbn [load store txFd rxFd txEofFlag txCur txQ rxCur rxQ].
  destruct q as [|r q].
  - cbn [app length Nat.eqb]. unfold txWork. cbn [tx_script].
    rewrite txWork_loop_turn. cbv zeta. unfold materialize. cbn [txCur txQ].
    assert (Hclose : forall o' tr',
               txFd o' = (-1)%Z ->
               closeTx (mk_world o' true n rs ts tr' u)
               = (Done tt, mk_world o' true n rs ts tr' u)).
    { intros o' tr' Ho'. rewrite closeTx_run, Ho'. reflexivity. }
    destruct cur as [|c cur].
    + cbn [store txCur txFd txEofFlag].
      replace (length (s ++ [newline]) =? 0) with false
        by (rewrite length_app, Nat.add_1_r; reflexivity).
      rewrite bind_sys_send_closed by lia. cbn [errno_eqb].
      rewrite bind_emit, Hclose by reflexivity.
      unfold with_mutex0, pending.
      cbn [fst snd self trace txFd txCur txQ wire map concat].
      rewrite !accepted_app. cbn [accepted flat_map app].
      rewrite !app_nil_r, <- !app_assoc.
      repeat split; try reflexivity.
      intros _. exists (s ++ [newline]).
      repeat split; try reflexivity. destruct s; discriminate.
    + cbn [store txCur txFd txEofFlag length Nat.eqb].
      rewrite bind_sys_send_closed by lia. cbn [errno_eqb].
      rewrite bind_emit, Hclose by reflexivity.
      unfold with_mutex0, pending.
      cbn [fst snd self trace txFd txCur txQ wire map concat].
      rewrite !accepted_app. cbn [accepted flat_map app].
      rewrite !app_nil_r, <- !app_assoc.
      repeat split; try reflexivity.
      intros _. exists (c :: cur).
      repeat split; try reflexivity. discriminate.
  - cbn [app length]. rewrite length_app, Nat.add_1_r. cbn [Nat.eqb].
    rewrite ret_run. unfold with_mutex0, pending.
    cbn [fst snd self trace txFd txCur txQ].
    change (r :: q ++ [s]) with ((r :: q) ++ [s]).
    rewrite wire_app. cbn [wire map concat]. rewrite app_nil_r, <- !app_assoc.
    repeat split; try reflexivity. discriminate.
Qed.

Lemma tx_on_a_closed_direction_witness :
  trace (exec (tx (lit "ab")) (idle_world jsonpipe_new [] [SendOk 3]))
  = [EvSend (-1) (lit "ab" ++ [newline]) (SendErr EBADF);
     EvEprintfWrite EBADF] /\
  pending (self (exec (tx (lit "ab")) (idle_world jsonpipe_new [] [SendOk 3])))
  = lit "ab" ++ [newline].
Proof.
  destruct (tx_on_a_closed_direction (idle_world jsonpipe_new [] [SendOk 3])
              (lit "ab") eq_refl) as (_ & _ & Hp & _ & Htr).
  split; [|exact Hp].
  destruct (Htr eq_refl) as (cur & _ & _ & Hcur). reflexivity.
Defined.
